(** * Dynamic-Tensor-TinyML: half-precision codec and int8 quantizer

    A shallow embedding of [12332.c]: the float32 <-> float16 bit-level
    conversion and the scale-based quantization / dequantization of
    tensors, with the properties stated for them.

    Conventions.
    - A C [float] object is given by its 32-bit IEEE-754 pattern (a [Z] in
      [0, 2^32)); the pointer casts [*((uint32_t* )&value)] and
      [*((float* )&bits)] are the identity on that pattern.
    - Float arithmetic ([/], [*], [<], [>], int -> float, float -> int8) is
      IEEE-754 binary32 with round-to-nearest-even, taken from the
      standard library's [SpecFloat] at precision 24 and [emax] 128.
      [SpecFloat] has one NaN; where the program stores a NaN the pattern
      is the one the SSE multiplication of the x86-64 build produces.
    - Fixed-width integer arithmetic has its wrap-around written out.
    - Behaviour the C standard leaves undefined (reading or writing outside
      a buffer, reading the wrong union member, converting a NaN or an
      out-of-range float to an integer) is [None]. *)

From Stdlib Require Import ZArith Lia Bool QArith Qabs Qpower Lqa.
From Stdlib Require Import Floats.SpecFloat.
From stdpp Require Import base option list.

Local Open Scope Z_scope.

(** ** Fixed-width integers *)

Definition wrap16 (z : Z) : Z := z mod 2 ^ 16.
Definition wrap32 (z : Z) : Z := z mod 2 ^ 32.

(** Conversion to [int16_t]: reduction modulo 2^16 into [-2^15, 2^15). *)
Definition to_int16 (z : Z) : Z :=
  let r := z mod 2 ^ 16 in
  if r <? 2 ^ 15 then r else r - 2 ^ 16.

Definition is_u16 (z : Z) : Prop := 0 <= z < 2 ^ 16.
Definition is_u32 (z : Z) : Prop := 0 <= z < 2 ^ 32.

(** ** IEEE-754 binary32 *)

Module Float32.

Definition prec : Z := 24.
Definition emax : Z := 128.

(** Fields of a 32-bit pattern. *)
Definition sign_of (b : Z) : bool := Z.testbit b 31.
Definition exp_of (b : Z) : Z := Z.land (Z.shiftr b 23) 0xFF.
Definition man_of (b : Z) : Z := Z.land b 0x7FFFFF.

(** The value denoted by a 32-bit pattern. *)
Definition of_bits (b : Z) : spec_float :=
  let s := sign_of b in
  let e := exp_of b in
  let m := man_of b in
  if e =? 0 then
    match m with
    | Zpos p => S754_finite s p (-149)
    | _ => S754_zero s
    end
  else if e =? 255 then
    (if m =? 0 then S754_infinity s else S754_nan)
  else S754_finite s (Z.to_pos (m + 2 ^ 23)) (e - 150).

Definition sign_bit (s : bool) : Z := if s then 2 ^ 31 else 0.

(** The 32-bit pattern of a value. A NaN has many patterns: the positive
    quiet NaN [0x7FC00000] stands for it here, and an operation that can
    produce a NaN chooses the pattern it stores itself ([nan_of_product]). *)
Definition to_bits (f : spec_float) : Z :=
  match f with
  | S754_zero s => sign_bit s
  | S754_infinity s => Z.lor (sign_bit s) 0x7F800000
  | S754_nan => 0x7FC00000
  | S754_finite s m e =>
      if Zpos m <? 2 ^ 23 then Z.lor (sign_bit s) (Zpos m)
      else Z.lor (sign_bit s)
                 (Z.lor (Z.shiftl (e + 150) 23) (Zpos m - 2 ^ 23))
  end.

Definition div : spec_float -> spec_float -> spec_float := SFdiv prec emax.
Definition mul : spec_float -> spec_float -> spec_float := SFmul prec emax.
Definition ltb : spec_float -> spec_float -> bool := SFltb.
Definition valid : spec_float -> bool := valid_binary prec emax.

(** Conversion of an [int] to [float]. *)
Definition of_int (z : Z) : spec_float := binary_normalize prec emax z 0 false.

Definition is_nan (f : spec_float) : bool :=
  match f with S754_nan => true | _ => false end.

(** The pattern of a NaN product [a * b] whose left operand [a] is not a
    NaN, [b] given by its pattern: a NaN operand comes back quieted (bit 22
    set, sign and payload kept); the invalid product of a zero and an
    infinity is the default NaN [0xFFC00000]. *)
Definition nan_of_product (b : Z) : Z :=
  if is_nan (of_bits b) then Z.lor b 0x00400000 else 0xFFC00000.

(** The integral part of a float, fraction discarded (toward zero);
    none for infinities and NaN. *)
Definition trunc (f : spec_float) : option Z :=
  match f with
  | S754_zero _ => Some 0
  | S754_finite s m e =>
      Some (cond_Zopp s (if 0 <=? e then Z.shiftl (Zpos m) e
                         else Z.shiftr (Zpos m) (- e)))
  | S754_infinity _ | S754_nan => None
  end.

(** The cast [(int8_t)f]: defined when the integral part fits. *)
Definition to_int8 (f : spec_float) : option Z :=
  match trunc f with
  | Some z => if (-128 <=? z) && (z <=? 127) then Some z else None
  | None => None
  end.

(** The rational number a finite float stands for. *)
Definition to_Q (f : spec_float) : option Q :=
  match f with
  | S754_zero _ => Some 0%Q
  | S754_finite s m e =>
      Some (if 0 <=? e then inject_Z (cond_Zopp s (Zpos m * 2 ^ e))
            else Qmake (cond_Zopp s (Zpos m)) (Z.to_pos (2 ^ (- e))))
  | S754_infinity _ | S754_nan => None
  end.

(** A decimal literal [n/d] with small integers [n], [d]: the binary32
    number nearest to the quotient. *)
Definition lit (n d : Z) : Z := to_bits (div (of_int n) (of_int d)).

End Float32.

(** The rational value of a 32-bit pattern. *)
Definition f32_value (b : Z) : option Q := Float32.to_Q (Float32.of_bits b).

(** ** Bit fields as numbers *)

(** Sign, exponent and top ten mantissa bits of a 32-bit pattern. *)
Definition sgn32 (bits : Z) : Z := (bits / 2 ^ 31) mod 2.
Definition exp32 (bits : Z) : Z := (bits / 2 ^ 23) mod 2 ^ 8.
Definition top10 (bits : Z) : Z := (bits / 2 ^ 13) mod 2 ^ 10.

(** Sign, exponent and mantissa of a 16-bit pattern. *)
Definition sgn16 (v : Z) : Z := (v / 2 ^ 15) mod 2.
Definition exp16 (v : Z) : Z := (v / 2 ^ 10) mod 2 ^ 5.
Definition man16 (v : Z) : Z := v mod 2 ^ 10.

(** The exponent of a 32-bit pattern moved from bias 127 to bias 15. *)
Definition rebiased (bits : Z) : Z := Float32.exp_of bits - 127 + 15.

(** ** Tensors *)

Inductive TensorType : Set :=
  | TENSOR_FLOAT32
  | TENSOR_FLOAT16
  | TENSOR_INT8.

#[global] Instance TensorType_eq_dec : EqDecision TensorType.
Proof. solve_decision. Defined.

(** The storage the [data] union points to: exactly one of the three
    element kinds. *)
Inductive buffer : Type :=
  | Buf_f32 (l : list Z)
  | Buf_f16 (l : list Z)
  | Buf_i8 (l : list Z).

Record Tensor : Type := mkTensor {
  type : TensorType;
  rows : Z;
  cols : Z;
  data : buffer
}.

Definition set_data (t : Tensor) (b : buffer) : Tensor :=
  {| type := type t; rows := rows t; cols := cols t; data := b |}.

(** The buffer of a given element kind. *)
Definition buf_of (ty : TensorType) (l : list Z) : buffer :=
  match ty with
  | TENSOR_FLOAT32 => Buf_f32 l
  | TENSOR_FLOAT16 => Buf_f16 l
  | TENSOR_INT8 => Buf_i8 l
  end.

(** A tensor as [create_tensor] builds it: 16-bit dimensions and a buffer
    of the tagged kind with [rows * cols] elements, here [l]. *)
Definition tensor_holds (t : Tensor) (ty : TensorType) (l : list Z) : Prop :=
  type t = ty /\ data t = buf_of ty l
  /\ is_u16 (rows t) /\ is_u16 (cols t)
  /\ Z.of_nat (length l) = rows t * cols t.

(** [t->data.f32[i]] *)
Definition read_f32 (b : buffer) (i : nat) : option Z :=
  match b with Buf_f32 l => l !! i | _ => None end.

(** [t->data.i8[i]] *)
Definition read_i8 (b : buffer) (i : nat) : option Z :=
  match b with Buf_i8 l => l !! i | _ => None end.

(** [t->data.i8[i] = v] *)
Definition write_i8 (b : buffer) (i : nat) (v : Z) : option buffer :=
  match b with
  | Buf_i8 l => if decide (i < length l)%nat then Some (Buf_i8 (<[i:=v]> l)) else None
  | _ => None
  end.

(** [t->data.f32[i] = v] *)
Definition write_f32 (b : buffer) (i : nat) (v : Z) : option buffer :=
  match b with
  | Buf_f32 l => if decide (i < length l)%nat then Some (Buf_f32 (<[i:=v]> l)) else None
  | _ => None
  end.

(** [for (i = start; i < start + n; i++) body], threading the state. *)
Fixpoint for_loop {S : Type} (n : nat) (i : nat)
    (body : nat -> S -> option S) (s : S) : option S :=
  match n with
  | O => Some s
  | Datatypes.S n' =>
      match body i s with
      | Some s' => for_loop n' (Datatypes.S i) body s'
      | None => None
      end
  end.

(** ** FLOAT32 -> FLOAT16 *)

(** [sign] and [mantissa] are [uint16_t]; [exponent] is an [int16_t]
    assigned from an unsigned 32-bit computation; the returned [int]
    expression is converted to [uint16_t]. *)
Definition float32_to_float16 (value : Z) : Z :=
  let bits := value in
  let sign := wrap16 (Z.land (Z.shiftr bits 16) 0x8000) in
  let exponent :=
    to_int16 (wrap32 (wrap32 (Z.land (Z.shiftr bits 23) 0xFF - 127) + 15)) in
  let mantissa := wrap16 (Z.land (Z.shiftr bits 13) 0x3FF) in
  if exponent <=? 0 then 0
  else if 31 <=? exponent then wrap16 (Z.lor sign 0x7C00)
  else wrap16 (Z.lor (Z.lor sign (Z.shiftl exponent 10)) mantissa).

(** ** FLOAT16 -> FLOAT32 *)

(** All four locals are [uint32_t]; [(value & 0x8000) << 16] is evaluated
    on the promoted [int] and lands, as a two's-complement pattern, in bit
    31.  The result is the float whose pattern is [bits]; [0.0f] is the
    pattern 0. *)
Definition float16_to_float32 (value : Z) : Z :=
  if Z.land value 0x7FFF =? 0 then 0
  else
    let sign := wrap32 (Z.shiftl (Z.land value 0x8000) 16) in
    let exponent := wrap32 (Z.land (Z.shiftr value 10) 0x1F) in
    let mantissa := wrap32 (Z.land value 0x3FF) in
    let exponent := wrap32 (wrap32 (exponent - 15) + 127) in
    let bits :=
      Z.lor (Z.lor sign (wrap32 (Z.shiftl exponent 23)))
            (wrap32 (Z.shiftl mantissa 13)) in
    bits.

(** ** Quantization *)

(** The loop body's arithmetic: divide, clamp in the float domain, cast. *)
Definition quantize_value (x scale : Z) : option Z :=
  let value := Float32.div (Float32.of_bits x) (Float32.of_bits scale) in
  let value :=
    if Float32.ltb (Float32.of_int 127) value then Float32.of_int 127 else value in
  let value :=
    if Float32.ltb value (Float32.of_int (-128)) then Float32.of_int (-128) else value in
  Float32.to_int8 value.

(** The function returns the destination tensor as the call leaves it.
    [total] is the [uint32_t] holding the product of the two dimensions. *)
Definition quantize_float32_to_int8 (src dst : Tensor) (scale : Z) : option Tensor :=
  if bool_decide (type src <> TENSOR_FLOAT32) || bool_decide (type dst <> TENSOR_INT8)
  then Some dst
  else
    let total := wrap32 (rows src * cols src) in
    out ← for_loop (Z.to_nat total) 0
          (fun i out =>
             x ← read_f32 (data src) i;
             q ← quantize_value x scale;
             write_i8 out i q)
          (data dst);
    Some (set_data dst out).

(** ** Dequantization *)

(** The loop body's arithmetic: the int8 converted to float, times the
    scale, stored as a float. The converted int8 is never a NaN, so a NaN
    product takes its pattern from the scale. *)
Definition dequantize_value (q scale : Z) : Z :=
  let product := Float32.mul (Float32.of_int q) (Float32.of_bits scale) in
  if Float32.is_nan product then Float32.nan_of_product scale
  else Float32.to_bits product.

Definition dequantize_int8_to_float32 (src dst : Tensor) (scale : Z) : option Tensor :=
  if bool_decide (type src <> TENSOR_INT8) || bool_decide (type dst <> TENSOR_FLOAT32)
  then Some dst
  else
    let total := wrap32 (rows src * cols src) in
    out ← for_loop (Z.to_nat total) 0
          (fun i out =>
             q ← read_i8 (data src) i;
             write_f32 out i (dequantize_value q scale))
          (data dst);
    Some (set_data dst out).

(** ** The demo's data *)

Definition f0_1 : Z := 0x3DCCCCCD.   (* 0.1f *)
Definition f0_5 : Z := 0x3F000000.   (* 0.5f *)
Definition fm1_2 : Z := 0xBF99999A.  (* -1.2f *)
Definition f3_4 : Z := 0x4059999A.   (* 3.4f *)
Definition f2_1 : Z := 0x40066666.   (* 2.1f *)
Definition f12_8 : Z := 0x414CCCCD.  (* 12.8f *)
Definition fm13_0 : Z := 0xC1500000. (* -13.0f *)

(** [create_tensor(2, 2, ty)] with the given contents. *)
Definition tensor2x2 (ty : TensorType) (b : buffer) : Tensor :=
  {| type := ty; rows := 2; cols := 2; data := b |}.

Definition input : Tensor :=
  tensor2x2 TENSOR_FLOAT32 (Buf_f32 [f0_5; fm1_2; f3_4; f2_1]).

Definition f1_75 : Z := 0x3FE00000.  (* 1.75f *)
Definition f1_0 : Z := 0x3F800000.   (* 1.0f *)
Definition f2_0 : Z := 0x40000000.   (* 2.0f *)

(** [create_tensor(1, 1, ty)] with the given contents. *)
Definition tensor1x1 (ty : TensorType) (b : buffer) : Tensor :=
  {| type := ty; rows := 1; cols := 1; data := b |}.

(** ** The half-step error bound

    For an element [x] and a scale that quantize to [q] without saturating,
    the dequantized value is within half the scale of [x]. *)
Definition within_half_step (x scale : Z) : Prop :=
  forall (X S D : Q) (q : Z),
    f32_value x = Some X ->
    f32_value scale = Some S ->
    (0 < S)%Q ->
    quantize_value x scale = Some q ->
    q <> 127 -> q <> -128 ->
    f32_value (dequantize_value q scale) = Some D ->
    (Qabs (X - D) <= S / inject_Z 2)%Q.

(** ** Printing *)

(** [t->data.f16[i]] *)
Definition read_f16 (b : buffer) (i : nat) : option Z :=
  match b with Buf_f16 l => l !! i | _ => None end.

(** One [printf] call of [print_tensor], with its arguments: the header
    ["Tensor (%dx%d):\n"], an element as ["%.3f "] (the float given by its
    pattern) or as ["%d "], and the line break. *)
Inductive out_event : Type :=
  | Out_header (r c : Z)
  | Out_float (bits : Z)
  | Out_int (z : Z)
  | Out_newline.

(** The calls [print_tensor] makes, in order.  [total] and [i] are
    [uint32_t]; the remainder [(i + 1) % t->cols] is unsigned and has no
    defined value when [cols] is 0. *)
Definition print_tensor (t : Tensor) : option (list out_event) :=
  let total := wrap32 (rows t * cols t) in
  for_loop (Z.to_nat total) 0
    (fun i out =>
       ev ← (if bool_decide (type t = TENSOR_FLOAT32)
             then x ← read_f32 (data t) i; Some [Out_float x]
             else if bool_decide (type t = TENSOR_FLOAT16)
             then h ← read_f16 (data t) i; Some [Out_float (float16_to_float32 h)]
             else if bool_decide (type t = TENSOR_INT8)
             then z ← read_i8 (data t) i; Some [Out_int z]
             else Some []);
       nl ← (if cols t =? 0 then None
             else Some (if wrap32 (Z.of_nat i + 1) mod cols t =? 0
                        then [Out_newline] else []));
       Some (out ++ ev ++ nl))
    [Out_header (rows t) (cols t)].

(** How an element of each kind is printed. *)
Definition render_element (ty : TensorType) (x : Z) : out_event :=
  match ty with
  | TENSOR_FLOAT32 => Out_float x
  | TENSOR_FLOAT16 => Out_float (float16_to_float32 x)
  | TENSOR_INT8 => Out_int x
  end.

(** A flat buffer cut into [r] rows of [c] elements. *)
Fixpoint row_lines {A : Type} (r c : nat) (l : list A) : list (list A) :=
  match r with
  | O => []
  | S r' => take c l :: row_lines r' c (drop c l)
  end.

(** The demo's literals are the floats nearest to the decimal values. *)
Example demo_literals :
  [Float32.lit 1 10; Float32.lit 5 10; Float32.lit (-12) 10; Float32.lit 34 10;
   Float32.lit 21 10; Float32.lit 128 10; Float32.lit (-13) 1]
  = [f0_1; f0_5; fm1_2; f3_4; f2_1; f12_8; fm13_0].
Proof. vm_compute. reflexivity. Qed.

(** ** Bit-field arithmetic *)

Section BitFields.

Lemma land_ones_mod (z k : Z) : 0 <= k -> Z.land z (2 ^ k - 1) = z mod 2 ^ k.
Proof.
  intros Hk. rewrite <- Z.land_ones by exact Hk.
  f_equal. rewrite Z.ones_equiv. lia.
Qed.

Lemma exp_of_eq (b : Z) : Float32.exp_of b = (b / 2 ^ 23) mod 2 ^ 8.
Proof.
  unfold Float32.exp_of. rewrite Z.shiftr_div_pow2 by lia.
  exact (land_ones_mod _ 8 ltac:(lia)).
Qed.

Lemma man_of_eq (b : Z) : Float32.man_of b = b mod 2 ^ 23.
Proof. exact (land_ones_mod b 23 ltac:(lia)). Qed.

Lemma exp_of_range (b : Z) : 0 <= Float32.exp_of b <= 255.
Proof. rewrite exp_of_eq. pose proof (Z.mod_pos_bound (b / 2 ^ 23) (2 ^ 8)). lia. Qed.

Lemma man_of_range (b : Z) : 0 <= Float32.man_of b < 2 ^ 23.
Proof. rewrite man_of_eq. apply Z.mod_pos_bound. lia. Qed.

(** The unsigned 32-bit computation [e - 127 + 15], converted to
    [int16_t], is the mathematical [e - 112] for an 8-bit [e]. *)
Lemma rebias_down (e : Z) :
  0 <= e <= 255 -> to_int16 (wrap32 (wrap32 (e - 127) + 15)) = e - 112.
Proof.
  intros He. unfold to_int16, wrap32.
  rewrite Z.add_mod_idemp_l by lia.
  replace (e - 127 + 15) with (e - 112) by lia.
  change (2 ^ 32) with 4294967296; change (2 ^ 16) with 65536;
    change (2 ^ 15) with 32768.
  destruct (Z.ltb_spec (((e - 112) mod 4294967296) mod 65536) 32768);
    Z.div_mod_to_equations; lia.
Qed.

(** The unsigned 32-bit computation [e - 15 + 127] is [e + 112] for a
    5-bit [e]. *)
Lemma rebias_up (e : Z) :
  0 <= e <= 31 -> wrap32 (wrap32 (e - 15) + 127) = e + 112.
Proof.
  intros He. unfold wrap32.
  rewrite Z.add_mod_idemp_l by lia.
  replace (e - 15 + 127) with (e + 112) by lia.
  apply Z.mod_small. lia.
Qed.

End BitFields.

Section BitOps.

Lemma lor_disjoint (hi lo k : Z) :
  0 <= k -> 0 <= lo < 2 ^ k -> Z.lor (hi * 2 ^ k) lo = hi * 2 ^ k + lo.
Proof.
  intros Hk Hlo.
  assert (Hand : Z.land (hi * 2 ^ k) lo = 0).
  { apply Z.bits_inj'. intros n Hn.
    rewrite Z.land_spec, Z.bits_0.
    destruct (Z.lt_ge_cases n k) as [Hlt | Hge].
    - rewrite Z.mul_pow2_bits_low by lia. reflexivity.
    - rewrite <- (Z.mod_small lo (2 ^ k)) by lia.
      rewrite Z.mod_pow2_bits_high by lia. apply andb_false_r. }
  rewrite <- Z.lxor_lor by exact Hand.
  symmetry. apply Z.add_nocarry_lxor. exact Hand.
Qed.

Lemma testbit_div_mod (x k : Z) :
  0 <= k -> Z.testbit x k = ((x / 2 ^ k) mod 2 =? 1).
Proof.
  intros Hk.
  destruct (Z.testbit x k) eqn:Hb.
  - apply Z.testbit_true in Hb; [| exact Hk]. rewrite Hb. reflexivity.
  - apply Z.testbit_false in Hb; [| exact Hk]. rewrite Hb. reflexivity.
Qed.

Lemma bit_cases (x k : Z) : (x / 2 ^ k) mod 2 = 0 \/ (x / 2 ^ k) mod 2 = 1.
Proof. pose proof (Z.mod_pos_bound (x / 2 ^ k) 2). lia. Qed.

Lemma land_pow2 (x k : Z) :
  0 <= k -> Z.land x (2 ^ k) = (x / 2 ^ k) mod 2 * 2 ^ k.
Proof.
  intros Hk. apply Z.bits_inj'. intros n Hn.
  rewrite Z.land_spec.
  destruct (Z.eq_dec n k) as [-> | Hne].
  - rewrite Z.pow2_bits_true by lia. rewrite andb_true_r.
    rewrite Z.mul_pow2_bits by lia. rewrite Z.sub_diag.
    rewrite testbit_div_mod by lia.
    destruct (bit_cases x k) as [-> | ->]; reflexivity.
  - rewrite Z.pow2_bits_false by lia. rewrite andb_false_r.
    destruct (Z.lt_ge_cases n k) as [Hlt | Hge].
    + rewrite Z.mul_pow2_bits_low by lia. reflexivity.
    + rewrite Z.mul_pow2_bits by lia.
      destruct (bit_cases x k) as [-> | ->].
      * rewrite Z.bits_0. reflexivity.
      * symmetry. apply (Z.pow2_bits_false 0). lia.
Qed.

End BitOps.

(** ** The codec in arithmetic form *)

Section CodecArith.

Lemma sgn32_cases bits : sgn32 bits = 0 \/ sgn32 bits = 1.
Proof. apply bit_cases. Qed.

Lemma sgn16_cases v : sgn16 v = 0 \/ sgn16 v = 1.
Proof. apply bit_cases. Qed.

Lemma exp32_range bits : 0 <= exp32 bits <= 255.
Proof. unfold exp32. pose proof (Z.mod_pos_bound (bits / 2 ^ 23) (2 ^ 8)). lia. Qed.

Lemma top10_range bits : 0 <= top10 bits < 2 ^ 10.
Proof. apply Z.mod_pos_bound. lia. Qed.

Lemma exp16_range v : 0 <= exp16 v <= 31.
Proof. unfold exp16. pose proof (Z.mod_pos_bound (v / 2 ^ 10) (2 ^ 5)). lia. Qed.

Lemma man16_range v : 0 <= man16 v < 2 ^ 10.
Proof. apply Z.mod_pos_bound. lia. Qed.

Lemma sign_field_16 bits :
  wrap16 (Z.land (Z.shiftr bits 16) 0x8000) = sgn32 bits * 2 ^ 15.
Proof.
  rewrite Z.shiftr_div_pow2 by lia.
  change 0x8000 with (2 ^ 15). rewrite land_pow2 by lia.
  rewrite Z.div_div by lia. change (2 ^ 16 * 2 ^ 15) with (2 ^ 31).
  fold (sgn32 bits). unfold wrap16.
  destruct (sgn32_cases bits) as [-> | ->]; reflexivity.
Qed.

Lemma mantissa_field_16 bits :
  wrap16 (Z.land (Z.shiftr bits 13) 0x3FF) = top10 bits.
Proof.
  rewrite Z.shiftr_div_pow2 by lia.
  change 0x3FF with (2 ^ 10 - 1). rewrite land_ones_mod by lia.
  fold (top10 bits). unfold wrap16. apply Z.mod_small.
  pose proof (top10_range bits). lia.
Qed.

Lemma exponent_field_16 bits :
  to_int16 (wrap32 (wrap32 (Z.land (Z.shiftr bits 23) 0xFF - 127) + 15))
  = exp32 bits - 112.
Proof.
  fold (Float32.exp_of bits). rewrite rebias_down by apply exp_of_range.
  rewrite exp_of_eq. reflexivity.
Qed.

Lemma float32_to_float16_arith bits :
  float32_to_float16 bits =
    if exp32 bits - 112 <=? 0 then 0
    else if 31 <=? exp32 bits - 112 then sgn32 bits * 2 ^ 15 + 31 * 2 ^ 10
    else sgn32 bits * 2 ^ 15 + (exp32 bits - 112) * 2 ^ 10 + top10 bits.
Proof.
  unfold float32_to_float16.
  rewrite sign_field_16, mantissa_field_16, exponent_field_16.
  pose proof (exp32_range bits) as He. pose proof (top10_range bits) as Hm.
  destruct (Z.leb_spec (exp32 bits - 112) 0) as [Hu | Hu]; [reflexivity |].
  destruct (Z.leb_spec 31 (exp32 bits - 112)) as [Ho | Ho].
  - rewrite (lor_disjoint (sgn32 bits) 0x7C00 15) by lia.
    unfold wrap16. destruct (sgn32_cases bits) as [-> | ->]; reflexivity.
  - rewrite Z.shiftl_mul_pow2 by lia.
    rewrite (lor_disjoint (sgn32 bits) _ 15) by lia.
    replace (sgn32 bits * 2 ^ 15 + (exp32 bits - 112) * 2 ^ 10)
      with ((sgn32 bits * 2 ^ 5 + (exp32 bits - 112)) * 2 ^ 10) by lia.
    rewrite lor_disjoint by lia.
    unfold wrap16. rewrite Z.mod_small; [lia |].
    destruct (sgn32_cases bits) as [-> | ->]; lia.
Qed.

Lemma low15_eq v : Z.land v 0x7FFF = v mod 2 ^ 15.
Proof. exact (land_ones_mod v 15 ltac:(lia)). Qed.

Lemma float16_to_float32_arith v :
  float16_to_float32 v =
    if v mod 2 ^ 15 =? 0 then 0
    else sgn16 v * 2 ^ 31 + (exp16 v + 112) * 2 ^ 23 + man16 v * 2 ^ 13.
Proof.
  unfold float16_to_float32. rewrite low15_eq.
  destruct (Z.eqb_spec (v mod 2 ^ 15) 0) as [Hz | Hz]; [reflexivity |].
  pose proof (exp16_range v) as He. pose proof (man16_range v) as Hm.
  assert (Hs : wrap32 (Z.shiftl (Z.land v 0x8000) 16) = sgn16 v * 2 ^ 31).
  { change 0x8000 with (2 ^ 15). rewrite land_pow2 by lia.
    rewrite Z.shiftl_mul_pow2 by lia. fold (sgn16 v). unfold wrap32.
    destruct (sgn16_cases v) as [-> | ->]; reflexivity. }
  assert (Hx : wrap32 (Z.land (Z.shiftr v 10) 0x1F) = exp16 v).
  { rewrite Z.shiftr_div_pow2 by lia. change 0x1F with (2 ^ 5 - 1).
    rewrite land_ones_mod by lia. fold (exp16 v).
    unfold wrap32. apply Z.mod_small. lia. }
  assert (Hn : wrap32 (Z.land v 0x3FF) = man16 v).
  { change 0x3FF with (2 ^ 10 - 1). rewrite land_ones_mod by lia.
    fold (man16 v). unfold wrap32. apply Z.mod_small. lia. }
  rewrite Hs, Hx, Hn. rewrite rebias_up by exact He.
  rewrite !Z.shiftl_mul_pow2 by lia.
  assert (Hw1 : wrap32 ((exp16 v + 112) * 2 ^ 23) = (exp16 v + 112) * 2 ^ 23)
    by (apply Z.mod_small; lia).
  assert (Hw2 : wrap32 (man16 v * 2 ^ 13) = man16 v * 2 ^ 13)
    by (apply Z.mod_small; lia).
  rewrite Hw1, Hw2.
  rewrite (lor_disjoint (sgn16 v) _ 31) by lia.
  replace (sgn16 v * 2 ^ 31 + (exp16 v + 112) * 2 ^ 23)
    with ((sgn16 v * 2 ^ 8 + (exp16 v + 112)) * 2 ^ 23) by lia.
  rewrite lor_disjoint by lia. reflexivity.
Qed.

End CodecArith.

(** ** Half-precision codec: encode *)

Section Encode.

Lemma rebiased_eq bits : rebiased bits = exp32 bits - 112.
Proof. unfold rebiased, exp32. rewrite exp_of_eq. lia. Qed.

Lemma sign_of_eq bits : Float32.sign_of bits = (sgn32 bits =? 1).
Proof. unfold Float32.sign_of, sgn32. apply testbit_div_mod. lia. Qed.

Lemma sign_bit_16 bits :
  (if Float32.sign_of bits then 0x8000 else 0) = sgn32 bits * 2 ^ 15.
Proof.
  rewrite sign_of_eq. destruct (sgn32_cases bits) as [-> | ->]; reflexivity.
Qed.

Lemma top10_eq bits : top10 bits = Float32.man_of bits / 2 ^ 13.
Proof.
  unfold top10. rewrite man_of_eq.
  change (2 ^ 23) with 8388608; change (2 ^ 13) with 8192;
    change (2 ^ 10) with 1024.
  Z.div_mod_to_equations. lia.
Qed.

(** Reading the fields back from a packed half-precision pattern. *)
Lemma fields_of_pack16 s e m :
  (s = 0 \/ s = 1) -> 0 <= e <= 31 -> 0 <= m < 2 ^ 10 ->
  let r := s * 2 ^ 15 + e * 2 ^ 10 + m in
  sgn16 r = s /\ exp16 r = e /\ man16 r = m.
Proof.
  intros Hs He Hm r. subst r. unfold sgn16, exp16, man16.
  change (2 ^ 15) with 32768; change (2 ^ 10) with 1024 in *;
    change (2 ^ 5) with 32.
  repeat split; Z.div_mod_to_equations; lia.
Qed.

End Encode.

(** C3. Every float32 whose rebiased exponent is at most 0 is encoded as
    exactly 0, whatever its sign bit; in particular +0.0f and -0.0f are
    both encoded as 0, and the half-precision pattern 0 decodes to +0.0f. *)
Theorem underflow_collapses_to_zero :
  (forall bits, rebiased bits <= 0 -> float32_to_float16 bits = 0)
  /\ float32_to_float16 (Float32.to_bits (S754_zero false)) = 0
  /\ float32_to_float16 (Float32.to_bits (S754_zero true)) = 0
  /\ float16_to_float32 0 = Float32.to_bits (S754_zero false).
Proof.
  split; [| repeat split].
  intros bits Hle. rewrite float32_to_float16_arith.
  rewrite rebiased_eq in Hle.
  destruct (Z.leb_spec (exp32 bits - 112) 0); [reflexivity | lia].
Qed.

Lemma underflow_collapses_to_zero_witness :
  rebiased 0x80000001 <= 0 /\ float32_to_float16 0x80000001 = 0.
Proof.
  split.
  - vm_compute. discriminate.
  - apply (proj1 underflow_collapses_to_zero). vm_compute. discriminate.
Defined.

(** C4. Every float32 whose rebiased exponent is at least 31, an infinity
    or a finite value out of range alike, is encoded as its sign bit or'ed
    with [0x7C00]: exponent field 11111, mantissa 0, sign kept. *)
Theorem overflow_saturates_to_infinity_code bits :
  31 <= rebiased bits ->
  float32_to_float16 bits = Z.lor (if Float32.sign_of bits then 0x8000 else 0) 0x7C00
  /\ Z.testbit (float32_to_float16 bits) 15 = Float32.sign_of bits
  /\ exp16 (float32_to_float16 bits) = 31
  /\ man16 (float32_to_float16 bits) = 0.
Proof.
  intros Hge. rewrite rebiased_eq in Hge.
  rewrite float32_to_float16_arith.
  destruct (Z.leb_spec (exp32 bits - 112) 0); [lia |].
  destruct (Z.leb_spec 31 (exp32 bits - 112)); [| lia].
  rewrite sign_bit_16.
  rewrite (lor_disjoint (sgn32 bits) 0x7C00 15) by lia.
  change 0x7C00 with (31 * 2 ^ 10).
  destruct (fields_of_pack16 (sgn32 bits) 31 0 (sgn32_cases bits)
              ltac:(lia) ltac:(lia)) as (Hs & He & Hm).
  rewrite Z.add_0_r in Hs, He, Hm.
  repeat split; [| exact He | exact Hm].
  rewrite testbit_div_mod by lia. fold (sgn16 (sgn32 bits * 2 ^ 15 + 31 * 2 ^ 10)).
  rewrite Hs. symmetry. apply sign_of_eq.
Qed.

(** Minus infinity, plus infinity, the finite 65536.0f and a NaN. *)
Lemma overflow_saturates_to_infinity_code_witness :
  31 <= rebiased 0xFF800000
  /\ float32_to_float16 0xFF800000 = 0xFC00
  /\ float32_to_float16 0x7F800000 = 0x7C00
  /\ float32_to_float16 0x47800000 = 0x7C00
  /\ float32_to_float16 0xFFC00000 = 0xFC00.
Proof.
  split; [vm_compute; discriminate |].
  split; [| repeat split].
  rewrite (proj1 (overflow_saturates_to_infinity_code 0xFF800000
                    ltac:(vm_compute; discriminate))).
  reflexivity.
Defined.

(** C6. For a rebiased exponent strictly between 0 and 31 the result is
    [sign | (new_exp << 10) | mantissa], where the mantissa is the 23-bit
    mantissa shifted right by 13: its low 13 bits are dropped, nothing is
    rounded. *)
Theorem normal_range_packs_truncated_mantissa bits :
  0 < rebiased bits < 31 ->
  float32_to_float16 bits =
    Z.lor (Z.lor (if Float32.sign_of bits then 0x8000 else 0)
                 (Z.shiftl (rebiased bits) 10))
          (Z.shiftr (Float32.man_of bits) 13)
  /\ Z.testbit (float32_to_float16 bits) 15 = Float32.sign_of bits
  /\ exp16 (float32_to_float16 bits) = rebiased bits
  /\ man16 (float32_to_float16 bits) = Float32.man_of bits / 2 ^ 13
  /\ man16 (float32_to_float16 bits) * 2 ^ 13 <= Float32.man_of bits
       < (man16 (float32_to_float16 bits) + 1) * 2 ^ 13.
Proof.
  intros Hr. rewrite float32_to_float16_arith.
  rewrite Z.shiftr_div_pow2 by lia. rewrite <- top10_eq.
  rewrite sign_bit_16. rewrite rebiased_eq in *.
  pose proof (top10_range bits) as Hm.
  destruct (Z.leb_spec (exp32 bits - 112) 0); [lia |].
  destruct (Z.leb_spec 31 (exp32 bits - 112)); [lia |].
  destruct (fields_of_pack16 (sgn32 bits) (exp32 bits - 112) (top10 bits)
              (sgn32_cases bits) ltac:(lia) Hm) as (Hs & He & Hn).
  split; [| split; [| split; [exact He | split; [exact Hn |]]]].
  - rewrite Z.shiftl_mul_pow2 by lia.
    rewrite (lor_disjoint (sgn32 bits) _ 15) by lia.
    replace (sgn32 bits * 2 ^ 15 + (exp32 bits - 112) * 2 ^ 10)
      with ((sgn32 bits * 2 ^ 5 + (exp32 bits - 112)) * 2 ^ 10) by lia.
    rewrite lor_disjoint by lia. lia.
  - rewrite testbit_div_mod by lia.
    fold (sgn16 (sgn32 bits * 2 ^ 15 + (exp32 bits - 112) * 2 ^ 10 + top10 bits)).
    rewrite Hs. symmetry. apply sign_of_eq.
  - rewrite Hn. rewrite top10_eq.
    pose proof (man_of_range bits).
    change (2 ^ 13) with 8192. Z.div_mod_to_equations. lia.
Qed.

(** 1.0f plus 8191 units in the last place: round-to-nearest would give
    mantissa 1, the code gives mantissa 0. *)
Lemma normal_range_packs_truncated_mantissa_witness :
  0 < rebiased 0x3F801FFF < 31 /\ float32_to_float16 0x3F801FFF = 0x3C00.
Proof.
  split; [vm_compute; split; reflexivity |].
  rewrite (proj1 (normal_range_packs_truncated_mantissa 0x3F801FFF
                    ltac:(vm_compute; split; reflexivity))).
  reflexivity.
Defined.

(** ** Half-precision codec: decode *)

Section Decode.

(** Reading the fields back from a packed single-precision pattern. *)
Lemma fields_of_pack32 s e m :
  (s = 0 \/ s = 1) -> 0 <= e <= 255 -> 0 <= m < 2 ^ 23 ->
  let r := s * 2 ^ 31 + e * 2 ^ 23 + m in
  Float32.sign_of r = (s =? 1) /\ Float32.exp_of r = e /\ Float32.man_of r = m.
Proof.
  intros Hs He Hm r. subst r.
  rewrite exp_of_eq, man_of_eq. unfold Float32.sign_of.
  rewrite testbit_div_mod by lia.
  change (2 ^ 31) with 2147483648; change (2 ^ 23) with 8388608 in *;
    change (2 ^ 8) with 256.
  assert (H1 : (s * 2147483648 + e * 8388608 + m) / 2147483648 mod 2 = s)
    by (Z.div_mod_to_equations; lia).
  rewrite H1. repeat split; Z.div_mod_to_equations; lia.
Qed.

End Decode.

(** C5. A 16-bit pattern whose low 15 bits are zero (encoded zero and
    encoded negative zero) decodes to +0.0f.  Every other pattern, exponent
    field 11111 included, decodes to the pattern
    [(sign << 16) | ((exp - 15 + 127) << 23) | (mantissa << 13)]: the
    exponent is rebiased by plain arithmetic, so the result is always a
    finite float32 with exponent field [exp + 112], never an infinity or a
    NaN. *)
Theorem decode_rebiases_every_exponent :
  (forall v, is_u16 v -> Z.land v 0x7FFF = 0 ->
     float16_to_float32 v = Float32.to_bits (S754_zero false))
  /\ (forall v, is_u16 v -> Z.land v 0x7FFF <> 0 ->
        let r := float16_to_float32 v in
        r = Z.lor (Z.lor (Z.shiftl (Z.land v 0x8000) 16)
                         (Z.shiftl (Z.land (Z.shiftr v 10) 0x1F - 15 + 127) 23))
                  (Z.shiftl (Z.land v 0x3FF) 13)
        /\ Float32.sign_of r = Z.testbit v 15
        /\ Float32.exp_of r = exp16 v + 112
        /\ Float32.man_of r = man16 v * 2 ^ 13
        /\ Float32.of_bits r =
             S754_finite (Z.testbit v 15)
                         (Z.to_pos (man16 v * 2 ^ 13 + 2 ^ 23))
                         (exp16 v + 112 - 150)).
Proof.
  split.
  - intros v _ Hz. rewrite float16_to_float32_arith.
    rewrite low15_eq in Hz. rewrite Hz. reflexivity.
  - intros v _ Hnz r. subst r. rewrite float16_to_float32_arith.
    rewrite low15_eq in Hnz.
    destruct (Z.eqb_spec (v mod 2 ^ 15) 0) as [Hz | _]; [contradiction |].
    pose proof (exp16_range v) as He. pose proof (man16_range v) as Hm.
    destruct (fields_of_pack32 (sgn16 v) (exp16 v + 112) (man16 v * 2 ^ 13)
                (sgn16_cases v) ltac:(lia) ltac:(lia)) as (Hs & Hx & Hn).
    assert (Hsign : Float32.sign_of
                      (sgn16 v * 2 ^ 31 + (exp16 v + 112) * 2 ^ 23 + man16 v * 2 ^ 13)
                    = Z.testbit v 15).
    { rewrite Hs. symmetry. apply testbit_div_mod. lia. }
    split; [| split; [exact Hsign | split; [exact Hx | split; [exact Hn |]]]].
    + change 0x8000 with (2 ^ 15). rewrite land_pow2 by lia. fold (sgn16 v).
      rewrite Z.shiftr_div_pow2 by lia. change 0x1F with (2 ^ 5 - 1).
      rewrite land_ones_mod by lia. fold (exp16 v).
      change 0x3FF with (2 ^ 10 - 1). rewrite land_ones_mod by lia.
      fold (man16 v).
      rewrite !Z.shiftl_mul_pow2 by lia.
      replace (sgn16 v * 2 ^ 15 * 2 ^ 16) with (sgn16 v * 2 ^ 31) by lia.
      replace (exp16 v - 15 + 127) with (exp16 v + 112) by lia.
      rewrite (lor_disjoint (sgn16 v) _ 31) by lia.
      replace (sgn16 v * 2 ^ 31 + (exp16 v + 112) * 2 ^ 23)
        with ((sgn16 v * 2 ^ 8 + (exp16 v + 112)) * 2 ^ 23) by lia.
      rewrite lor_disjoint by lia. lia.
    + unfold Float32.of_bits. rewrite Hsign, Hx, Hn.
      destruct (Z.eqb_spec (exp16 v + 112) 0); [lia |].
      destruct (Z.eqb_spec (exp16 v + 112) 255); [lia |].
      reflexivity.
Qed.

(** The infinity code [0x7C00] decodes to the finite 65536.0f, and
    [0x8000] (negative zero) to +0.0f. *)
Lemma decode_rebiases_every_exponent_witness :
  is_u16 0x7C00 /\ Z.land 0x7C00 0x7FFF <> 0
  /\ float16_to_float32 0x7C00 = 0x47800000
  /\ Float32.of_bits (float16_to_float32 0x7C00) = S754_finite false 8388608 (-7)
  /\ is_u16 0x8000 /\ Z.land 0x8000 0x7FFF = 0
  /\ float16_to_float32 0x8000 = 0.
Proof.
  assert (Hu : is_u16 0x7C00) by (unfold is_u16; lia).
  assert (Hn : Z.land 0x7C00 0x7FFF <> 0) by (vm_compute; discriminate).
  assert (Hu' : is_u16 0x8000) by (unfold is_u16; lia).
  assert (Hz : Z.land 0x8000 0x7FFF = 0) by reflexivity.
  split; [exact Hu |]. split; [exact Hn |].
  split; [| split; [reflexivity | split; [exact Hu' | split; [exact Hz |]]]].
  - rewrite (proj1 (proj2 decode_rebiases_every_exponent 0x7C00 Hu Hn)).
    reflexivity.
  - exact (proj1 decode_rebiases_every_exponent 0x8000 Hu' Hz).
Defined.

(** ** Half-precision codec: round trip *)

Section RoundTrip.

Lemma Q_relative_bound (s : bool) (a b : Z) (p : positive) :
  0 < a -> 0 <= a - b -> 1024 * (a - b) < a ->
  (Qabs ((cond_Zopp s a # p) - (cond_Zopp s b # p))
   < (1 # 1024) * Qabs (cond_Zopp s a # p))%Q.
Proof.
  intros Ha Hab Hlt.
  unfold Qlt, Qabs, Qminus, Qplus, Qopp, Qmult. cbn [Qnum Qden].
  rewrite !Pos2Z.inj_mul.
  assert (Hp : 0 < Z.pos p) by lia.
  assert (Habs : Z.abs (cond_Zopp s a * Z.pos p + - cond_Zopp s b * Z.pos p)
                 = (a - b) * Z.pos p).
  { destruct s; cbn [cond_Zopp]; nia. }
  assert (Habs' : Z.abs (cond_Zopp s a) = a) by (destruct s; cbn [cond_Zopp]; lia).
  rewrite Habs, Habs'. nia.
Qed.

(** A pattern in the half-precision normal range is a normal float32. *)
Lemma of_bits_normal bits :
  0 < Float32.exp_of bits < 255 ->
  Float32.of_bits bits =
    S754_finite (Float32.sign_of bits)
                (Z.to_pos (Float32.man_of bits + 2 ^ 23))
                (Float32.exp_of bits - 150).
Proof.
  intros He. unfold Float32.of_bits.
  destruct (Z.eqb_spec (Float32.exp_of bits) 0); [lia |].
  destruct (Z.eqb_spec (Float32.exp_of bits) 255); [lia |].
  reflexivity.
Qed.

Lemma u32_fields bits :
  is_u32 bits ->
  bits = sgn32 bits * 2 ^ 31 + exp32 bits * 2 ^ 23 + Float32.man_of bits.
Proof.
  unfold is_u32, sgn32, exp32. rewrite man_of_eq.
  change (2 ^ 32) with 4294967296; change (2 ^ 31) with 2147483648;
    change (2 ^ 23) with 8388608; change (2 ^ 8) with 256.
  intros H. Z.div_mod_to_equations. lia.
Qed.

(** Decoding an encoded normal-range value clears its 13 low bits. *)
Lemma roundtrip_bits bits :
  0 < rebiased bits < 31 ->
  float16_to_float32 (float32_to_float16 bits)
  = sgn32 bits * 2 ^ 31 + exp32 bits * 2 ^ 23 + top10 bits * 2 ^ 13.
Proof.
  intros Hr. rewrite rebiased_eq in Hr.
  rewrite float32_to_float16_arith.
  destruct (Z.leb_spec (exp32 bits - 112) 0); [lia |].
  destruct (Z.leb_spec 31 (exp32 bits - 112)); [lia |].
  pose proof (top10_range bits) as Hm.
  destruct (fields_of_pack16 (sgn32 bits) (exp32 bits - 112) (top10 bits)
              (sgn32_cases bits) ltac:(lia) Hm) as (Hs & He & Hn).
  rewrite float16_to_float32_arith. rewrite Hs, He, Hn.
  destruct (Z.eqb_spec
              ((sgn32 bits * 2 ^ 15 + (exp32 bits - 112) * 2 ^ 10 + top10 bits)
                 mod 2 ^ 15) 0) as [Hz | _]; [| lia].
  exfalso. revert Hz.
  destruct (sgn32_cases bits) as [-> | ->];
    change (2 ^ 15) with 32768; change (2 ^ 10) with 1024 in *;
    intros Hz; Z.div_mod_to_equations; lia.
Qed.

End RoundTrip.

(** C7. For every float32 whose exponent lies in the half-precision normal
    range, decoding its encoding gives the same value with the 13 low
    mantissa bits cleared, whose distance to the original is below 2^-10
    times the original's magnitude. *)
Theorem roundtrip_within_relative_error bits :
  is_u32 bits ->
  0 < rebiased bits < 31 ->
  float16_to_float32 (float32_to_float16 bits) = bits - bits mod 2 ^ 13
  /\ exists x y : Q,
       f32_value bits = Some x
       /\ f32_value (float16_to_float32 (float32_to_float16 bits)) = Some y
       /\ (Qabs (x - y) < (1 # 1024) * Qabs x)%Q.
Proof.
  intros Hu Hr. rewrite (roundtrip_bits bits Hr).
  pose proof (top10_range bits) as Ht. pose proof (man_of_range bits) as Hm.
  pose proof (exp32_range bits) as He.
  assert (Hr' : 0 < exp32 bits - 112 < 31) by (rewrite <- rebiased_eq; exact Hr).
  assert (Hlow : Float32.man_of bits - bits mod 2 ^ 13 = top10 bits * 2 ^ 13).
  { rewrite top10_eq, man_of_eq.
    change (2 ^ 23) with 8388608; change (2 ^ 13) with 8192.
    Z.div_mod_to_equations. lia. }
  split.
  - rewrite (u32_fields bits Hu) at 4. lia.
  - destruct (fields_of_pack32 (sgn32 bits) (exp32 bits) (top10 bits * 2 ^ 13)
                (sgn32_cases bits) He ltac:(lia)) as (Hs & Hx & Hn).
    unfold f32_value.
    rewrite (of_bits_normal bits) by (rewrite exp_of_eq; fold (exp32 bits); lia).
    rewrite of_bits_normal by (rewrite Hx; lia).
    rewrite Hs, Hx, Hn. rewrite <- sign_of_eq.
    rewrite exp_of_eq. fold (exp32 bits).
    unfold Float32.to_Q.
    destruct (Z.leb_spec 0 (exp32 bits - 150)); [lia |].
    eexists. eexists. split; [reflexivity |]. split; [reflexivity |].
    rewrite !Z2Pos.id by lia.
    assert (0 <= bits mod 2 ^ 13 < 2 ^ 13) by (apply Z.mod_pos_bound; lia).
    apply Q_relative_bound; lia.
Qed.

(** 3.4f: encoded as [0x42CC], decoded as 3.3984375f. *)
Lemma roundtrip_within_relative_error_witness :
  is_u32 f3_4 /\ 0 < rebiased f3_4 < 31
  /\ float16_to_float32 (float32_to_float16 f3_4) = 0x40598000.
Proof.
  assert (Hu : is_u32 f3_4) by (unfold is_u32, f3_4; lia).
  assert (Hr : 0 < rebiased f3_4 < 31) by (vm_compute; split; reflexivity).
  split; [exact Hu |]. split; [exact Hr |].
  rewrite (proj1 (roundtrip_within_relative_error f3_4 Hu Hr)).
  reflexivity.
Defined.

(** ** Rounding produces canonical floats *)

Section Canonical.

Variables prec emax : Z.
Hypothesis Hprec : 0 < prec.

Local Abbreviation fexp := (SpecFloat.fexp prec emax).
Local Abbreviation emin := (SpecFloat.emin prec emax).

Lemma digits2_pos_size p : digits2_pos p = Pos.size p.
Proof. induction p as [p IH | p IH |]; cbn; rewrite ?IH; reflexivity. Qed.

Lemma Zdigits2_nonneg m : 0 <= Zdigits2 m.
Proof. destruct m; cbn; lia. Qed.

Lemma Zdigits2_bounds m :
  0 < m -> 2 ^ (Zdigits2 m - 1) <= m < 2 ^ Zdigits2 m.
Proof.
  destruct m as [| p | p]; try lia. intros _. cbn [Zdigits2].
  rewrite digits2_pos_size.
  pose proof (Pos.size_gt p) as Hgt. pose proof (Pos.size_le p) as Hle.
  apply Pos2Z.pos_lt_pos in Hgt. apply Pos2Z.pos_le_pos in Hle.
  rewrite Pos2Z.inj_pow in Hgt, Hle.
  split; [| exact Hgt].
  replace (Z.pos (Pos.size p)) with (Z.succ (Z.pos (Pos.size p) - 1)) in Hle by lia.
  rewrite Z.pow_succ_r in Hle by lia. lia.
Qed.

Lemma Zdigits2_unique m d :
  0 < m -> 2 ^ (d - 1) <= m < 2 ^ d -> Zdigits2 m = d.
Proof.
  intros Hm [Hlo Hhi]. pose proof (Zdigits2_bounds m Hm) as [Blo Bhi].
  pose proof (Zdigits2_nonneg m) as Hn.
  assert (Hd : 0 < d).
  { destruct (Z.lt_ge_cases 0 d) as [H | H]; [exact H |].
    destruct (Z.eq_dec d 0) as [-> | Hne]; [cbn in Hhi; lia |].
    rewrite (Z.pow_neg_r 2 d) in Hhi by lia. lia. }
  destruct (Z.lt_trichotomy (Zdigits2 m) d) as [Hlt | [Heq | Hgt]]; [| exact Heq |].
  - assert (2 ^ Zdigits2 m <= 2 ^ (d - 1)) by (apply Z.pow_le_mono_r; lia). lia.
  - assert (2 ^ d <= 2 ^ (Zdigits2 m - 1)) by (apply Z.pow_le_mono_r; lia). lia.
Qed.

Lemma Zdigits2_mono a b : 0 <= a <= b -> Zdigits2 a <= Zdigits2 b.
Proof.
  intros [Ha Hab].
  destruct (Z.eq_dec a 0) as [-> | Hne]; [apply Zdigits2_nonneg |].
  pose proof (Zdigits2_bounds a ltac:(lia)) as [Alo _].
  pose proof (Zdigits2_bounds b ltac:(lia)) as [_ Bhi].
  destruct (Z.le_gt_cases (Zdigits2 a) (Zdigits2 b)) as [H | H]; [exact H |].
  assert (2 ^ Zdigits2 b <= 2 ^ (Zdigits2 a - 1))
    by (apply Z.pow_le_mono_r; pose proof (Zdigits2_nonneg b); lia).
  lia.
Qed.

Lemma Zdigits2_shift m n :
  0 < m -> 0 <= n ->
  (n < Zdigits2 m -> Zdigits2 (m / 2 ^ n) = Zdigits2 m - n)
  /\ (Zdigits2 m <= n -> m / 2 ^ n = 0).
Proof.
  intros Hm Hn. pose proof (Zdigits2_bounds m Hm) as [Blo Bhi].
  assert (Hp : 0 < 2 ^ n) by (apply Z.pow_pos_nonneg; lia).
  split; intros H.
  - assert (Hq : 2 ^ (Zdigits2 m - n - 1) <= m / 2 ^ n < 2 ^ (Zdigits2 m - n)).
    { split.
      - apply Z.div_le_lower_bound; [exact Hp |].
        rewrite <- Z.pow_add_r by lia.
        replace (n + (Zdigits2 m - n - 1)) with (Zdigits2 m - 1) by lia. exact Blo.
      - apply Z.div_lt_upper_bound; [exact Hp |].
        rewrite <- Z.pow_add_r by lia.
        replace (n + (Zdigits2 m - n)) with (Zdigits2 m) by lia. exact Bhi. }
    apply Zdigits2_unique; [| exact Hq].
    assert (0 < 2 ^ (Zdigits2 m - n - 1)) by (apply Z.pow_pos_nonneg; lia). lia.
  - apply Z.div_small. split; [lia |].
    assert (2 ^ Zdigits2 m <= 2 ^ n)
      by (apply Z.pow_le_mono_r; pose proof (Zdigits2_nonneg m); lia).
    lia.
Qed.

Lemma shr_1_m mrs : 0 <= shr_m mrs -> shr_m (shr_1 mrs) = shr_m mrs / 2.
Proof.
  destruct mrs as [m r s]. cbn [shr_m]. intros Hm.
  destruct m as [| p | p]; [reflexivity | | lia].
  destruct p as [p | p |]; cbn [shr_1 shr_m].
  - rewrite Pos2Z.inj_xI.
    apply (Z.div_unique (2 * Z.pos p + 1) 2 (Z.pos p) 1); lia.
  - rewrite Pos2Z.inj_xO.
    apply (Z.div_unique (2 * Z.pos p) 2 (Z.pos p) 0); lia.
  - reflexivity.
Qed.

Lemma shr_iter_m p mrs :
  0 <= shr_m mrs ->
  shr_m (SpecFloat.iter_pos shr_1 p mrs) = shr_m mrs / 2 ^ Z.pos p.
Proof.
  revert mrs. induction p as [p IH | p IH |]; intros mrs Hm;
    cbn [SpecFloat.iter_pos].
  - pose proof (Z.pow_pos_nonneg 2 (Z.pos p) ltac:(lia) ltac:(lia)) as Hp.
    assert (H1 : 0 <= shr_m (shr_1 mrs))
      by (rewrite shr_1_m by exact Hm; apply Z.div_pos; lia).
    assert (H2 : 0 <= shr_m (SpecFloat.iter_pos shr_1 p (shr_1 mrs)))
      by (rewrite IH by exact H1; apply Z.div_pos; lia).
    rewrite IH by exact H2. rewrite IH by exact H1. rewrite shr_1_m by exact Hm.
    rewrite !Z.div_div by lia.
    f_equal.
    replace (Z.pos p~1) with (1 + Z.pos p + Z.pos p) by lia.
    rewrite !Z.pow_add_r by lia. lia.
  - pose proof (Z.pow_pos_nonneg 2 (Z.pos p) ltac:(lia) ltac:(lia)) as Hp.
    assert (H2 : 0 <= shr_m (SpecFloat.iter_pos shr_1 p mrs))
      by (rewrite IH by exact Hm; apply Z.div_pos; lia).
    rewrite IH by exact H2. rewrite IH by exact Hm.
    rewrite Z.div_div by lia.
    f_equal.
    replace (Z.pos p~0) with (Z.pos p + Z.pos p) by lia.
    rewrite Z.pow_add_r by lia. reflexivity.
  - rewrite shr_1_m by exact Hm. reflexivity.
Qed.

Lemma shr_record_of_loc_m m l : shr_m (shr_record_of_loc m l) = m.
Proof. destruct l as [| []]; reflexivity. Qed.

Lemma fexp_mono a b : a <= b -> fexp a <= fexp b.
Proof. unfold SpecFloat.fexp. lia. Qed.

Lemma shr_fexp_canonical m e l :
  0 <= m -> e <= fexp (Zdigits2 m + e) ->
  0 <= shr_m (fst (shr_fexp prec emax m e l))
  /\ snd (shr_fexp prec emax m e l)
     = fexp (Zdigits2 (shr_m (fst (shr_fexp prec emax m e l)))
             + snd (shr_fexp prec emax m e l)).
Proof.
  intros Hm He. unfold shr_fexp, shr.
  destruct (fexp (Zdigits2 m + e) - e) as [| n | n] eqn:Hn; cbn [fst snd].
  - rewrite shr_record_of_loc_m. split; [exact Hm | lia].
  - rewrite shr_iter_m by (rewrite shr_record_of_loc_m; exact Hm).
    rewrite shr_record_of_loc_m.
    assert (Hp : 0 < 2 ^ Z.pos n) by (apply Z.pow_pos_nonneg; lia).
    split; [apply Z.div_pos; lia |].
    destruct (Z.eq_dec m 0) as [-> | Hne].
    + rewrite Z.div_0_l by lia. cbn [Zdigits2] in *.
      unfold SpecFloat.fexp in *. lia.
    + destruct (Zdigits2_shift m (Z.pos n) ltac:(lia) ltac:(lia)) as [Hlt Hge].
      destruct (Z.lt_ge_cases (Z.pos n) (Zdigits2 m)) as [H | H].
      * rewrite (Hlt H).
        replace (Zdigits2 m - Z.pos n + (e + Z.pos n)) with (Zdigits2 m + e) by lia.
        lia.
      * rewrite (Hge H). cbn [Zdigits2].
        unfold SpecFloat.fexp in *. lia.
  - lia.
Qed.

Lemma round_nearest_even_cases m l :
  round_nearest_even m l = m \/ round_nearest_even m l = m + 1.
Proof.
  destruct l as [| []]; cbn; auto. destruct (Z.even m); auto.
Qed.

Theorem binary_round_aux_valid sx mx ex lx :
  0 <= mx -> ex <= fexp (Zdigits2 mx + ex) ->
  valid_binary prec emax (binary_round_aux prec emax sx mx ex lx) = true.
Proof.
  intros Hm He. unfold binary_round_aux.
  pose proof (shr_fexp_canonical mx ex lx Hm He) as [H1 H1e].
  destruct (shr_fexp prec emax mx ex lx) as [mrs' e'] eqn:E1. cbn [fst snd] in *.
  set (m1 := round_nearest_even (shr_m mrs') (loc_of_shr_record mrs')).
  assert (Hm1 : shr_m mrs' <= m1 <= shr_m mrs' + 1)
    by (destruct (round_nearest_even_cases (shr_m mrs') (loc_of_shr_record mrs'))
          as [H | H]; fold m1 in H; lia).
  assert (He1 : e' <= fexp (Zdigits2 m1 + e')).
  { rewrite H1e at 1. apply fexp_mono.
    pose proof (Zdigits2_mono (shr_m mrs') m1 ltac:(lia)). lia. }
  pose proof (shr_fexp_canonical m1 e' loc_Exact ltac:(lia) He1) as [H2 H2e].
  destruct (shr_fexp prec emax m1 e' loc_Exact) as [mrs'' e''] eqn:E2.
  cbn [fst snd] in *.
  destruct (shr_m mrs'') as [| p | p] eqn:Hp; [reflexivity | | reflexivity].
  destruct (Z.leb_spec e'' (emax - prec)) as [Hle | Hgt]; [| reflexivity].
  cbn [valid_binary]. unfold bounded, canonical_mantissa.
  cbn [Zdigits2] in H2e. rewrite <- H2e.
  rewrite Z.eqb_refl. apply Z.leb_le in Hle. rewrite Hle. reflexivity.
Qed.

Lemma SFdiv_core_canonical m1 e1 m2 e2 :
  0 < m1 -> 0 < m2 ->
  let '(q, e', _) := SFdiv_core_binary prec emax m1 e1 m2 e2 in
  0 <= q /\ e' <= fexp (Zdigits2 q + e').
Proof.
  intros H1 H2. unfold SFdiv_core_binary.
  set (E := Zdigits2 m1 + e1 - (Zdigits2 m2 + e2)).
  set (e' := Z.min (fexp E) (e1 - e2)).
  assert (Hs : 0 <= e1 - e2 - e') by (subst e'; lia).
  set (m' := match e1 - e2 - e' with
             | 0 => m1
             | Z.pos _ => Z.shiftl m1 (e1 - e2 - e')
             | Z.neg _ => 0
             end).
  assert (Hm' : m' = m1 * 2 ^ (e1 - e2 - e')).
  { subst m'. destruct (e1 - e2 - e') as [| p | p] eqn:Hd.
    - cbn. lia.
    - apply Z.shiftl_mul_pow2. lia.
    - lia. }
  pose proof (Z.div_eucl_eq m' m2 ltac:(lia)) as Heq.
  pose proof (Z.mod_pos_bound m' m2 H2) as Hr.
  unfold Z.modulo in Hr.
  assert (Hq : fst (Z.div_eucl m' m2) = m' / m2) by reflexivity.
  destruct (Z.div_eucl m' m2) as [q r]. cbn [fst] in Hq. subst q.
  pose proof (Z.pow_pos_nonneg 2 (e1 - e2 - e') ltac:(lia) Hs) as Hp.
  pose proof (Zdigits2_bounds m1 H1) as [L1 U1].
  pose proof (Zdigits2_bounds m2 H2) as [L2 U2].
  pose proof (Zdigits2_nonneg m1) as N1. pose proof (Zdigits2_nonneg m2) as N2.
  assert (D1 : 0 < Zdigits2 m1).
  { destruct (Z.eq_dec (Zdigits2 m1) 0) as [Hz | Hz]; [| lia].
    rewrite Hz in U1. cbn in U1. lia. }
  assert (Hq0 : 0 <= m' / m2) by (apply Z.div_pos; nia).
  split; [exact Hq0 |].
  set (k := Zdigits2 m1 - Zdigits2 m2 + (e1 - e2 - e')).
  assert (Hlow : 2 ^ (Zdigits2 m1 - 1 + (e1 - e2 - e')) <= m').
  { rewrite Z.pow_add_r by lia. rewrite Hm'. nia. }
  destruct (Z.eq_dec (m' / m2) 0) as [Hz | Hnz].
  - rewrite Hz. cbn [Zdigits2].
    assert (Hlt : m' < m2).
    { destruct (Z.lt_ge_cases m' m2) as [H | H]; [exact H |].
      assert (1 <= m' / m2) by (apply Z.div_le_lower_bound; lia). lia. }
    assert (Hk : k <= 0).
    { destruct (Z.le_gt_cases k 0) as [H | H]; [exact H |].
      assert (2 ^ Zdigits2 m2 <= 2 ^ (Zdigits2 m1 - 1 + (e1 - e2 - e')))
        by (apply Z.pow_le_mono_r; subst k; lia).
      lia. }
    subst k e' E. unfold SpecFloat.fexp in *. lia.
  - assert (Hdq : k <= Zdigits2 (m' / m2)).
    { destruct (Z.le_gt_cases k 0) as [H | H].
      - pose proof (Zdigits2_bounds (m' / m2) ltac:(lia)) as [_ Uq].
        destruct (Z.eq_dec (Zdigits2 (m' / m2)) 0) as [Hz | Hz].
        + rewrite Hz in Uq. cbn in Uq. lia.
        + pose proof (Zdigits2_nonneg (m' / m2)). lia.
      - assert (Hge : 2 ^ (k - 1) <= m' / m2).
        { apply Z.div_le_lower_bound; [exact H2 |].
          assert (m2 * 2 ^ (k - 1) <= 2 ^ Zdigits2 m2 * 2 ^ (k - 1)).
          { apply Z.mul_le_mono_nonneg_r; [apply Z.pow_nonneg; lia | lia]. }
          rewrite <- Z.pow_add_r in H0 by lia.
          replace (Zdigits2 m2 + (k - 1))
            with (Zdigits2 m1 - 1 + (e1 - e2 - e')) in H0 by (subst k; lia).
          lia. }
        pose proof (Zdigits2_bounds (m' / m2) ltac:(lia)) as [_ Uq].
        destruct (Z.le_gt_cases k (Zdigits2 (m' / m2))) as [Hle | Hgt]; [exact Hle |].
        assert (2 ^ Zdigits2 (m' / m2) <= 2 ^ (k - 1))
          by (apply Z.pow_le_mono_r; pose proof (Zdigits2_nonneg (m' / m2)); lia).
        lia. }
    assert (Hmono : fexp E <= fexp (Zdigits2 (m' / m2) + e'))
      by (apply fexp_mono; subst k E; lia).
    subst e'. lia.
Qed.

Theorem SFdiv_valid x y : valid_binary prec emax (SFdiv prec emax x y) = true.
Proof.
  destruct x as [sx | sx | | sx mx ex], y as [sy | sy | | sy my ey];
    try reflexivity.
  cbn [SFdiv].
  pose proof (SFdiv_core_canonical (Z.pos mx) ex (Z.pos my) ey
                ltac:(lia) ltac:(lia)) as Hc.
  destruct (SFdiv_core_binary prec emax (Z.pos mx) ex (Z.pos my) ey)
    as [[q e'] l].
  destruct Hc as [Hq He]. apply binary_round_aux_valid; assumption.
Qed.

(** A canonical mantissa has at most [prec] digits. *)
Lemma bounded_mantissa m e :
  bounded prec emax m e = true -> Z.pos m < 2 ^ prec.
Proof.
  unfold bounded, canonical_mantissa. intros H.
  apply andb_prop in H as [Hc _]. apply Z.eqb_eq in Hc.
  pose proof (Zdigits2_bounds (Z.pos m) ltac:(lia)) as [_ U].
  cbn [Zdigits2] in U.
  assert (Hd : Z.pos (digits2_pos m) <= prec)
    by (unfold SpecFloat.fexp in Hc; lia).
  assert (2 ^ Z.pos (digits2_pos m) <= 2 ^ prec)
    by (apply Z.pow_le_mono_r; lia).
  lia.
Qed.

End Canonical.

(** ** Clamp and cast *)

Section ClampCast.

Lemma div_valid x y : Float32.valid (Float32.div x y) = true.
Proof. apply SFdiv_valid. reflexivity. Qed.

Lemma valid_mantissa s m e :
  Float32.valid (S754_finite s m e) = true -> Z.pos m < 2 ^ 24.
Proof. apply (bounded_mantissa 24 128). reflexivity. Qed.

Lemma of_int_127 : Float32.of_int 127 = S754_finite false 16646144 (-17).
Proof. reflexivity. Qed.

Lemma of_int_m128 : Float32.of_int (-128) = S754_finite true 8388608 (-16).
Proof. reflexivity. Qed.

(** [127 < f] on a finite [f]. *)
Lemma gt_127_finite s m e :
  Float32.ltb (Float32.of_int 127) (S754_finite s m e) =
    negb s && ((-17 <? e) || ((e =? -17) && (16646144 <? Z.pos m))).
Proof.
  rewrite of_int_127. unfold Float32.ltb, SFltb, SFcompare.
  destruct s; cbn [negb andb]; [reflexivity |].
  destruct (Z.compare_spec (-17) e) as [Heq | Hlt | Hgt].
  - subst e. cbn [Z.ltb Z.compare Z.eqb orb andb Pos.eqb].
    rewrite Pos.compare_cont_spec. cbn [Pos.switch_Eq].
    unfold Z.ltb. cbn [Z.compare]. destruct (Pos.compare 16646144 m); reflexivity.
  - apply Z.ltb_lt in Hlt. rewrite Hlt. reflexivity.
  - assert (H1 : (-17 <? e) = false) by (apply Z.ltb_ge; lia).
    assert (H2 : (e =? -17) = false) by (apply Z.eqb_neq; lia).
    rewrite H1, H2. reflexivity.
Qed.

(** [f < -128] on a finite [f]. *)
Lemma lt_m128_finite s m e :
  Float32.ltb (S754_finite s m e) (Float32.of_int (-128)) =
    s && ((-16 <? e) || ((e =? -16) && (8388608 <? Z.pos m))).
Proof.
  rewrite of_int_m128. unfold Float32.ltb, SFltb, SFcompare.
  destruct s; cbn [andb]; [| reflexivity].
  destruct (Z.compare_spec e (-16)) as [Heq | Hlt | Hgt].
  - subst e. cbn [Z.ltb Z.compare Z.eqb orb andb Pos.eqb].
    rewrite Pos.compare_cont_spec. cbn [Pos.switch_Eq].
    unfold Z.ltb. cbn [Z.compare]. rewrite (Pos.compare_antisym m 8388608).
    destruct (Pos.compare m 8388608); reflexivity.
  - assert (H1 : (-16 <? e) = false) by (apply Z.ltb_ge; lia).
    assert (H2 : (e =? -16) = false) by (apply Z.eqb_neq; lia).
    rewrite H1, H2. reflexivity.
  - assert (H1 : (-16 <? e) = true) by (apply Z.ltb_lt; lia).
    rewrite H1. reflexivity.
Qed.

(** The integral part of a finite float, as a quotient. *)
Lemma trunc_finite s m e :
  Float32.trunc (S754_finite s m e) =
    Some (cond_Zopp s (if 0 <=? e then Z.pos m * 2 ^ e
                       else Z.pos m / 2 ^ (- e))).
Proof.
  cbn [Float32.trunc]. destruct (Z.leb_spec 0 e).
  - rewrite Z.shiftl_mul_pow2 by lia. reflexivity.
  - rewrite Z.shiftr_div_pow2 by lia. reflexivity.
Qed.

(** A valid float that is neither above 127 nor below -128 has its
    integral part in the int8 range. *)
Lemma trunc_in_range f :
  Float32.valid f = true ->
  Float32.ltb (Float32.of_int 127) f = false ->
  Float32.ltb f (Float32.of_int (-128)) = false ->
  Float32.is_nan f = false ->
  exists q, Float32.trunc f = Some q /\ -128 <= q <= 127.
Proof.
  intros Hv Hhi Hlo Hnan.
  destruct f as [s | s | | s m e].
  - exists 0. split; [reflexivity | lia].
  - destruct s; [discriminate Hlo | discriminate Hhi].
  - discriminate Hnan.
  - pose proof (valid_mantissa s m e Hv) as Hm.
    rewrite gt_127_finite in Hhi. rewrite lt_m128_finite in Hlo.
    rewrite trunc_finite. eexists. split; [reflexivity |].
    destruct (Z.leb_spec 0 e) as [He | He].
    + assert (H1 : (-17 <? e) = true) by (apply Z.ltb_lt; lia).
      assert (H2 : (-16 <? e) = true) by (apply Z.ltb_lt; lia).
      rewrite H1 in Hhi. rewrite H2 in Hlo.
      destruct s; cbn in Hhi, Hlo; discriminate.
    + assert (Hp : 0 < 2 ^ (- e)) by (apply Z.pow_pos_nonneg; lia).
      assert (Hq : 0 <= Z.pos m / 2 ^ (- e)) by (apply Z.div_pos; lia).
      destruct s; cbn [cond_Zopp negb andb] in *.
      * (* negative: e <= -16 *)
        destruct (Z.ltb_spec (-16) e) as [Hgt | Hle]; [discriminate Hlo |].
        cbn [orb] in Hlo.
        assert (Hub : Z.pos m / 2 ^ (- e) <= 128).
        { destruct (Z.eqb_spec e (-16)) as [-> | Hne].
          - cbn [andb] in Hlo. apply Z.ltb_ge in Hlo.
            change (- -16) with 16.
            assert (Z.pos m / 2 ^ 16 <= 8388608 / 2 ^ 16)
              by (apply Z.div_le_mono; lia).
            change (8388608 / 2 ^ 16) with 128 in H. exact H.
          - assert (2 ^ 17 <= 2 ^ (- e)) by (apply Z.pow_le_mono_r; lia).
            assert (Z.pos m / 2 ^ (- e) < 128); [| lia].
            apply Z.div_lt_upper_bound; [exact Hp |].
            change (2 ^ 24) with (2 ^ 17 * 128) in Hm. nia. }
        lia.
      * (* positive: e <= -17 *)
        destruct (Z.ltb_spec (-17) e) as [Hgt | Hle]; [discriminate Hhi |].
        cbn [orb] in Hhi.
        assert (Hub : Z.pos m / 2 ^ (- e) <= 127).
        { destruct (Z.eqb_spec e (-17)) as [-> | Hne].
          - cbn [andb] in Hhi. apply Z.ltb_ge in Hhi.
            change (- -17) with 17.
            assert (Z.pos m / 2 ^ 17 <= 16646144 / 2 ^ 17)
              by (apply Z.div_le_mono; lia).
            change (16646144 / 2 ^ 17) with 127 in H. exact H.
          - assert (2 ^ 18 <= 2 ^ (- e)) by (apply Z.pow_le_mono_r; lia).
            assert (Z.pos m / 2 ^ (- e) < 64); [| lia].
            apply Z.div_lt_upper_bound; [exact Hp |].
            change (2 ^ 24) with (2 ^ 18 * 64) in Hm. nia. }
        lia.
Qed.

(** The three-way outcome of the clamp followed by the cast. *)
Lemma clamp_cast v :
  Float32.valid v = true ->
  Float32.to_int8
    (let v1 := if Float32.ltb (Float32.of_int 127) v
               then Float32.of_int 127 else v in
     if Float32.ltb v1 (Float32.of_int (-128))
     then Float32.of_int (-128) else v1)
  = if Float32.is_nan v then None
    else if Float32.ltb (Float32.of_int 127) v then Some 127
    else if Float32.ltb v (Float32.of_int (-128)) then Some (-128)
    else Float32.trunc v.
Proof.
  intros Hv. cbv zeta.
  destruct (Float32.is_nan v) eqn:Hnan.
  { destruct v; try discriminate Hnan. reflexivity. }
  destruct (Float32.ltb (Float32.of_int 127) v) eqn:Hhi; [reflexivity |].
  destruct (Float32.ltb v (Float32.of_int (-128))) eqn:Hlo; [reflexivity |].
  destruct (trunc_in_range v Hv Hhi Hlo Hnan) as (q & Hq & Hr).
  unfold Float32.to_int8. rewrite Hq.
  destruct (Z.leb_spec (-128) q); [| lia].
  destruct (Z.leb_spec q 127); [| lia].
  reflexivity.
Qed.

(** Truncation is toward zero: the integral part lies between zero and
    the value, less than one away from it. *)
Lemma trunc_toward_zero f z V :
  Float32.trunc f = Some z -> Float32.to_Q f = Some V ->
  (Qabs (inject_Z z) <= Qabs V)%Q
  /\ (Qabs V < Qabs (inject_Z z) + 1)%Q
  /\ (0 <= inject_Z z * V)%Q.
Proof.
  destruct f as [s | s | | s m e]; try discriminate.
  - intros [= <-] [= <-]. repeat split; try discriminate.
  - rewrite trunc_finite. cbn [Float32.to_Q]. intros [= <-] [= <-].
    destruct (Z.leb_spec 0 e) as [He | He].
    + set (n := Z.pos m * 2 ^ e).
      assert (0 <= n) by (subst n; apply Z.mul_nonneg_nonneg; [lia | apply Z.pow_nonneg; lia]).
      unfold Qle, Qlt, Qabs, Qplus, Qmult, inject_Z. cbn [Qnum Qden].
      destruct s; cbn [cond_Zopp]; repeat split; nia.
    + assert (Hp : 0 < 2 ^ (- e)) by (apply Z.pow_pos_nonneg; lia).
      set (D := 2 ^ (- e)) in *.
      pose proof (Z.div_mod (Z.pos m) D ltac:(lia)) as Hdm.
      pose proof (Z.mod_pos_bound (Z.pos m) D Hp) as Hmod.
      assert (Hq : 0 <= Z.pos m / D) by (apply Z.div_pos; lia).
      unfold Qle, Qlt, Qabs, Qplus, Qmult, inject_Z. cbn [Qnum Qden].
      rewrite ?Pos2Z.inj_mul, ?Z2Pos.id by lia.
      destruct s; cbn [cond_Zopp]; repeat split; nia.
Qed.

End ClampCast.

(** ** The element loops *)

Section Loops.

Context {A B : Type}.
Variable C : list B -> buffer.
Variable f : A -> option B.
Variable s : list A.
Variable body : nat -> buffer -> option buffer.

(** The body reads [s !! i], computes, and stores at index [i]. *)
Hypothesis body_step :
  forall i l x y,
    s !! i = Some x -> f x = Some y -> (i < length l)%nat ->
    body i (C l) = Some (C (<[i:=y]> l)).

Lemma for_loop_fill (qs : list B) :
  Forall2 (fun x y => f x = Some y) s qs ->
  forall n i d,
    (i + n = length s)%nat -> (length s <= length d)%nat ->
    for_loop n i body (C (take i qs ++ drop i d))
    = Some (C (qs ++ drop (length s) d)).
Proof.
  intros Hqs. pose proof (Forall2_length _ _ _ Hqs) as Hlen.
  induction n as [| n IH]; intros i d Hi Hd; cbn [for_loop].
  - assert (i = length s) as -> by lia.
    rewrite take_ge by lia. reflexivity.
  - assert (Hlt : (i < length s)%nat) by lia.
    destruct (lookup_lt_is_Some_2 s i Hlt) as [x Hx].
    destruct (Forall2_lookup_l _ _ _ _ _ Hqs Hx) as (y & Hy & Hf).
    destruct (lookup_lt_is_Some_2 d i ltac:(lia)) as [di Hdi].
    assert (Htl : length (take i qs) = i) by (rewrite length_take; lia).
    rewrite (body_step i _ x y Hx Hf)
      by (rewrite length_app, Htl, length_drop; lia).
    assert (Hins : <[i:=y]> (take i qs ++ drop i d)
                   = take (S i) qs ++ drop (S i) d).
    { rewrite insert_app_r_alt by lia. rewrite Htl, Nat.sub_diag.
      rewrite (drop_S d di i Hdi). cbn [list_insert].
      rewrite (take_S_r qs i y Hy). rewrite <- app_assoc. reflexivity. }
    rewrite Hins. apply IH; lia.
Qed.

End Loops.

Section Quantizer.

Lemma total_of_tensor t ty l :
  tensor_holds t ty l -> Z.to_nat (wrap32 (rows t * cols t)) = length l.
Proof.
  intros (_ & _ & Hr & Hc & Hl). unfold is_u16 in *. unfold wrap32.
  rewrite Z.mod_small by (change (2 ^ 32) with (2 ^ 16 * 2 ^ 16); nia).
  lia.
Qed.

Lemma dequantize_on_tensors src dst scale s d :
  tensor_holds src TENSOR_INT8 s ->
  tensor_holds dst TENSOR_FLOAT32 d ->
  (length s <= length d)%nat ->
  dequantize_int8_to_float32 src dst scale
  = Some (set_data dst
            (Buf_f32 (map (fun q => dequantize_value q scale) s
                      ++ drop (length s) d))).
Proof.
  intros Hs Hd Hlen. unfold dequantize_int8_to_float32.
  rewrite (total_of_tensor src _ s Hs).
  destruct Hs as (Ts & Ds & _). destruct Hd as (Td & Dd & _).
  rewrite Ts, Td, Ds, Dd. cbn [buf_of].
  rewrite !bool_decide_eq_false_2 by (intros H; apply H; reflexivity).
  cbn [orb].
  pose proof (for_loop_fill Buf_f32 (fun q => Some (dequantize_value q scale)) s
                (fun i out => q ← read_i8 (Buf_i8 s) i;
                              write_f32 out i (dequantize_value q scale))) as Hloop.
  specialize (Hloop ltac:(intros i l x y Hx [= <-] Hi; cbn; rewrite Hx; cbn;
                       destruct (decide (i < length l)%nat); [reflexivity | lia])
             (map (fun q => dequantize_value q scale) s)
             ltac:(apply Forall2_fmap_r, Forall_Forall2_diag, Forall_forall;
                   reflexivity)
             (length s) 0%nat d ltac:(lia) Hlen).
  change (Buf_f32 (take 0 _ ++ drop 0 d)) with (Buf_f32 d) in Hloop.
  rewrite Hloop. reflexivity.
Qed.

Lemma quantize_on_tensors src dst scale s d qs :
  tensor_holds src TENSOR_FLOAT32 s ->
  tensor_holds dst TENSOR_INT8 d ->
  (length s <= length d)%nat ->
  Forall2 (fun x q => quantize_value x scale = Some q) s qs ->
  quantize_float32_to_int8 src dst scale
  = Some (set_data dst (Buf_i8 (qs ++ drop (length s) d))).
Proof.
  intros Hs Hd Hlen Hqs. unfold quantize_float32_to_int8.
  rewrite (total_of_tensor src _ s Hs).
  destruct Hs as (Ts & Ds & _). destruct Hd as (Td & Dd & _).
  rewrite Ts, Td, Ds, Dd. cbn [buf_of].
  rewrite !bool_decide_eq_false_2 by (intros H; apply H; reflexivity).
  cbn [orb].
  pose proof (for_loop_fill Buf_i8 (fun x => quantize_value x scale) s
                (fun i out => x ← read_f32 (Buf_f32 s) i;
                              q ← quantize_value x scale;
                              write_i8 out i q)) as Hloop.
  specialize (Hloop ltac:(intros i l x y Hx Hq Hi; cbn; rewrite Hx; cbn;
                       rewrite Hq; cbn;
                       destruct (decide (i < length l)%nat); [reflexivity | lia])
             qs Hqs (length s) 0%nat d ltac:(lia) Hlen).
  change (Buf_i8 (take 0 _ ++ drop 0 d)) with (Buf_i8 d) in Hloop.
  rewrite Hloop. reflexivity.
Qed.

(** Where no quotient is a NaN, every element has a quantized value. *)
Lemma quantize_value_defined x scale :
  Float32.is_nan (Float32.div (Float32.of_bits x) (Float32.of_bits scale)) = false ->
  exists q, quantize_value x scale = Some q /\ -128 <= q <= 127.
Proof.
  intros Hnan. unfold quantize_value.
  set (v := Float32.div (Float32.of_bits x) (Float32.of_bits scale)) in *.
  pose proof (clamp_cast v (div_valid _ _)) as Hc. cbv zeta in Hc.
  rewrite Hc, Hnan.
  destruct (Float32.ltb (Float32.of_int 127) v) eqn:Hhi;
    [exists 127; split; [reflexivity | lia] |].
  destruct (Float32.ltb v (Float32.of_int (-128))) eqn:Hlo;
    [exists (-128); split; [reflexivity | lia] |].
  apply trunc_in_range; [apply div_valid | exact Hhi | exact Hlo | exact Hnan].
Qed.

Lemma quantize_values_exist scale (s : list Z) :
  (forall x, x ∈ s ->
     Float32.is_nan (Float32.div (Float32.of_bits x) (Float32.of_bits scale)) = false) ->
  exists qs, Forall2 (fun x q => quantize_value x scale = Some q) s qs.
Proof.
  induction s as [| x s IH]; intros H.
  - exists []. constructor.
  - destruct (quantize_value_defined x scale (H x ltac:(left))) as (q & Hq & _).
    destruct IH as [qs Hqs]; [intros y Hy; apply H; right; exact Hy |].
    exists (q :: qs). constructor; assumption.
Qed.

End Quantizer.

(** ** The clamp bounds as numbers *)

Section ClampValues.

Lemma valid_normal s m e :
  Float32.valid (S754_finite s m e) = true -> -149 < e -> 2 ^ 23 <= Z.pos m.
Proof.
  unfold Float32.valid, valid_binary, bounded, canonical_mantissa.
  intros H He. apply andb_prop in H as [Hc _]. apply Z.eqb_eq in Hc.
  pose proof (Zdigits2_bounds (Z.pos m) ltac:(lia)) as [L _].
  cbn [Zdigits2] in L.
  assert (Hd : Z.pos (digits2_pos m) = 24).
  { unfold SpecFloat.fexp, SpecFloat.emin, Float32.prec, Float32.emax in Hc. lia. }
  rewrite Hd in L. exact L.
Qed.

(** The float comparison [127 < v] is the comparison of the values. *)
Lemma gt_127_value v V :
  Float32.valid v = true -> Float32.to_Q v = Some V ->
  Float32.ltb (Float32.of_int 127) v = true <-> (inject_Z 127 < V)%Q.
Proof.
  intros Hv HV. destruct v as [s | s | | s m e]; try discriminate HV.
  - injection HV as <-. split; [discriminate | intros H; discriminate H].
  - pose proof (valid_mantissa s m e Hv) as Hm.
    rewrite gt_127_finite. cbn [Float32.to_Q] in HV. injection HV as <-.
    destruct (Z.leb_spec 0 e) as [He | He].
    + pose proof (valid_normal s m e Hv ltac:(lia)) as Hn.
      assert (Hp : 1 <= 2 ^ e) by (apply (Z.pow_le_mono_r 2 0 e); lia).
      assert (H1 : (-17 <? e) = true) by (apply Z.ltb_lt; lia).
      rewrite H1. unfold Qlt, inject_Z. cbn [Qnum Qden orb].
      destruct s; cbn [cond_Zopp negb andb]; split; try discriminate; nia.
    + assert (Hp : 0 < 2 ^ (- e)) by (apply Z.pow_pos_nonneg; lia).
      unfold Qlt, inject_Z. cbn [Qnum Qden]. rewrite Z2Pos.id by lia.
      destruct s; cbn [cond_Zopp negb andb]; [split; [discriminate | nia] |].
      destruct (Z.ltb_spec (-17) e) as [Hgt | Hle]; cbn [orb].
      * pose proof (valid_normal false m e Hv ltac:(lia)) as Hn.
        assert (2 ^ (- e) <= 2 ^ 16) by (apply Z.pow_le_mono_r; lia).
        split; [nia | reflexivity].
      * destruct (Z.eqb_spec e (-17)) as [-> | Hne]; cbn [andb].
        -- change (2 ^ (- -17)) with 131072. rewrite Z.ltb_lt. lia.
        -- assert (2 ^ 18 <= 2 ^ (- e)) by (apply Z.pow_le_mono_r; lia).
           split; [discriminate | nia].
Qed.

(** The float comparison [v < -128] is the comparison of the values. *)
Lemma lt_m128_value v V :
  Float32.valid v = true -> Float32.to_Q v = Some V ->
  Float32.ltb v (Float32.of_int (-128)) = true <-> (V < inject_Z (-128))%Q.
Proof.
  intros Hv HV. destruct v as [s | s | | s m e]; try discriminate HV.
  - injection HV as <-. split; [discriminate | intros H; discriminate H].
  - pose proof (valid_mantissa s m e Hv) as Hm.
    rewrite lt_m128_finite. cbn [Float32.to_Q] in HV. injection HV as <-.
    destruct (Z.leb_spec 0 e) as [He | He].
    + pose proof (valid_normal s m e Hv ltac:(lia)) as Hn.
      assert (Hp : 1 <= 2 ^ e) by (apply (Z.pow_le_mono_r 2 0 e); lia).
      assert (H1 : (-16 <? e) = true) by (apply Z.ltb_lt; lia).
      rewrite H1. unfold Qlt, inject_Z. cbn [Qnum Qden orb].
      destruct s; cbn [cond_Zopp negb andb]; split; try discriminate; nia.
    + assert (Hp : 0 < 2 ^ (- e)) by (apply Z.pow_pos_nonneg; lia).
      unfold Qlt, inject_Z. cbn [Qnum Qden]. rewrite Z2Pos.id by lia.
      destruct s; cbn [cond_Zopp negb andb]; [| split; [discriminate | nia]].
      destruct (Z.ltb_spec (-16) e) as [Hgt | Hle]; cbn [orb].
      * pose proof (valid_normal true m e Hv ltac:(lia)) as Hn.
        assert (2 ^ (- e) <= 2 ^ 15) by (apply Z.pow_le_mono_r; lia).
        split; [nia | reflexivity].
      * destruct (Z.eqb_spec e (-16)) as [-> | Hne]; cbn [andb].
        -- change (2 ^ (- -16)) with 65536. rewrite Z.ltb_lt. lia.
        -- assert (2 ^ 17 <= 2 ^ (- e)) by (apply Z.pow_le_mono_r; lia).
           split; [discriminate | nia].
Qed.

End ClampValues.

(** ** The quantizer on elements *)

(** C2. For every element and every scale the quantizer divides in
    float32, compares the quotient with 127 and with -128 as floats, and
    only then converts: a quotient above 127 (plus infinity included) gives
    127, one below -128 gives -128, any other number gives its integral
    part, truncated toward zero; the result always lies in [-128, 127].
    (For a NaN quotient the conversion is undefined in C.)  On tensors,
    12.8f at scale 0.1f gives 127 and -13.0f gives -128. *)
Theorem quantize_clamps_then_truncates :
  (forall x scale,
     let v := Float32.div (Float32.of_bits x) (Float32.of_bits scale) in
     quantize_value x scale =
       (if Float32.is_nan v then None
        else if Float32.ltb (Float32.of_int 127) v then Some 127
        else if Float32.ltb v (Float32.of_int (-128)) then Some (-128)
        else Float32.trunc v)
     /\ (Float32.is_nan v = false ->
         exists q, quantize_value x scale = Some q /\ -128 <= q <= 127)
     /\ (forall V, Float32.to_Q v = Some V ->
         exists q, quantize_value x scale = Some q
           /\ ((inject_Z 127 < V)%Q -> q = 127)
           /\ ((V < inject_Z (-128))%Q -> q = -128)
           /\ (~ (inject_Z 127 < V)%Q -> ~ (V < inject_Z (-128))%Q ->
               (Qabs (inject_Z q) <= Qabs V)%Q
               /\ (Qabs V < Qabs (inject_Z q) + 1)%Q
               /\ (0 <= inject_Z q * V)%Q)))
  /\ (forall d0,
        quantize_float32_to_int8 (tensor1x1 TENSOR_FLOAT32 (Buf_f32 [f12_8]))
                                 (tensor1x1 TENSOR_INT8 (Buf_i8 [d0])) f0_1
        = Some (tensor1x1 TENSOR_INT8 (Buf_i8 [127])))
  /\ (forall d0,
        quantize_float32_to_int8 (tensor1x1 TENSOR_FLOAT32 (Buf_f32 [fm13_0]))
                                 (tensor1x1 TENSOR_INT8 (Buf_i8 [d0])) f0_1
        = Some (tensor1x1 TENSOR_INT8 (Buf_i8 [-128]))).
Proof.
  split; [| split; intros d0; reflexivity].
  intros x scale v.
  assert (Heq : quantize_value x scale =
                  (if Float32.is_nan v then None
                   else if Float32.ltb (Float32.of_int 127) v then Some 127
                   else if Float32.ltb v (Float32.of_int (-128)) then Some (-128)
                   else Float32.trunc v)).
  { unfold quantize_value. fold v.
    exact (clamp_cast v (div_valid _ _)). }
  split; [exact Heq |]. split; [apply quantize_value_defined |].
  intros V HV.
  pose proof (div_valid (Float32.of_bits x) (Float32.of_bits scale)) as Hv.
  fold v in Hv.
  pose proof (gt_127_value v V Hv HV) as Hhi.
  pose proof (lt_m128_value v V Hv HV) as Hlo.
  assert (Hnan : Float32.is_nan v = false) by (destruct v; try discriminate HV; reflexivity).
  rewrite Heq, Hnan.
  destruct (Float32.ltb (Float32.of_int 127) v) eqn:E1.
  { assert (H127 : (inject_Z 127 < V)%Q) by (apply Hhi; reflexivity).
    exists 127. split; [reflexivity |]. split; [reflexivity |].
    split; [| intros Hn; contradiction].
    intros H. exfalso. apply (Qlt_irrefl V).
    eapply Qlt_trans; [exact H |]. eapply Qlt_trans; [| exact H127]. reflexivity. }
  destruct (Float32.ltb v (Float32.of_int (-128))) eqn:E2.
  { assert (H128 : (V < inject_Z (-128))%Q) by (apply Hlo; reflexivity).
    exists (-128). split; [reflexivity |].
    split; [| split; [reflexivity | intros _ Hn; contradiction]].
    intros H. apply Hhi in H. discriminate H. }
  destruct (trunc_in_range v Hv E1 E2 Hnan) as (q & Hq & _).
  exists q. split; [exact Hq |].
  split; [intros H; apply Hhi in H; discriminate H |].
  split; [intros H; apply Hlo in H; discriminate H |].
  intros _ _. exact (trunc_toward_zero v q V Hq HV).
Qed.

(** 2.1f / 0.1f is the float 20.999998f: not clamped, truncated to 20. *)
Lemma quantize_clamps_then_truncates_witness :
  Float32.to_Q (Float32.div (Float32.of_bits f2_1) (Float32.of_bits f0_1))
    = Some (11010047 # 524288)%Q
  /\ quantize_value f2_1 f0_1 = Some 20.
Proof.
  split; [reflexivity |].
  destruct (proj1 quantize_clamps_then_truncates f2_1 f0_1) as (Heq & _).
  rewrite Heq. reflexivity.
Defined.

(** ** The quantizer on tensors *)

(** C10. When the type tags are not the expected pair, both functions
    return at once: the destination comes back exactly as it was, and
    nothing is signalled. *)
Theorem type_guard_leaves_destination_unchanged :
  (forall src dst scale,
     type src <> TENSOR_FLOAT32 \/ type dst <> TENSOR_INT8 ->
     quantize_float32_to_int8 src dst scale = Some dst)
  /\ (forall src dst scale,
        type src <> TENSOR_INT8 \/ type dst <> TENSOR_FLOAT32 ->
        dequantize_int8_to_float32 src dst scale = Some dst).
Proof.
  split; intros src dst scale H.
  - unfold quantize_float32_to_int8.
    destruct H as [H | H].
    + rewrite (bool_decide_eq_true_2 _ H). reflexivity.
    + rewrite (bool_decide_eq_true_2 _ H). rewrite orb_true_r. reflexivity.
  - unfold dequantize_int8_to_float32.
    destruct H as [H | H].
    + rewrite (bool_decide_eq_true_2 _ H). reflexivity.
    + rewrite (bool_decide_eq_true_2 _ H). rewrite orb_true_r. reflexivity.
Qed.

(** A float16 source for the quantizer, and a float32 source paired with a
    float32 destination for the dequantizer. *)
Lemma type_guard_leaves_destination_unchanged_witness :
  quantize_float32_to_int8
    (tensor1x1 TENSOR_FLOAT16 (Buf_f16 [0x3C00]))
    (tensor1x1 TENSOR_INT8 (Buf_i8 [7])) f0_1
  = Some (tensor1x1 TENSOR_INT8 (Buf_i8 [7]))
  /\ dequantize_int8_to_float32 input input f0_1 = Some input.
Proof.
  split.
  - apply (proj1 type_guard_leaves_destination_unchanged).
    left. vm_compute. discriminate.
  - apply (proj2 type_guard_leaves_destination_unchanged).
    left. vm_compute. discriminate.
Defined.

(** C1, as the code computes it.  At scale 0.1f the buffer
    [0.5, -1.2, 3.4, 2.1] quantizes to [5, -12, 34, 20]: the float32
    quotient 2.1f / 0.1f is 20.999998f, just below 21, and truncates to 20.
    Dequantizing [5, -12, 34, 21] at scale 0.1f gives 0.5f, -1.2f, 3.4f and
    the float whose pattern is [0x40066667], one unit in the last place
    above 2.1f; dequantizing the quantizer's own output gives
    [0.5, -1.2, 3.4, 2.0]. *)
Theorem demo_quantize_dequantize :
  forall d0 d1 d2 d3,
    quantize_float32_to_int8 input (tensor2x2 TENSOR_INT8 (Buf_i8 [d0; d1; d2; d3])) f0_1
    = Some (tensor2x2 TENSOR_INT8 (Buf_i8 [5; -12; 34; 20]))
    /\ Float32.div (Float32.of_bits f2_1) (Float32.of_bits f0_1)
       = S754_finite false 11010047 (-19)
    /\ dequantize_int8_to_float32
         (tensor2x2 TENSOR_INT8 (Buf_i8 [5; -12; 34; 21]))
         (tensor2x2 TENSOR_FLOAT32 (Buf_f32 [d0; d1; d2; d3])) f0_1
       = Some (tensor2x2 TENSOR_FLOAT32 (Buf_f32 [f0_5; fm1_2; f3_4; f2_1 + 1]))
    /\ dequantize_int8_to_float32
         (tensor2x2 TENSOR_INT8 (Buf_i8 [5; -12; 34; 20]))
         (tensor2x2 TENSOR_FLOAT32 (Buf_f32 [d0; d1; d2; d3])) f0_1
       = Some (tensor2x2 TENSOR_FLOAT32 (Buf_f32 [f0_5; fm1_2; f3_4; f2_0])).
Proof. intros d0 d1 d2 d3. repeat split. Qed.

(** With 21 as the last quantized value and 2.1f as the last dequantized
    value, the worked example fails in both halves. *)
Lemma demo_with_21_fails :
  quantize_float32_to_int8 input (tensor2x2 TENSOR_INT8 (Buf_i8 [0; 0; 0; 0])) f0_1
  <> Some (tensor2x2 TENSOR_INT8 (Buf_i8 [5; -12; 34; 21]))
  /\ dequantize_int8_to_float32
       (tensor2x2 TENSOR_INT8 (Buf_i8 [5; -12; 34; 21]))
       (tensor2x2 TENSOR_FLOAT32 (Buf_f32 [0; 0; 0; 0])) f0_1
     <> Some (tensor2x2 TENSOR_FLOAT32 (Buf_f32 [f0_5; fm1_2; f3_4; f2_1])).
Proof. split; vm_compute; discriminate. Qed.

(** ** Quantization error *)

Section Error.

(** Discarding the fraction moves a float by less than one. *)
Lemma trunc_error f z V :
  Float32.trunc f = Some z -> Float32.to_Q f = Some V ->
  (Qabs (V - inject_Z z) < 1)%Q.
Proof.
  destruct f as [s | s | | s m e]; try discriminate.
  - intros [= <-] [= <-]. reflexivity.
  - rewrite trunc_finite. cbn [Float32.to_Q]. intros [= <-] [= <-].
    destruct (Z.leb_spec 0 e) as [He | He].
    + unfold Qlt, Qabs, Qminus, Qplus, Qopp, inject_Z. cbn [Qnum Qden].
      replace (cond_Zopp s (Z.pos m * 2 ^ e) * 1 + - cond_Zopp s (Z.pos m * 2 ^ e) * 1)
        with 0 by lia.
      reflexivity.
    + assert (Hp : 0 < 2 ^ (- e)) by (apply Z.pow_pos_nonneg; lia).
      set (D := 2 ^ (- e)) in *.
      pose proof (Z.div_mod (Z.pos m) D ltac:(lia)) as Hdm.
      pose proof (Z.mod_pos_bound (Z.pos m) D Hp) as Hmod.
      unfold Qlt, Qabs, Qminus, Qplus, Qopp, inject_Z. cbn [Qnum Qden].
      rewrite ?Pos2Z.inj_mul, ?Z2Pos.id by lia.
      destruct s; cbn [cond_Zopp]; nia.
Qed.

End Error.

(** ** The shape of a rounded result *)

Section RoundShape.

Variables prec emax : Z.
Hypothesis Hprec : 0 < prec.

Local Abbreviation fexp := (SpecFloat.fexp prec emax).
Local Abbreviation emin := (SpecFloat.emin prec emax).

(** The first shift brings the mantissa to the exponent of its magnitude,
    dividing it by the power of two in between. *)
Lemma shr_fexp_shape m e l :
  0 <= m -> e <= fexp (Zdigits2 m + e) ->
  snd (shr_fexp prec emax m e l) = fexp (Zdigits2 m + e)
  /\ shr_m (fst (shr_fexp prec emax m e l))
     = m / 2 ^ (fexp (Zdigits2 m + e) - e).
Proof.
  intros Hm He. unfold shr_fexp, shr.
  destruct (fexp (Zdigits2 m + e) - e) as [| n | n] eqn:Hn; cbn [fst snd].
  - rewrite shr_record_of_loc_m. cbn. rewrite Z.div_1_r. split; [lia | reflexivity].
  - rewrite shr_iter_m by (rewrite shr_record_of_loc_m; exact Hm).
    rewrite shr_record_of_loc_m. split; [lia | reflexivity].
  - lia.
Qed.

Lemma canonical_cases d e :
  0 <= d -> e = fexp (d + e) -> e = emin \/ d = prec.
Proof. unfold SpecFloat.fexp. lia. Qed.

Lemma binary_round_aux_shape sx mx ex lx :
  0 <= mx -> ex <= fexp (Zdigits2 mx + ex) ->
  exists m' e',
    ex <= e'
    /\ mx / 2 ^ (e' - ex) <= m' <= mx / 2 ^ (e' - ex) + 1
    /\ (e' = emin \/ 2 ^ (prec - 1) <= mx / 2 ^ (e' - ex))
    /\ (binary_round_aux prec emax sx mx ex lx = S754_zero sx /\ m' = 0
        \/ binary_round_aux prec emax sx mx ex lx = S754_infinity sx
        \/ exists m2 e2,
             binary_round_aux prec emax sx mx ex lx = S754_finite sx m2 e2
             /\ e' <= e2 /\ Z.pos m2 * 2 ^ (e2 - e') = m').
Proof.
  intros Hm He. unfold binary_round_aux.
  pose proof (shr_fexp_canonical prec emax Hprec mx ex lx Hm He) as [H1 H1e].
  pose proof (shr_fexp_shape mx ex lx Hm He) as [S1e S1m].
  destruct (shr_fexp prec emax mx ex lx) as [mrs' e'] eqn:E1. cbn [fst snd] in *.
  set (M1 := shr_m mrs') in *.
  set (m1 := round_nearest_even M1 (loc_of_shr_record mrs')).
  assert (Hm1 : M1 <= m1 <= M1 + 1)
    by (destruct (round_nearest_even_cases M1 (loc_of_shr_record mrs'))
          as [H | H]; fold m1 in H; lia).
  assert (Hd : Zdigits2 M1 <= Zdigits2 m1) by (apply Zdigits2_mono; lia).
  assert (He1 : e' <= fexp (Zdigits2 m1 + e')).
  { rewrite H1e at 1. apply fexp_mono. lia. }
  pose proof (shr_fexp_shape m1 e' loc_Exact ltac:(lia) He1) as [S2e S2m].
  destruct (shr_fexp prec emax m1 e' loc_Exact) as [mrs'' e''] eqn:E2.
  cbn [fst snd] in *.
  exists m1, e'.
  assert (Hn : e' - ex = fexp (Zdigits2 mx + ex) - ex) by lia.
  rewrite Hn, <- S1m.
  split; [lia |]. split; [exact Hm1 |].
  split.
  { destruct (canonical_cases (Zdigits2 M1) e' (Zdigits2_nonneg M1) H1e)
      as [Hc | Hc]; [left; exact Hc | right].
    destruct (Z.eq_dec M1 0) as [Hz | Hz].
    - rewrite Hz in Hc. cbn in Hc. lia.
    - pose proof (Zdigits2_bounds M1 ltac:(lia)) as [L _]. rewrite Hc in L. exact L. }
  (* the second shift is exact *)
  assert (Hex : shr_m mrs'' * 2 ^ (e'' - e') = m1).
  { rewrite S2m, S2e.
    destruct (Z.eq_dec (fexp (Zdigits2 m1 + e') - e') 0) as [H0 | H0].
    - rewrite H0. cbn. rewrite Z.div_1_r. lia.
    - assert (Hd1 : Zdigits2 m1 <> Zdigits2 M1)
        by (intros Heq; rewrite Heq in H0; lia).
      assert (HM0 : 0 < M1).
      { destruct (Z.eq_dec M1 0) as [Hz | Hz]; [| lia]. exfalso.
        rewrite Hz in *. cbn [Zdigits2] in *.
        assert (m1 = 1).
        { destruct (Z.eq_dec m1 0) as [-> | ]; [cbn in Hd1; lia | lia]. }
        subst m1. rewrite H in H0. cbn [Zdigits2 digits2_pos] in H0.
        unfold SpecFloat.fexp in *. lia. }
      pose proof (Zdigits2_bounds M1 HM0) as [L1 U1].
      assert (Hm1' : m1 = M1 + 1).
      { destruct (Z.eq_dec m1 M1) as [Heq | Hne]; [rewrite Heq in Hd1; lia | lia]. }
      pose proof (Zdigits2_bounds m1 ltac:(lia)) as [L2 U2].
      assert (Hdd : Zdigits2 m1 = Zdigits2 M1 + 1).
      { destruct (Z.le_gt_cases (Zdigits2 m1) (Zdigits2 M1 + 1)) as [Hle | Hgt]; [lia |].
        assert (2 ^ (Zdigits2 M1 + 1) <= 2 ^ (Zdigits2 m1 - 1))
          by (apply Z.pow_le_mono_r; lia).
        rewrite Z.pow_add_r in H by (pose proof (Zdigits2_nonneg M1); lia). lia. }
      assert (Hpow : m1 = 2 ^ Zdigits2 M1).
      { rewrite Hdd in L2. replace (Zdigits2 M1 + 1 - 1) with (Zdigits2 M1) in L2 by lia.
        lia. }
      assert (Hn1 : fexp (Zdigits2 m1 + e') - e' = 1).
      { rewrite Hdd. unfold SpecFloat.fexp in *. lia. }
      rewrite Hn1. change (2 ^ 1) with 2.
      assert (D1 : 0 < Zdigits2 M1).
      { destruct (Z.eq_dec (Zdigits2 M1) 0) as [Hz | Hz];
          [rewrite Hz in U1; cbn in U1; lia | pose proof (Zdigits2_nonneg M1); lia]. }
      assert (Hk : m1 = 2 ^ (Zdigits2 M1 - 1) * 2).
      { rewrite Hpow at 1.
        replace (Zdigits2 M1) with (Zdigits2 M1 - 1 + 1) at 1 by lia.
        rewrite Z.pow_add_r by lia. reflexivity. }
      rewrite Hk at 1. rewrite Z.div_mul by lia. lia. }
  assert (Hnn : 0 <= shr_m mrs'').
  { rewrite S2m. apply Z.div_pos; [lia |]. apply Z.pow_pos_nonneg; lia. }
  destruct (shr_m mrs'') as [| p | p] eqn:Hp.
  - left. split; [reflexivity | lia].
  - right. destruct (Z.leb_spec e'' (emax - prec)); [right | left; reflexivity].
    exists p, e''. split; [reflexivity |]. split; [lia | exact Hex].
  - lia.
Qed.

End RoundShape.

(** ** Rounding error *)

Section RoundError.

Variables prec emax : Z.
Hypothesis Hprec : 0 < prec.

Local Abbreviation fexp := (SpecFloat.fexp prec emax).
Local Abbreviation emin := (SpecFloat.emin prec emax).

Lemma pow2_pos e : (0 < 2 ^ e)%Q.
Proof. apply Qpower_0_lt. reflexivity. Qed.

Lemma pow2_add a b : (2 ^ (a + b) == 2 ^ a * 2 ^ b)%Q.
Proof. apply Qpower_plus. discriminate. Qed.

Lemma pow2_inject n : 0 <= n -> (inject_Z (2 ^ n) == 2 ^ n)%Q.
Proof. intros Hn. exact (Zpower_Qpower 2 n Hn). Qed.

Lemma inject_cond_Zopp s z :
  (inject_Z (cond_Zopp s z) == inject_Z (cond_Zopp s 1) * inject_Z z)%Q.
Proof.
  rewrite <- inject_Z_mult. destruct s; cbn [cond_Zopp]; f_equiv; lia.
Qed.

(** The value of a finite float is its signed mantissa times a power
    of two. *)
Lemma to_Q_finite s m e V :
  Float32.to_Q (S754_finite s m e) = Some V ->
  (V == inject_Z (cond_Zopp s (Z.pos m)) * 2 ^ e)%Q.
Proof.
  cbn [Float32.to_Q]. intros [= <-].
  destruct (Z.leb_spec 0 e) as [He | He].
  - rewrite <- pow2_inject by exact He. rewrite <- inject_Z_mult.
    destruct s; cbn [cond_Zopp]; f_equiv; lia.
  - assert (Hp : 0 < 2 ^ (- e)) by (apply Z.pow_pos_nonneg; lia).
    rewrite Qmake_Qdiv, Z2Pos.id by exact Hp.
    rewrite pow2_inject by lia. rewrite Qpower_opp.
    unfold Qdiv. rewrite Qinv_involutive. reflexivity.
Qed.

(** A rounded result is within one unit of its last place of every number
    the mantissa and its successor enclose; outside the subnormal range
    that unit is at most [2^(1 - prec)] times the number. *)
Lemma round_error sx mx ex lx (x r : Q) :
  0 <= mx -> ex <= fexp (Zdigits2 mx + ex) ->
  (inject_Z mx * 2 ^ ex <= x)%Q ->
  (x <= inject_Z (mx + 1) * 2 ^ ex)%Q ->
  Float32.to_Q (binary_round_aux prec emax sx mx ex lx) = Some r ->
  exists m' e',
    0 <= m'
    /\ (r == inject_Z (cond_Zopp sx 1) * (inject_Z m' * 2 ^ e'))%Q
    /\ (inject_Z m' * 2 ^ e' - 2 ^ e' <= x)%Q
    /\ (x <= inject_Z m' * 2 ^ e' + 2 ^ e')%Q
    /\ (e' = emin
        \/ (inject_Z (2 ^ (prec - 1)) * 2 ^ e' <= x)%Q
           /\ (inject_Z (2 ^ (prec - 1)) * 2 ^ e' <= inject_Z m' * 2 ^ e')%Q).
Proof.
  intros Hm He Hlo Hhi Hr.
  destruct (binary_round_aux_shape prec emax Hprec sx mx ex lx Hm He)
    as (m' & e' & Hee & Hm' & Hnorm & Hres).
  set (n := e' - ex) in *.
  assert (Hn : 0 <= n) by (subst n; lia).
  assert (Hp : 0 < 2 ^ n) by (apply Z.pow_pos_nonneg; lia).
  pose proof (Z.div_mod mx (2 ^ n) ltac:(lia)) as Hdm.
  pose proof (Z.mod_pos_bound mx (2 ^ n) Hp) as Hmod.
  set (M1 := mx / 2 ^ n) in *.
  assert (HM1 : 0 <= M1) by (subst M1; apply Z.div_pos; lia).
  assert (Hpe : (2 ^ e' == inject_Z (2 ^ n) * 2 ^ ex)%Q).
  { rewrite pow2_inject by exact Hn. rewrite <- pow2_add. subst n.
    replace (e' - ex + ex) with e' by lia. reflexivity. }
  pose proof (pow2_pos ex) as Pex. pose proof (pow2_pos e') as Pe'.
  assert (HloM : (inject_Z M1 * 2 ^ e' <= x)%Q).
  { eapply Qle_trans; [| exact Hlo]. rewrite Hpe, Qmult_assoc, <- inject_Z_mult.
    apply Qmult_le_compat_r; [| apply Qlt_le_weak; exact Pex].
    rewrite <- Zle_Qle. lia. }
  assert (HhiM : (x <= inject_Z (M1 + 1) * 2 ^ e')%Q).
  { eapply Qle_trans; [exact Hhi |]. rewrite Hpe, Qmult_assoc, <- inject_Z_mult.
    apply Qmult_le_compat_r; [| apply Qlt_le_weak; exact Pex].
    rewrite <- Zle_Qle. lia. }
  assert (HM11 : (inject_Z (M1 + 1) == inject_Z M1 + 1)%Q)
    by (rewrite inject_Z_plus; reflexivity).
  assert (Hm1 : (inject_Z m' - 1 <= inject_Z M1)%Q).
  { assert (H : (inject_Z m' <= inject_Z (M1 + 1))%Q) by (rewrite <- Zle_Qle; lia).
    rewrite HM11 in H. lra. }
  assert (Hm2 : (inject_Z (M1 + 1) <= inject_Z m' + 1)%Q).
  { assert (H : (inject_Z M1 <= inject_Z m')%Q) by (rewrite <- Zle_Qle; lia).
    rewrite HM11. lra. }
  assert (Hm3 : (inject_Z M1 <= inject_Z m')%Q) by (rewrite <- Zle_Qle; lia).
  exists m', e'. split; [lia |].
  split.
  { destruct Hres as [[Hz ->] | [Hinf | (m2 & e2 & Hfin & He2 & Hm2e)]].
    - rewrite Hz in Hr. injection Hr as <-. ring.
    - rewrite Hinf in Hr. discriminate Hr.
    - rewrite Hfin in Hr. rewrite (to_Q_finite _ _ _ _ Hr).
      rewrite inject_cond_Zopp. rewrite <- Hm2e.
      rewrite inject_Z_mult, pow2_inject by lia.
      replace e2 with ((e2 - e') + e') at 1 by lia.
      rewrite pow2_add. ring. }
  split; [| split].
  - apply Qle_trans with (inject_Z M1 * 2 ^ e')%Q; [| exact HloM].
    assert ((inject_Z m' - 1) * 2 ^ e' <= inject_Z M1 * 2 ^ e')%Q
      by (apply Qmult_le_compat_r; [exact Hm1 | apply Qlt_le_weak; exact Pe']).
    ring_simplify in H. ring_simplify. exact H.
  - apply Qle_trans with (inject_Z (M1 + 1) * 2 ^ e')%Q; [exact HhiM |].
    assert (inject_Z (M1 + 1) * 2 ^ e' <= (inject_Z m' + 1) * 2 ^ e')%Q
      by (apply Qmult_le_compat_r; [exact Hm2 | apply Qlt_le_weak; exact Pe']).
    ring_simplify in H. ring_simplify. exact H.
  - destruct Hnorm as [Hmin | Hnorm]; [left; exact Hmin | right].
    assert (Hq : (inject_Z (2 ^ (prec - 1)) <= inject_Z M1)%Q)
      by (rewrite <- Zle_Qle; exact Hnorm).
    assert (Hq' : (inject_Z (2 ^ (prec - 1)) * 2 ^ e' <= inject_Z M1 * 2 ^ e')%Q)
      by (apply Qmult_le_compat_r; [exact Hq | apply Qlt_le_weak; exact Pe']).
    split.
    + eapply Qle_trans; [exact Hq' | exact HloM].
    + eapply Qle_trans; [exact Hq' |].
      apply Qmult_le_compat_r; [exact Hm3 | apply Qlt_le_weak; exact Pe'].
Qed.

End RoundError.

(** ** Stored floats *)

Section Stored.

Lemma valid_finite_iff s m e :
  Float32.valid (S754_finite s m e) = true <->
  e = Z.max (Zdigits2 (Z.pos m) + e - 24) (-149) /\ e <= 104.
Proof.
  unfold Float32.valid, valid_binary, bounded, canonical_mantissa.
  rewrite andb_true_iff, Z.eqb_eq, Z.leb_le.
  unfold SpecFloat.fexp, SpecFloat.emin, Float32.prec, Float32.emax.
  cbn [Zdigits2]. split; intros [H1 H2]; split; lia.
Qed.

(** Every 32-bit pattern denotes a canonical float. *)
Lemma of_bits_valid b : Float32.valid (Float32.of_bits b) = true.
Proof.
  unfold Float32.of_bits.
  pose proof (exp_of_range b) as He. pose proof (man_of_range b) as Hm.
  destruct (Z.eqb_spec (Float32.exp_of b) 0) as [E0 | E0].
  - destruct (Float32.man_of b) as [| p | p] eqn:Hp; [reflexivity | | reflexivity].
    apply valid_finite_iff.
    pose proof (Zdigits2_bounds (Z.pos p) ltac:(lia)) as [L _].
    assert (Zdigits2 (Z.pos p) <= 23).
    { destruct (Z.le_gt_cases (Zdigits2 (Z.pos p)) 23) as [H | H]; [exact H |].
      assert (2 ^ 23 <= 2 ^ (Zdigits2 (Z.pos p) - 1)) by (apply Z.pow_le_mono_r; lia).
      lia. }
    lia.
  - destruct (Z.eqb_spec (Float32.exp_of b) 255) as [E1 | E1].
    + destruct (Float32.man_of b =? 0); reflexivity.
    + apply valid_finite_iff. rewrite Z2Pos.id by lia.
      rewrite (Zdigits2_unique (Float32.man_of b + 2 ^ 23) 24) by lia.
      lia.
Qed.

(** Storing a canonical float and loading it back gives the same float. *)
Lemma of_bits_to_bits f :
  Float32.valid f = true -> Float32.of_bits (Float32.to_bits f) = f.
Proof.
  intros Hv. destruct f as [s | s | | s m e].
  - destruct s; reflexivity.
  - destruct s; reflexivity.
  - reflexivity.
  - apply valid_finite_iff in Hv as [Hc He].
    pose proof (Zdigits2_bounds (Z.pos m) ltac:(lia)) as [L U].
    assert (Hs : Float32.sign_bit s = (if s then 1 else 0) * 2 ^ 31)
      by (destruct s; reflexivity).
    assert (Hs01 : (if s then 1 else 0) = 0 \/ (if s then 1 else 0) = 1)
      by (destruct s; auto).
    assert (Hsb : ((if s then 1 else 0) =? 1) = s) by (destruct s; reflexivity).
    cbn [Float32.to_bits]. rewrite Hs.
    destruct (Z.ltb_spec (Z.pos m) (2 ^ 23)) as [Hsub | Hnorm].
    + assert (Hd : Zdigits2 (Z.pos m) <= 23).
      { destruct (Z.le_gt_cases (Zdigits2 (Z.pos m)) 23) as [H | H]; [exact H |].
        assert (2 ^ 23 <= 2 ^ (Zdigits2 (Z.pos m) - 1))
          by (apply Z.pow_le_mono_r; lia).
        lia. }
      rewrite lor_disjoint by lia.
      destruct (fields_of_pack32 (if s then 1 else 0) 0 (Z.pos m)
                  Hs01 ltac:(lia) ltac:(lia)) as (F1 & F2 & F3).
      cbn [Z.mul Z.add] in F1, F2, F3. rewrite Z.add_0_r in F1, F2, F3.
      unfold Float32.of_bits. rewrite F1, F2, F3, Hsb. cbn [Z.eqb].
      f_equal. lia.
    + assert (Hd : Zdigits2 (Z.pos m) = 24).
      { destruct (Z.le_gt_cases 24 (Zdigits2 (Z.pos m))) as [H | H]; [lia |].
        assert (2 ^ Zdigits2 (Z.pos m) <= 2 ^ 23)
          by (apply Z.pow_le_mono_r; pose proof (Zdigits2_nonneg (Z.pos m)); lia).
        lia. }
      rewrite Hd in U.
      rewrite Z.shiftl_mul_pow2 by lia.
      rewrite (lor_disjoint (e + 150) _ 23) by lia.
      replace ((if s then 1 else 0) * 2 ^ 31)
        with ((if s then 1 else 0) * 2 ^ 8 * 2 ^ 23) by (destruct s; reflexivity).
      replace ((e + 150) * 2 ^ 23 + (Z.pos m - 2 ^ 23))
        with (0 * 2 ^ 23 + ((e + 150) * 2 ^ 23 + (Z.pos m - 2 ^ 23))) by lia.
      assert (Hlt : 0 <= (e + 150) * 2 ^ 23 + (Z.pos m - 2 ^ 23) < 2 ^ 31) by lia.
      replace ((if s then 1 else 0) * 2 ^ 8 * 2 ^ 23)
        with ((if s then 1 else 0) * 2 ^ 31) by (destruct s; reflexivity).
      rewrite Z.mul_0_l, Z.add_0_l.
      rewrite (lor_disjoint _ _ 31) by lia.
      rewrite Z.add_assoc.
      destruct (fields_of_pack32 (if s then 1 else 0) (e + 150) (Z.pos m - 2 ^ 23)
                  Hs01 ltac:(lia) ltac:(lia)) as (F1 & F2 & F3).
      unfold Float32.of_bits. rewrite F1, F2, F3, Hsb.
      destruct (Z.eqb_spec (e + 150) 0); [lia |].
      destruct (Z.eqb_spec (e + 150) 255); [lia |].
      f_equal; [| lia].
      replace (Z.pos m - 2 ^ 23 + 2 ^ 23) with (Z.pos m) by lia. reflexivity.
Qed.

Lemma Zdigits2_mul a b :
  0 < a -> 0 < b -> Zdigits2 a + Zdigits2 b - 1 <= Zdigits2 (a * b).
Proof.
  intros Ha Hb.
  pose proof (Zdigits2_bounds a Ha) as [La Ua].
  pose proof (Zdigits2_bounds b Hb) as [Lb Ub].
  pose proof (Zdigits2_bounds (a * b) ltac:(nia)) as [_ Uab].
  pose proof (Zdigits2_nonneg (a * b)) as Nab.
  assert (Da : 0 < Zdigits2 a).
  { destruct (Z.eq_dec (Zdigits2 a) 0) as [Hz | Hz];
      [rewrite Hz in Ua; cbn in Ua; lia | pose proof (Zdigits2_nonneg a); lia]. }
  assert (Db : 0 < Zdigits2 b).
  { destruct (Z.eq_dec (Zdigits2 b) 0) as [Hz | Hz];
      [rewrite Hz in Ub; cbn in Ub; lia | pose proof (Zdigits2_nonneg b); lia]. }
  destruct (Z.le_gt_cases (Zdigits2 a + Zdigits2 b - 1) (Zdigits2 (a * b)))
    as [H | H]; [exact H |].
  assert (Hp : 2 ^ Zdigits2 (a * b) <= 2 ^ (Zdigits2 a - 1 + (Zdigits2 b - 1)))
    by (apply Z.pow_le_mono_r; lia).
  rewrite Z.pow_add_r in Hp by lia.
  assert (2 ^ (Zdigits2 a - 1) * 2 ^ (Zdigits2 b - 1) <= a * b)
    by (apply Z.mul_le_mono_nonneg; try apply Z.pow_nonneg; lia).
  lia.
Qed.

(** The exponent and mantissa [SFmul] hands to the rounding satisfy its
    precondition. *)
Lemma mul_operands_ok sx mx ex sy my ey :
  Float32.valid (S754_finite sx mx ex) = true ->
  Float32.valid (S754_finite sy my ey) = true ->
  ex + ey <= SpecFloat.fexp 24 128 (Zdigits2 (Z.pos (mx * my)) + (ex + ey)).
Proof.
  intros Hx Hy. apply valid_finite_iff in Hx as [Cx _], Hy as [Cy _].
  pose proof (Zdigits2_mul (Z.pos mx) (Z.pos my) ltac:(lia) ltac:(lia)) as Hd.
  rewrite <- Pos2Z.inj_mul in Hd.
  pose proof (Zdigits2_bounds (Z.pos mx) ltac:(lia)) as [_ Ux].
  pose proof (Zdigits2_bounds (Z.pos my) ltac:(lia)) as [_ Uy].
  assert (Dx : 0 < Zdigits2 (Z.pos mx))
    by (cbn; lia).
  assert (Dy : 0 < Zdigits2 (Z.pos my))
    by (cbn; lia).
  unfold SpecFloat.fexp, SpecFloat.emin. lia.
Qed.

Lemma mul_valid x y :
  Float32.valid x = true -> Float32.valid y = true ->
  Float32.valid (Float32.mul x y) = true.
Proof.
  intros Hx Hy.
  destruct x as [sx | sx | | sx mx ex], y as [sy | sy | | sy my ey];
    try reflexivity.
  unfold Float32.mul. cbn [SFmul].
  apply binary_round_aux_valid; [reflexivity | lia |].
  exact (mul_operands_ok sx mx ex sy my ey Hx Hy).
Qed.

End Stored.

(** ** Error of the float division and multiplication *)

Section OpError.

Lemma SFdiv_core_enclosure prec emax m1 e1 m2 e2 :
  0 < m1 -> 0 < m2 ->
  let '(q, e', _) := SFdiv_core_binary prec emax m1 e1 m2 e2 in
  0 <= e1 - e2 - e'
  /\ m2 * q <= m1 * 2 ^ (e1 - e2 - e') < m2 * (q + 1).
Proof.
  intros H1 H2. unfold SFdiv_core_binary.
  set (E := Zdigits2 m1 + e1 - (Zdigits2 m2 + e2)).
  set (e' := Z.min (SpecFloat.fexp prec emax E) (e1 - e2)).
  assert (Hs : 0 <= e1 - e2 - e') by (subst e'; lia).
  set (m' := match e1 - e2 - e' with
             | 0 => m1
             | Z.pos _ => Z.shiftl m1 (e1 - e2 - e')
             | Z.neg _ => 0
             end).
  assert (Hm' : m' = m1 * 2 ^ (e1 - e2 - e')).
  { subst m'. destruct (e1 - e2 - e') as [| p | p] eqn:Hd.
    - cbn. lia.
    - apply Z.shiftl_mul_pow2. lia.
    - lia. }
  pose proof (Z.div_eucl_eq m' m2 ltac:(lia)) as Heq.
  pose proof (Z.mod_pos_bound m' m2 H2) as Hr.
  unfold Z.modulo in Hr.
  destruct (Z.div_eucl m' m2) as [q r].
  split; [exact Hs |]. rewrite <- Hm'. lia.
Qed.

Lemma pow2_emin_small : (2 ^ (-149) <= 1 # 65536)%Q.
Proof. vm_compute. discriminate. Qed.

Lemma inject_sign_true : inject_Z (cond_Zopp true 1) = (-1 # 1)%Q.
Proof. reflexivity. Qed.

Lemma inject_sign_false : inject_Z (cond_Zopp false 1) = 1%Q.
Proof. reflexivity. Qed.

Lemma Qabs_signed s (a b : Q) :
  (Qabs (inject_Z (cond_Zopp s 1) * a - inject_Z (cond_Zopp s 1) * b)
   == Qabs (a - b))%Q.
Proof.
  destruct s; rewrite ?inject_sign_true, ?inject_sign_false.
  - assert (E : ((-1 # 1) * a - (-1 # 1) * b == - (a - b))%Q) by ring.
    rewrite E. apply Qabs_opp.
  - assert (E : (1 * a - 1 * b == a - b)%Q) by ring.
    rewrite E. reflexivity.
Qed.

Lemma Qabs_signed_nonneg s (a : Q) :
  (0 <= a)%Q -> (Qabs (inject_Z (cond_Zopp s 1) * a) == a)%Q.
Proof.
  intros Ha. rewrite Qabs_Qmult, (Qabs_pos a) by exact Ha.
  destruct s; rewrite ?inject_sign_true, ?inject_sign_false.
  - change (Qabs (-1 # 1)) with 1%Q. ring.
  - change (Qabs 1) with 1%Q. ring.
Qed.

(** The float quotient is within one unit in the last place of the exact
    quotient. *)
Lemma div_error x y (X Y V : Q) :
  Float32.to_Q x = Some X -> Float32.to_Q y = Some Y -> (0 < Y)%Q ->
  Float32.to_Q (Float32.div x y) = Some V ->
  exists u : Q,
    (0 < u)%Q /\ (Qabs (V - X / Y) <= u)%Q
    /\ ((u == 2 ^ (-149))%Q \/ (inject_Z (2 ^ 23) * u <= Qabs V)%Q).
Proof.
  intros HX HY Ypos HV.
  destruct y as [sy | sy | | sy my ey]; try discriminate HY.
  { injection HY as <-. exfalso. exact (Qlt_irrefl 0 Ypos). }
  pose proof (to_Q_finite sy my ey Y HY) as EY.
  destruct sy.
  { exfalso. rewrite EY in Ypos. cbn [cond_Zopp] in Ypos.
    pose proof (pow2_pos ey) as Pey.
    assert (Hneg : (inject_Z (- Z.pos my) * 2 ^ ey < 0)%Q).
    { setoid_replace (inject_Z (- Z.pos my) * 2 ^ ey)%Q
        with (- (inject_Z (Z.pos my) * 2 ^ ey))%Q
        using relation Qeq by (rewrite inject_Z_opp; ring).
      assert (0 < inject_Z (Z.pos my) * 2 ^ ey)%Q
        by (apply Qmult_lt_0_compat; [reflexivity | exact Pey]).
      lra. }
    lra. }
  cbn [cond_Zopp] in EY.
  destruct x as [sx | sx | | sx mx ex]; try discriminate HX.
  { injection HX as <-. cbn in HV. injection HV as <-.
    exists (2 ^ (-149))%Q. split; [apply pow2_pos |].
    split; [| left; reflexivity].
    setoid_replace (0 - 0 / Y)%Q with 0%Q using relation Qeq by (unfold Qdiv; ring).
    apply Qlt_le_weak, pow2_pos. }
  pose proof (to_Q_finite sx mx ex X HX) as EX.
  unfold Float32.div in HV. cbn [SFdiv] in HV.
  pose proof (SFdiv_core_canonical Float32.prec Float32.emax ltac:(reflexivity)
                (Z.pos mx) ex (Z.pos my) ey ltac:(lia) ltac:(lia)) as Hcan.
  pose proof (SFdiv_core_enclosure Float32.prec Float32.emax
                (Z.pos mx) ex (Z.pos my) ey ltac:(lia) ltac:(lia)) as Henc.
  destruct (SFdiv_core_binary Float32.prec Float32.emax (Z.pos mx) ex (Z.pos my) ey)
    as [[q e'] l].
  destruct Hcan as [Hq He']. destruct Henc as [Hs Hqq].
  rewrite xorb_false_r in HV.
  set (s := ex - ey - e') in *.
  pose proof (pow2_pos ex) as Pex. pose proof (pow2_pos ey) as Pey.
  pose proof (pow2_pos e') as Pe'.
  assert (Pmy : (0 < inject_Z (Z.pos my))%Q) by reflexivity.
  assert (Pden : (0 < inject_Z (Z.pos my) * 2 ^ ey)%Q)
    by (apply Qmult_lt_0_compat; assumption).
  set (xm := (inject_Z (Z.pos mx) * 2 ^ ex / (inject_Z (Z.pos my) * 2 ^ ey))%Q).
  assert (Hex : (2 ^ ex == inject_Z (2 ^ s) * (2 ^ e' * 2 ^ ey))%Q).
  { rewrite pow2_inject by exact Hs. rewrite <- !pow2_add. subst s.
    replace (ex - ey - e' + (e' + ey)) with ex by lia. reflexivity. }
  assert (Pee : (0 < 2 ^ e' * 2 ^ ey)%Q) by (apply Qmult_lt_0_compat; assumption).
  assert (Hlo : (inject_Z q * 2 ^ e' <= xm)%Q).
  { subst xm. apply Qle_shift_div_l; [exact Pden |].
    rewrite Hex.
    setoid_replace (inject_Z q * 2 ^ e' * (inject_Z (Z.pos my) * 2 ^ ey))%Q
      with (inject_Z (Z.pos my * q) * (2 ^ e' * 2 ^ ey))%Q
      using relation Qeq by (rewrite inject_Z_mult; ring).
    setoid_replace (inject_Z (Z.pos mx) * (inject_Z (2 ^ s) * (2 ^ e' * 2 ^ ey)))%Q
      with (inject_Z (Z.pos mx * 2 ^ s) * (2 ^ e' * 2 ^ ey))%Q
      using relation Qeq by (rewrite inject_Z_mult; ring).
    apply Qmult_le_compat_r; [| apply Qlt_le_weak; exact Pee].
    rewrite <- Zle_Qle. lia. }
  assert (Hhi : (xm <= inject_Z (q + 1) * 2 ^ e')%Q).
  { subst xm. apply Qle_shift_div_r; [exact Pden |].
    rewrite Hex.
    setoid_replace (inject_Z (q + 1) * 2 ^ e' * (inject_Z (Z.pos my) * 2 ^ ey))%Q
      with (inject_Z (Z.pos my * (q + 1)) * (2 ^ e' * 2 ^ ey))%Q
      using relation Qeq by (rewrite inject_Z_mult; ring).
    setoid_replace (inject_Z (Z.pos mx) * (inject_Z (2 ^ s) * (2 ^ e' * 2 ^ ey)))%Q
      with (inject_Z (Z.pos mx * 2 ^ s) * (2 ^ e' * 2 ^ ey))%Q
      using relation Qeq by (rewrite inject_Z_mult; ring).
    apply Qmult_le_compat_r; [| apply Qlt_le_weak; exact Pee].
    rewrite <- Zle_Qle. lia. }
  destruct (round_error Float32.prec Float32.emax ltac:(reflexivity)
              sx q e' l xm V Hq He' Hlo Hhi HV)
    as (m' & e'' & Hm' & EV & Elo & Ehi & Hnorm).
  pose proof (pow2_pos e'') as Pe''.
  assert (EXY : (X / Y == inject_Z (cond_Zopp sx 1) * xm)%Q).
  { subst xm. rewrite EX, EY, (inject_cond_Zopp sx (Z.pos mx)).
    field. split; apply Qnot_eq_sym, Qlt_not_eq; assumption. }
  assert (HA : (0 <= inject_Z m' * 2 ^ e'')%Q).
  { apply Qmult_le_0_compat; [rewrite <- (Zle_Qle 0); exact Hm' |
                              apply Qlt_le_weak; exact Pe'']. }
  exists (2 ^ e'')%Q. split; [exact Pe'' |]. split.
  - rewrite EV, EXY, Qabs_signed. apply Qabs_Qle_condition. split; lra.
  - destruct Hnorm as [-> | [_ Hn]]; [left; reflexivity | right].
    rewrite EV, Qabs_signed_nonneg by exact HA. exact Hn.
Qed.

(** The float product of canonical floats is within one unit in the last
    place of the exact product. *)
Lemma mul_error x y (X Y P : Q) :
  Float32.valid x = true -> Float32.valid y = true ->
  Float32.to_Q x = Some X -> Float32.to_Q y = Some Y ->
  Float32.to_Q (Float32.mul x y) = Some P ->
  exists u : Q,
    (0 < u)%Q /\ (Qabs (P - X * Y) <= u)%Q
    /\ ((u == 2 ^ (-149))%Q \/ (inject_Z (2 ^ 23) * u <= Qabs (X * Y))%Q).
Proof.
  intros Vx Vy HX HY HP.
  assert (Hzero : (P == 0)%Q -> (X * Y == 0)%Q ->
                  exists u : Q,
                    (0 < u)%Q /\ (Qabs (P - X * Y) <= u)%Q
                    /\ ((u == 2 ^ (-149))%Q \/ (inject_Z (2 ^ 23) * u <= Qabs (X * Y))%Q)).
  { intros HP0 HXY. exists (2 ^ (-149))%Q. split; [apply pow2_pos |].
    split; [| left; reflexivity].
    rewrite HP0, HXY. apply Qlt_le_weak, pow2_pos. }
  destruct x as [sx | sx | | sx mx ex]; try discriminate HX;
    destruct y as [sy | sy | | sy my ey]; try discriminate HY.
  - injection HX as <-. injection HP as <-. apply Hzero; [reflexivity | ring].
  - injection HX as <-. injection HP as <-. apply Hzero; [reflexivity | ring].
  - injection HY as <-. injection HP as <-. apply Hzero; [reflexivity | ring].
  - pose proof (to_Q_finite sx mx ex X HX) as EX.
    pose proof (to_Q_finite sy my ey Y HY) as EY.
    unfold Float32.mul in HP. cbn [SFmul] in HP.
    set (xm := (inject_Z (Z.pos (mx * my)) * 2 ^ (ex + ey))%Q).
    pose proof (pow2_pos (ex + ey)) as Pe.
    assert (Hlo : (inject_Z (Z.pos (mx * my)) * 2 ^ (ex + ey) <= xm)%Q)
      by apply Qle_refl.
    assert (Hhi : (xm <= inject_Z (Z.pos (mx * my) + 1) * 2 ^ (ex + ey))%Q).
    { subst xm. apply Qmult_le_compat_r; [| apply Qlt_le_weak; exact Pe].
      rewrite <- Zle_Qle. lia. }
    destruct (round_error Float32.prec Float32.emax ltac:(reflexivity)
                (xorb sx sy) (Z.pos (mx * my)) (ex + ey) loc_Exact xm P
                ltac:(lia) (mul_operands_ok sx mx ex sy my ey Vx Vy) Hlo Hhi HP)
      as (m' & e'' & Hm' & EV & Elo & Ehi & Hnorm).
    pose proof (pow2_pos e'') as Pe''.
    assert (Hxm : (0 <= xm)%Q).
    { subst xm. apply Qmult_le_0_compat; [discriminate | apply Qlt_le_weak; exact Pe]. }
    assert (EXY : (X * Y == inject_Z (cond_Zopp (xorb sx sy) 1) * xm)%Q).
    { subst xm. rewrite EX, EY, (inject_cond_Zopp sx), (inject_cond_Zopp sy).
      rewrite Pos2Z.inj_mul, inject_Z_mult, pow2_add.
      destruct sx, sy; cbn [xorb];
        rewrite ?inject_sign_true, ?inject_sign_false; ring. }
    exists (2 ^ e'')%Q. split; [exact Pe'' |]. split.
    + rewrite EV, EXY, Qabs_signed. apply Qabs_Qle_condition. split; lra.
    + destruct Hnorm as [-> | [Hn _]]; [left; reflexivity | right].
      rewrite EXY, Qabs_signed_nonneg by exact Hxm. exact Hn.
Qed.

End OpError.

(** ** Small integers as floats *)

Section SmallInts.

Lemma of_int_small_check :
  forallb (fun n =>
             let q := Z.of_nat n - 128 in
             Float32.valid (Float32.of_int q)
             && match Float32.to_Q (Float32.of_int q) with
                | Some v => Qeq_bool v (inject_Z q)
                | None => false
                end) (seq 0 256) = true.
Proof. vm_compute. reflexivity. Qed.

(** An int8 converts to float exactly. *)
Lemma of_int_small q :
  -128 <= q <= 127 ->
  Float32.valid (Float32.of_int q) = true
  /\ exists v, Float32.to_Q (Float32.of_int q) = Some v /\ (v == inject_Z q)%Q.
Proof.
  intros Hq. pose proof of_int_small_check as H.
  rewrite forallb_forall in H.
  specialize (H (Z.to_nat (q + 128))
                ltac:(apply in_seq; lia)).
  cbv zeta in H. replace (Z.of_nat (Z.to_nat (q + 128)) - 128) with q in H by lia.
  apply andb_prop in H as [Hv Hval]. split; [exact Hv |].
  destruct (Float32.to_Q (Float32.of_int q)) as [v |]; [| discriminate Hval].
  exists v. split; [reflexivity |]. apply Qeq_bool_iff. exact Hval.
Qed.

End SmallInts.

(** ** The stored product *)

Section StoredProduct.

(** Setting the quiet bit of a NaN pattern leaves it a NaN. *)
Lemma of_bits_quieted b :
  Float32.is_nan (Float32.of_bits b) = true ->
  Float32.of_bits (Z.lor b 0x00400000) = S754_nan.
Proof.
  assert (He : Float32.exp_of (Z.lor b 0x00400000) = Float32.exp_of b).
  { unfold Float32.exp_of. rewrite Z.shiftr_lor.
    change (Z.shiftr 0x00400000 23) with 0. rewrite Z.lor_0_r. reflexivity. }
  assert (Hm : Float32.man_of (Z.lor b 0x00400000)
               = Z.lor (Float32.man_of b) 0x00400000).
  { unfold Float32.man_of. rewrite Z.land_lor_distr_l. reflexivity. }
  unfold Float32.of_bits. cbv zeta. rewrite He, Hm.
  destruct (Float32.exp_of b =? 0).
  - destruct (Float32.man_of b); discriminate.
  - destruct (Float32.exp_of b =? 255); [| discriminate].
    destruct (Float32.man_of b =? 0); [discriminate |]. intros _.
    destruct (Z.eqb_spec (Z.lor (Float32.man_of b) 0x00400000) 0) as [E |];
      [| reflexivity].
    apply Z.lor_eq_0_iff in E as [_ E]. discriminate E.
Qed.

(** The pattern stored for a NaN product is a NaN. *)
Lemma of_bits_nan_of_product b :
  Float32.of_bits (Float32.nan_of_product b) = S754_nan.
Proof.
  unfold Float32.nan_of_product.
  destruct (Float32.is_nan (Float32.of_bits b)) eqn:E;
    [exact (of_bits_quieted b E) | reflexivity].
Qed.

(** Away from NaN the stored pattern is the product's own. *)
Lemma dequantize_value_not_nan q scale :
  Float32.is_nan (Float32.mul (Float32.of_int q) (Float32.of_bits scale)) = false ->
  dequantize_value q scale
  = Float32.to_bits (Float32.mul (Float32.of_int q) (Float32.of_bits scale)).
Proof. intros H. unfold dequantize_value. cbv zeta. rewrite H. reflexivity. Qed.

(** The float stored by the dequantizer's loop body is the product. *)
Lemma dequantize_value_stored q scale :
  Float32.valid (Float32.of_int q) = true ->
  Float32.of_bits (dequantize_value q scale)
  = Float32.mul (Float32.of_int q) (Float32.of_bits scale).
Proof.
  intros Hq. unfold dequantize_value. cbv zeta.
  destruct (Float32.is_nan (Float32.mul (Float32.of_int q) (Float32.of_bits scale)))
    eqn:E.
  - rewrite of_bits_nan_of_product.
    destruct (Float32.mul (Float32.of_int q) (Float32.of_bits scale));
      [discriminate E .. | reflexivity | discriminate E].
  - apply of_bits_to_bits, mul_valid; [exact Hq | apply of_bits_valid].
Qed.

(** The returned tensor, field by field. *)
Lemma set_data_fields t ty b :
  type t = ty ->
  set_data t b = {| type := ty; rows := rows t; cols := cols t; data := b |}.
Proof. intros <-. reflexivity. Qed.

End StoredProduct.

(** C9. For every int8 [q] and every scale the float that dequantization
    stores is the IEEE product of [q], converted exactly, and the scale: one
    multiplication, with no clamping (overflow, infinities and NaN
    included).  On well-formed tensors of equal element count
    dequantization writes that product of [source[i]] at every index [i],
    and quantization (where no quotient is a NaN) writes the quantized
    [source[i]] at every index [i]; the returned tensor is the destination
    with its buffer replaced, and both outputs have exactly the element
    count of the source, in the source's order. *)
Theorem elementwise_and_length_preserving :
  (forall q scale,
     -128 <= q <= 127 ->
     (exists v, Float32.to_Q (Float32.of_int q) = Some v /\ (v == inject_Z q)%Q)
     /\ Float32.of_bits (dequantize_value q scale)
        = SFmul 24 128 (Float32.of_int q) (Float32.of_bits scale))
  /\ (forall src dst scale s d,
        tensor_holds src TENSOR_INT8 s ->
        tensor_holds dst TENSOR_FLOAT32 d ->
        length d = length s ->
        exists out,
          dequantize_int8_to_float32 src dst scale
          = Some {| type := TENSOR_FLOAT32; rows := rows dst; cols := cols dst;
                    data := Buf_f32 out |}
          /\ length out = length s
          /\ forall i, out !! i = (fun q => dequantize_value q scale) <$> s !! i)
  /\ (forall src dst scale s d,
        tensor_holds src TENSOR_FLOAT32 s ->
        tensor_holds dst TENSOR_INT8 d ->
        length d = length s ->
        (forall x, x ∈ s ->
           Float32.is_nan (Float32.div (Float32.of_bits x) (Float32.of_bits scale))
           = false) ->
        exists out,
          quantize_float32_to_int8 src dst scale
          = Some {| type := TENSOR_INT8; rows := rows dst; cols := cols dst;
                    data := Buf_i8 out |}
          /\ length out = length s
          /\ forall i x, s !! i = Some x -> quantize_value x scale = out !! i).
Proof.
  split; [| split].
  - intros q scale Hq. destruct (of_int_small q Hq) as (Hv & Hval).
    split; [exact Hval | exact (dequantize_value_stored q scale Hv)].
  - intros src dst scale s d Hs Hd Hlen.
    exists (map (fun q => dequantize_value q scale) s).
    rewrite (dequantize_on_tensors src dst scale s d Hs Hd ltac:(lia)).
    rewrite drop_ge, app_nil_r by lia.
    rewrite (set_data_fields dst TENSOR_FLOAT32 _ (proj1 Hd)).
    split; [reflexivity |]. split; [rewrite length_map; lia |].
    intros i. apply list_lookup_fmap.
  - intros src dst scale s d Hs Hd Hlen Hnan.
    destruct (quantize_values_exist scale s Hnan) as [qs Hqs].
    exists qs.
    rewrite (quantize_on_tensors src dst scale s d qs Hs Hd ltac:(lia) Hqs).
    rewrite drop_ge, app_nil_r by lia.
    rewrite (set_data_fields dst TENSOR_INT8 _ (proj1 Hd)).
    split; [reflexivity |].
    split; [symmetry; exact (Forall2_length _ _ _ Hqs) |].
    intros i x Hx.
    destruct (Forall2_lookup_l _ _ _ _ _ Hqs Hx) as (y & Hy & Hf).
    rewrite Hy. exact Hf.
Qed.

(** The largest int8 times the largest finite float overflows to
    infinity, unclamped; zero times infinity and one times a NaN are stored
    as NaNs; the demo's quantized tensor dequantized into a fresh 2x2
    tensor; the demo's input quantized into a fresh 2x2 tensor. *)
Lemma elementwise_and_length_preserving_witness :
  Float32.of_bits (dequantize_value 127 0x7F7FFFFF) = S754_infinity false
  /\ dequantize_value 127 0x7F7FFFFF = 0x7F800000
  /\ Float32.of_bits (dequantize_value 0 0x7F800000) = S754_nan
  /\ dequantize_value 0 0x7F800000 = 0xFFC00000
  /\ dequantize_value 1 0x7FC00001 = 0x7FC00001
  /\ (exists out,
        dequantize_int8_to_float32
          (tensor2x2 TENSOR_INT8 (Buf_i8 [5; -12; 34; 20]))
          (tensor2x2 TENSOR_FLOAT32 (Buf_f32 [0; 0; 0; 0])) f0_1
        = Some (tensor2x2 TENSOR_FLOAT32 (Buf_f32 out))
        /\ length out = 4%nat
        /\ out !! 3%nat = Some f2_0)
  /\ (exists out,
        quantize_float32_to_int8 input
          (tensor2x2 TENSOR_INT8 (Buf_i8 [0; 0; 0; 0])) f0_1
        = Some (tensor2x2 TENSOR_INT8 (Buf_i8 out))
        /\ length out = 4%nat
        /\ out !! 3%nat = Some 20).
Proof.
  destruct elementwise_and_length_preserving as (Hmul & Hdeq & Hq).
  split; [| split; [reflexivity |]; split; [| do 2 (split; [reflexivity |]); split]].
  - destruct (Hmul 127 0x7F7FFFFF ltac:(lia)) as [_ ->]. reflexivity.
  - destruct (Hmul 0 0x7F800000 ltac:(lia)) as [_ ->]. reflexivity.
  - destruct (Hdeq (tensor2x2 TENSOR_INT8 (Buf_i8 [5; -12; 34; 20]))
                   (tensor2x2 TENSOR_FLOAT32 (Buf_f32 [0; 0; 0; 0])) f0_1
                   [5; -12; 34; 20] [0; 0; 0; 0])
      as (out & Hout & Hlen & Hel).
    + unfold tensor_holds, is_u16. cbn. repeat split; lia.
    + unfold tensor_holds, is_u16. cbn. repeat split; lia.
    + reflexivity.
    + exists out. split; [exact Hout |]. split; [exact Hlen |].
      rewrite (Hel 3%nat). reflexivity.
  - destruct (Hq input (tensor2x2 TENSOR_INT8 (Buf_i8 [0; 0; 0; 0])) f0_1
                 [f0_5; fm1_2; f3_4; f2_1] [0; 0; 0; 0])
      as (out & Hout & Hlen & Hel).
    + unfold tensor_holds, is_u16. cbn. repeat split; lia.
    + unfold tensor_holds, is_u16. cbn. repeat split; lia.
    + reflexivity.
    + intros x Hx.
      repeat (apply elem_of_cons in Hx as [-> | Hx]; [reflexivity |]).
      apply elem_of_nil in Hx. contradiction.
    + exists out. split; [exact Hout |]. split; [exact Hlen |].
      rewrite <- (Hel 3%nat f2_1 eq_refl). reflexivity.
Defined.

(** C8, as the code behaves.  For a finite [x] and a positive finite
    scale [s] whose quantized value [q] is not saturated, the dequantized
    float differs from [x] by less than one full step [s] (not half a
    step), up to the float32 rounding of the quotient and of the product:
    |x - dequantize(quantize(x, s), s)| < s + s / 2^15 + 2^-149. *)
Theorem quantization_error_below_one_step x scale (X S D : Q) (q : Z) :
  f32_value x = Some X ->
  f32_value scale = Some S ->
  (0 < S)%Q ->
  quantize_value x scale = Some q ->
  q <> 127 -> q <> -128 ->
  f32_value (dequantize_value q scale) = Some D ->
  (Qabs (X - D) < S + S * (1 # 32768) + 2 ^ (-149))%Q.
Proof.
  intros HX HS Spos Hq Hn127 Hn128 HD.
  unfold f32_value in HX, HS, HD.
  set (v := Float32.div (Float32.of_bits x) (Float32.of_bits scale)).
  pose proof (div_valid (Float32.of_bits x) (Float32.of_bits scale)) as Hv.
  fold v in Hv.
  assert (Heq : quantize_value x scale =
                  (if Float32.is_nan v then None
                   else if Float32.ltb (Float32.of_int 127) v then Some 127
                   else if Float32.ltb v (Float32.of_int (-128)) then Some (-128)
                   else Float32.trunc v)).
  { unfold quantize_value. fold v. exact (clamp_cast v Hv). }
  rewrite Heq in Hq.
  destruct (Float32.is_nan v) eqn:Hnan; [discriminate Hq |].
  destruct (Float32.ltb (Float32.of_int 127) v) eqn:E1;
    [injection Hq as <-; contradiction |].
  destruct (Float32.ltb v (Float32.of_int (-128))) eqn:E2;
    [injection Hq as <-; contradiction |].
  destruct (trunc_in_range v Hv E1 E2 Hnan) as (q' & Hq' & Hrange).
  rewrite Hq in Hq'. injection Hq' as <-.
  assert (HV : exists V, Float32.to_Q v = Some V).
  { destruct v; try discriminate Hq; eexists; reflexivity. }
  destruct HV as [V HV].
  (* the quotient *)
  destruct (div_error _ _ X S V HX HS Spos HV) as (u1 & U1pos & U1 & U1n).
  assert (Hhi : ~ (inject_Z 127 < V)%Q)
    by (intros H; apply (gt_127_value v V Hv HV) in H; congruence).
  assert (Hlo : ~ (V < inject_Z (-128))%Q)
    by (intros H; apply (lt_m128_value v V Hv HV) in H; congruence).
  change (inject_Z 127) with (127 # 1)%Q in Hhi.
  change (inject_Z (-128)) with (-128 # 1)%Q in Hlo.
  assert (HVabs : (Qabs V <= 128)%Q) by (apply Qabs_Qle_condition; split; lra).
  pose proof pow2_emin_small as Heps. pose proof (pow2_pos (-149)) as Peps.
  change (inject_Z (2 ^ 23)) with (8388608 # 1)%Q in *.
  assert (U1c : (u1 <= 1 # 65536)%Q) by (destruct U1n as [E | E]; lra).
  (* the truncation *)
  pose proof (trunc_error v q V Hq HV) as Ht.
  (* the product *)
  destruct (of_int_small q Hrange) as (Vq_valid & vq & Hvq & Evq).
  rewrite dequantize_value_stored in HD by exact Vq_valid.
  destruct (mul_error _ _ vq S D Vq_valid (of_bits_valid scale) Hvq HS HD)
    as (u2 & U2pos & U2 & U2n).
  change (inject_Z (2 ^ 23)) with (8388608 # 1)%Q in U2n.
  assert (Hqabs : (Qabs (inject_Z q) <= 128)%Q).
  { apply Qabs_Qle_condition. change 128%Q with (inject_Z 128).
    rewrite <- inject_Z_opp, <- !Zle_Qle. lia. }
  assert (U2c : (u2 <= S * (1 # 65536) + 2 ^ (-149))%Q).
  { destruct U2n as [E | E]; [lra |].
    rewrite Evq, Qabs_Qmult, (Qabs_pos S) in E by lra.
    assert (Hz : (Qabs (inject_Z q) * S <= 128 * S)%Q)
      by (apply Qmult_le_compat_r; lra).
    revert E Hz. generalize (Qabs (inject_Z q) * S)%Q. intros z E Hz. lra. }
  (* assembling *)
  set (t := (V - X / S)%Q) in *.
  assert (EXS : (X == (V - t) * S)%Q) by (subst t; field; lra).
  apply Qabs_Qle_condition in U1 as [U1a U1b].
  apply Qabs_Qlt_condition in Ht as [Hta Htb].
  rewrite Evq in U2. apply Qabs_Qle_condition in U2 as [U2a U2b].
  assert (T1 : (- ((1 # 65536) * S) <= t * S)%Q).
  { assert (- (1 # 65536) * S <= t * S)%Q by (apply Qmult_le_compat_r; lra). lra. }
  assert (T2 : (t * S <= (1 # 65536) * S)%Q) by (apply Qmult_le_compat_r; lra).
  assert (W1 : (- S < (V - inject_Z q) * S)%Q).
  { assert (-(1) * S < (V - inject_Z q) * S)%Q by (apply Qmult_lt_compat_r; lra). lra. }
  assert (W2 : ((V - inject_Z q) * S < S)%Q).
  { assert ((V - inject_Z q) * S < 1 * S)%Q by (apply Qmult_lt_compat_r; lra). lra. }
  apply Qabs_Qlt_condition. rewrite EXS.
  split; lra.
Qed.

(** 2.1f at scale 0.1f: quantized to 20, dequantized to 2.0f. *)
Lemma quantization_error_below_one_step_witness :
  quantize_value f2_1 f0_1 = Some 20
  /\ dequantize_value 20 f0_1 = f2_0
  /\ (Qabs ((8808038 # 4194304) - (8388608 # 4194304))
      < (13421773 # 134217728) + (13421773 # 134217728) * (1 # 32768)
        + 2 ^ (-149))%Q.
Proof.
  split; [reflexivity |]. split; [reflexivity |].
  apply (quantization_error_below_one_step f2_1 f0_1 _ _ _ 20);
    first [reflexivity | discriminate].
Defined.

(** 1.75f at scale 1.0f quantizes to 1 (no saturation) and dequantizes to
    1.0f: the error 0.75 exceeds half the scale, 0.5. *)
Lemma half_step_bound_fails : ~ within_half_step f1_75 f1_0.
Proof.
  intros H.
  specialize (H (14680064 # 8388608)%Q (8388608 # 8388608)%Q
                (8388608 # 8388608)%Q 1
                ltac:(reflexivity) ltac:(reflexivity) ltac:(reflexivity)
                ltac:(reflexivity) ltac:(discriminate) ltac:(discriminate)
                ltac:(reflexivity)).
  vm_compute in H. apply H. reflexivity.
Qed.

(** * Further properties of the codec *)

Section CodecFields.

Lemma u16_fields v :
  is_u16 v -> v = sgn16 v * 2 ^ 15 + exp16 v * 2 ^ 10 + man16 v.
Proof.
  unfold is_u16, sgn16, exp16, man16.
  change (2 ^ 16) with 65536; change (2 ^ 15) with 32768;
    change (2 ^ 10) with 1024; change (2 ^ 5) with 32.
  intros H. Z.div_mod_to_equations. lia.
Qed.

(** The numeric fields of a packed single-precision pattern. *)
Lemma num_fields_of_pack32 s e m10 :
  (s = 0 \/ s = 1) -> 0 <= e <= 255 -> 0 <= m10 < 2 ^ 10 ->
  let r := s * 2 ^ 31 + e * 2 ^ 23 + m10 * 2 ^ 13 in
  sgn32 r = s /\ exp32 r = e /\ top10 r = m10.
Proof.
  intros Hs He Hm r. subst r. unfold sgn32, exp32, top10.
  change (2 ^ 31) with 2147483648; change (2 ^ 23) with 8388608;
    change (2 ^ 13) with 8192; change (2 ^ 10) with 1024 in *;
    change (2 ^ 8) with 256.
  repeat split; Z.div_mod_to_equations; lia.
Qed.

Lemma low15_fields v : v mod 2 ^ 15 = exp16 v * 2 ^ 10 + man16 v.
Proof.
  unfold exp16, man16.
  change (2 ^ 15) with 32768; change (2 ^ 10) with 1024; change (2 ^ 5) with 32.
  Z.div_mod_to_equations. lia.
Qed.

End CodecFields.

(** The encoder's result is a 16-bit pattern. *)
Lemma encode_is_u16 bits : is_u16 (float32_to_float16 bits).
Proof.
  rewrite float32_to_float16_arith. unfold is_u16.
  pose proof (exp32_range bits) as He. pose proof (top10_range bits) as Hm.
  destruct (Z.leb_spec (exp32 bits - 112) 0); [lia |].
  destruct (Z.leb_spec 31 (exp32 bits - 112));
    destruct (sgn32_cases bits) as [-> | ->]; lia.
Qed.

(** X2. The decoder's result is a 32-bit pattern whose 13 low bits are
    zero, and it is either +0.0f or a normal float with exponent field
    between 112 and 143: never an infinity, a NaN, a subnormal or -0.0f. *)
Theorem decode_is_zero_or_normal v :
  is_u32 (float16_to_float32 v)
  /\ float16_to_float32 v mod 2 ^ 13 = 0
  /\ (float16_to_float32 v = 0
      \/ 112 <= Float32.exp_of (float16_to_float32 v) <= 143).
Proof.
  rewrite float16_to_float32_arith.
  pose proof (exp16_range v) as He. pose proof (man16_range v) as Hm.
  destruct (Z.eqb_spec (v mod 2 ^ 15) 0) as [Hz | Hz].
  - split; [unfold is_u32; lia |]. split; [reflexivity | left; reflexivity].
  - destruct (fields_of_pack32 (sgn16 v) (exp16 v + 112) (man16 v * 2 ^ 13)
                (sgn16_cases v) ltac:(lia) ltac:(lia)) as (_ & Hx & _).
    split; [| split; [| right; rewrite Hx; lia]].
    + unfold is_u32. destruct (sgn16_cases v) as [-> | ->]; lia.
    + change (2 ^ 31) with (262144 * 2 ^ 13).
      change (2 ^ 23) with (1024 * 2 ^ 13).
      replace (sgn16 v * (262144 * 2 ^ 13) + (exp16 v + 112) * (1024 * 2 ^ 13)
               + man16 v * 2 ^ 13)
        with ((sgn16 v * 262144 + (exp16 v + 112) * 1024 + man16 v) * 2 ^ 13)
        by lia.
      apply Z.mod_mul. lia.
Qed.

Section DecodeEncode.

Lemma decode_encode_normal v :
  is_u16 v -> 1 <= exp16 v <= 30 ->
  float32_to_float16 (float16_to_float32 v) = v.
Proof.
  intros Hu He. pose proof (man16_range v) as Hm.
  rewrite float16_to_float32_arith.
  destruct (Z.eqb_spec (v mod 2 ^ 15) 0) as [Hz | _].
  { rewrite low15_fields in Hz. lia. }
  rewrite float32_to_float16_arith.
  destruct (num_fields_of_pack32 (sgn16 v) (exp16 v + 112) (man16 v)
              (sgn16_cases v) ltac:(lia) Hm) as (Hs & Hx & Ht).
  rewrite Hs, Hx, Ht.
  destruct (Z.leb_spec (exp16 v + 112 - 112) 0); [lia |].
  destruct (Z.leb_spec 31 (exp16 v + 112 - 112)); [lia |].
  rewrite (u16_fields v Hu) at 4. lia.
Qed.

Lemma decode_encode_infinite v :
  is_u16 v -> exp16 v = 31 ->
  float32_to_float16 (float16_to_float32 v) = sgn16 v * 2 ^ 15 + 0x7C00.
Proof.
  intros Hu He. pose proof (man16_range v) as Hm.
  rewrite float16_to_float32_arith.
  destruct (Z.eqb_spec (v mod 2 ^ 15) 0) as [Hz | _].
  { rewrite low15_fields in Hz. lia. }
  rewrite float32_to_float16_arith.
  destruct (num_fields_of_pack32 (sgn16 v) (exp16 v + 112) (man16 v)
              (sgn16_cases v) ltac:(lia) Hm) as (Hs & Hx & Ht).
  rewrite Hs, Hx.
  destruct (Z.leb_spec (exp16 v + 112 - 112) 0); [lia |].
  destruct (Z.leb_spec 31 (exp16 v + 112 - 112)); [| lia].
  reflexivity.
Qed.

End DecodeEncode.

(** X3. Decoding a half-precision pattern with exponent field between 1
    and 30 and encoding the result gives the pattern back. *)
Theorem encode_decode_normal v :
  is_u16 v -> 1 <= exp16 v <= 30 ->
  float32_to_float16 (float16_to_float32 v) = v.
Proof. exact (decode_encode_normal v). Qed.

Lemma encode_decode_normal_witness :
  is_u16 0x42CC /\ 1 <= exp16 0x42CC <= 30
  /\ float32_to_float16 (float16_to_float32 0x42CC) = 0x42CC.
Proof.
  assert (Hu : is_u16 0x42CC) by (unfold is_u16; lia).
  assert (He : 1 <= exp16 0x42CC <= 30) by (vm_compute; split; discriminate).
  split; [exact Hu |]. split; [exact He |].
  exact (encode_decode_normal 0x42CC Hu He).
Defined.

(** X4. The other patterns do not survive: one with exponent field 0 (both
    zeros and every subnormal) comes back as 0, and one with exponent field
    31 (infinities and NaNs) comes back as the infinity code of its sign,
    the mantissa dropped. *)
Theorem encode_decode_special v :
  is_u16 v ->
  (exp16 v = 0 -> float32_to_float16 (float16_to_float32 v) = 0)
  /\ (exp16 v = 31 ->
      float32_to_float16 (float16_to_float32 v) = sgn16 v * 2 ^ 15 + 0x7C00).
Proof.
  intros Hu. pose proof (man16_range v) as Hm.
  split; intros He; [| exact (decode_encode_infinite v Hu He)].
  rewrite float16_to_float32_arith.
  destruct (Z.eqb_spec (v mod 2 ^ 15) 0) as [Hz | _]; [reflexivity |].
  rewrite float32_to_float16_arith.
  destruct (num_fields_of_pack32 (sgn16 v) (exp16 v + 112) (man16 v)
              (sgn16_cases v) ltac:(lia) Hm) as (Hs & Hx & Ht).
  rewrite Hx.
  destruct (Z.leb_spec (exp16 v + 112 - 112) 0); [reflexivity | lia].
Qed.

(** The smallest subnormal, and a NaN. *)
Lemma encode_decode_special_witness :
  is_u16 0x0001 /\ exp16 0x0001 = 0
  /\ float32_to_float16 (float16_to_float32 0x0001) = 0
  /\ is_u16 0xFE01 /\ exp16 0xFE01 = 31
  /\ float32_to_float16 (float16_to_float32 0xFE01) = 0xFC00.
Proof.
  assert (Hu : is_u16 0x0001) by (unfold is_u16; lia).
  assert (Hu' : is_u16 0xFE01) by (unfold is_u16; lia).
  split; [exact Hu |]. split; [reflexivity |].
  split; [exact (proj1 (encode_decode_special 0x0001 Hu) eq_refl) |].
  split; [exact Hu' |]. split; [reflexivity |].
  exact (proj2 (encode_decode_special 0xFE01 Hu') eq_refl).
Defined.

(** X5. Encoding is a projection: encoding, decoding and encoding again
    gives the first encoding, for every input. *)
Theorem encode_decode_encode bits :
  float32_to_float16 (float16_to_float32 (float32_to_float16 bits))
  = float32_to_float16 bits.
Proof.
  pose proof (encode_is_u16 bits) as Hu.
  pose proof (exp32_range bits) as He. pose proof (top10_range bits) as Hm.
  pose proof (float32_to_float16_arith bits) as Hh.
  destruct (Z.leb_spec (exp32 bits - 112) 0) as [H0 | H0].
  { rewrite Hh. reflexivity. }
  destruct (Z.leb_spec 31 (exp32 bits - 112)) as [H1 | H1].
  - destruct (fields_of_pack16 (sgn32 bits) 31 0 (sgn32_cases bits)
                ltac:(lia) ltac:(lia)) as (Fs & Fe & _).
    rewrite Z.add_0_r in Fs, Fe. rewrite <- Hh in Fs, Fe.
    rewrite (decode_encode_infinite _ Hu Fe), Fs, Hh. reflexivity.
  - destruct (fields_of_pack16 (sgn32 bits) (exp32 bits - 112) (top10 bits)
                (sgn32_cases bits) ltac:(lia) Hm) as (_ & Fe & _).
    rewrite <- Hh in Fe.
    apply decode_encode_normal; [exact Hu | lia].
Qed.

Section CodecOrder.

(** The encoder on a pattern with sign bit 0, in terms of quotients. *)
Lemma encode_nonneg bits :
  0 <= bits < 2 ^ 31 ->
  float32_to_float16 bits =
    if bits / 2 ^ 23 <=? 112 then 0
    else if 143 <=? bits / 2 ^ 23 then 31 * 2 ^ 10
    else bits / 2 ^ 13 - 112 * 2 ^ 10.
Proof.
  intros Hb. rewrite float32_to_float16_arith.
  assert (Hs : sgn32 bits = 0).
  { unfold sgn32. rewrite Z.div_small by lia. reflexivity. }
  assert (He : exp32 bits = bits / 2 ^ 23).
  { unfold exp32. apply Z.mod_small.
    change (2 ^ 31) with 2147483648 in Hb. change (2 ^ 23) with 8388608.
    change (2 ^ 8) with 256. Z.div_mod_to_equations. lia. }
  assert (Ht : exp32 bits * 2 ^ 10 + top10 bits = bits / 2 ^ 13).
  { rewrite He. unfold top10.
    change (2 ^ 23) with 8388608; change (2 ^ 13) with 8192;
      change (2 ^ 10) with 1024.
    Z.div_mod_to_equations. lia. }
  rewrite Hs, <- He.
  destruct (Z.leb_spec (exp32 bits - 112) 0), (Z.leb_spec (exp32 bits) 112);
    try lia.
  destruct (Z.leb_spec 31 (exp32 bits - 112)), (Z.leb_spec 143 (exp32 bits));
    try lia.
Qed.

End CodecOrder.

(** X6. On patterns with sign bit 0, whose order is the order of the
    floats they denote, the encoder is monotone. *)
Theorem encode_monotone a b :
  0 <= a -> a <= b -> b < 2 ^ 31 ->
  float32_to_float16 a <= float32_to_float16 b.
Proof.
  intros Ha Hab Hb.
  rewrite (encode_nonneg a) by lia. rewrite (encode_nonneg b) by lia.
  assert (H23 : a / 2 ^ 23 <= b / 2 ^ 23) by (apply Z.div_le_mono; lia).
  assert (H13 : a / 2 ^ 13 <= b / 2 ^ 13) by (apply Z.div_le_mono; lia).
  assert (Ha13 : a / 2 ^ 23 * 2 ^ 10 <= a / 2 ^ 13 < (a / 2 ^ 23 + 1) * 2 ^ 10).
  { change (2 ^ 23) with 8388608; change (2 ^ 13) with 8192;
      change (2 ^ 10) with 1024.
    Z.div_mod_to_equations. lia. }
  assert (Hb13 : b / 2 ^ 23 * 2 ^ 10 <= b / 2 ^ 13 < (b / 2 ^ 23 + 1) * 2 ^ 10).
  { change (2 ^ 23) with 8388608; change (2 ^ 13) with 8192;
      change (2 ^ 10) with 1024.
    Z.div_mod_to_equations. lia. }
  destruct (Z.leb_spec (a / 2 ^ 23) 112), (Z.leb_spec (b / 2 ^ 23) 112);
    destruct (Z.leb_spec 143 (a / 2 ^ 23)), (Z.leb_spec 143 (b / 2 ^ 23));
    lia.
Qed.

(** 1.0f and 1.5f. *)
Lemma encode_monotone_witness :
  float32_to_float16 0x3F800000 <= float32_to_float16 0x3FC00000.
Proof. apply encode_monotone; lia. Defined.

(** X7. Setting the sign bit of the input sets the sign bit of the
    encoding and changes nothing else, except in the underflow branch,
    where both signs give 0. *)
Theorem encode_of_negated bits :
  0 <= bits < 2 ^ 31 ->
  float32_to_float16 (bits + 2 ^ 31) =
    if rebiased bits <=? 0 then 0 else float32_to_float16 bits + 2 ^ 15.
Proof.
  intros Hb. rewrite !float32_to_float16_arith, rebiased_eq.
  assert (Hs : sgn32 bits = 0).
  { unfold sgn32. rewrite Z.div_small by lia. reflexivity. }
  assert (Hs' : sgn32 (bits + 2 ^ 31) = 1).
  { unfold sgn32. change (2 ^ 31) with 2147483648 in *.
    Z.div_mod_to_equations. lia. }
  assert (He : exp32 (bits + 2 ^ 31) = exp32 bits).
  { unfold exp32. change (2 ^ 31) with (256 * 2 ^ 23).
    rewrite Z.div_add by lia. change 256 with (1 * 2 ^ 8) at 1.
    rewrite Z.mod_add by lia. reflexivity. }
  assert (Ht : top10 (bits + 2 ^ 31) = top10 bits).
  { unfold top10. change (2 ^ 31) with (262144 * 2 ^ 13).
    rewrite Z.div_add by lia. change 262144 with (256 * 2 ^ 10) at 1.
    rewrite Z.mod_add by lia. reflexivity. }
  rewrite Hs, Hs', He, Ht.
  destruct (Z.leb_spec (exp32 bits - 112) 0); [reflexivity |].
  destruct (Z.leb_spec 31 (exp32 bits - 112)); lia.
Qed.

(** -3.4f against 3.4f, and the tiny -1e-10f against 1e-10f. *)
Lemma encode_of_negated_witness :
  float32_to_float16 (f3_4 + 2 ^ 31) = float32_to_float16 f3_4 + 2 ^ 15
  /\ float32_to_float16 (0x2EDBE6FF + 2 ^ 31) = 0.
Proof.
  split.
  - rewrite (encode_of_negated f3_4) by (unfold f3_4; lia). reflexivity.
  - rewrite (encode_of_negated 0x2EDBE6FF) by lia. reflexivity.
Defined.

(** X8. In the half-precision normal range the round trip returns the
    input itself exactly when the input's 13 low mantissa bits are zero. *)
Theorem roundtrip_exact_iff bits :
  is_u32 bits -> 0 < rebiased bits < 31 ->
  float16_to_float32 (float32_to_float16 bits) = bits <-> bits mod 2 ^ 13 = 0.
Proof.
  intros Hu Hr. rewrite (roundtrip_bits bits Hr).
  pose proof (u32_fields bits Hu) as Hf.
  assert (Hlow : Float32.man_of bits - bits mod 2 ^ 13 = top10 bits * 2 ^ 13).
  { rewrite top10_eq, man_of_eq.
    change (2 ^ 23) with 8388608; change (2 ^ 13) with 8192.
    Z.div_mod_to_equations. lia. }
  split; intros H; lia.
Qed.

(** 0.5f survives, 3.4f does not. *)
Lemma roundtrip_exact_iff_witness :
  float16_to_float32 (float32_to_float16 f0_5) = f0_5
  /\ float16_to_float32 (float32_to_float16 f3_4) <> f3_4.
Proof.
  assert (Hu : is_u32 f0_5) by (unfold is_u32, f0_5; lia).
  assert (Hr : 0 < rebiased f0_5 < 31) by (vm_compute; split; reflexivity).
  assert (Hu' : is_u32 f3_4) by (unfold is_u32, f3_4; lia).
  assert (Hr' : 0 < rebiased f3_4 < 31) by (vm_compute; split; reflexivity).
  split.
  - apply (roundtrip_exact_iff f0_5 Hu Hr). reflexivity.
  - intros H. apply (roundtrip_exact_iff f3_4 Hu' Hr') in H.
    vm_compute in H. discriminate H.
Defined.

(** X9. Apart from the two zero patterns, which both decode to +0.0f, the
    decoder is injective. *)
Theorem decode_injective v w :
  is_u16 v -> is_u16 w ->
  Z.land v 0x7FFF <> 0 -> Z.land w 0x7FFF <> 0 ->
  float16_to_float32 v = float16_to_float32 w -> v = w.
Proof.
  intros Hv Hw Nv Nw. rewrite !float16_to_float32_arith.
  rewrite low15_eq in Nv, Nw.
  destruct (Z.eqb_spec (v mod 2 ^ 15) 0); [contradiction |].
  destruct (Z.eqb_spec (w mod 2 ^ 15) 0); [contradiction |].
  pose proof (exp16_range v). pose proof (man16_range v).
  pose proof (exp16_range w). pose proof (man16_range w).
  intros Heq.
  rewrite (u16_fields v Hv), (u16_fields w Hw).
  destruct (sgn16_cases v) as [Sv | Sv], (sgn16_cases w) as [Sw | Sw];
    rewrite Sv, Sw in *; lia.
Qed.

(** 1.0 and 2.0 in half precision decode to different floats. *)
Lemma decode_injective_witness :
  is_u16 0x3C00 /\ is_u16 0x4000
  /\ (float16_to_float32 0x3C00 =? float16_to_float32 0x4000) = false.
Proof.
  assert (Hv : is_u16 0x3C00) by (unfold is_u16; lia).
  assert (Hw : is_u16 0x4000) by (unfold is_u16; lia).
  split; [exact Hv |]. split; [exact Hw |].
  destruct (Z.eqb_spec (float16_to_float32 0x3C00) (float16_to_float32 0x4000))
    as [Heq | _]; [| reflexivity].
  pose proof (decode_injective 0x3C00 0x4000 Hv Hw
                ltac:(vm_compute; discriminate) ltac:(vm_compute; discriminate)
                Heq) as H.
  discriminate H.
Defined.

(** X10. The number a decoded pattern stands for: with sign [s], exponent
    field [e] and mantissa [m], every pattern other than the two zeros
    decodes to (-1)^s * (1024 + m) * 2^(e - 25).  The formula of the normal
    range is applied to every exponent field: a subnormal pattern
    ([e = 0]) gets an implicit leading one, and the infinity and NaN
    patterns ([e = 31]) decode to finite numbers from 65536 up. *)
Theorem decode_value v :
  is_u16 v -> Z.land v 0x7FFF <> 0 ->
  exists y : Q,
    f32_value (float16_to_float32 v) = Some y
    /\ (y == inject_Z (cond_Zopp (Z.testbit v 15) (1024 + man16 v))
             * 2 ^ (exp16 v - 25))%Q.
Proof.
  intros _ Hnz. rewrite low15_eq in Hnz.
  rewrite float16_to_float32_arith.
  destruct (Z.eqb_spec (v mod 2 ^ 15) 0) as [Hz | _]; [contradiction |].
  pose proof (exp16_range v) as He. pose proof (man16_range v) as Hm.
  destruct (fields_of_pack32 (sgn16 v) (exp16 v + 112) (man16 v * 2 ^ 13)
              (sgn16_cases v) ltac:(lia) ltac:(lia)) as (Hs & Hx & Hn).
  unfold f32_value. rewrite of_bits_normal by (rewrite Hx; lia).
  rewrite Hs, Hx, Hn.
  assert (Hsign : (sgn16 v =? 1) = Z.testbit v 15)
    by (symmetry; apply testbit_div_mod; lia).
  rewrite Hsign.
  destruct (Float32.to_Q
              (S754_finite (Z.testbit v 15)
                 (Z.to_pos (man16 v * 2 ^ 13 + 2 ^ 23)) (exp16 v + 112 - 150)))
    as [y |] eqn:Hy; [| discriminate Hy].
  exists y. split; [reflexivity |].
  rewrite (to_Q_finite _ _ _ _ Hy). rewrite Z2Pos.id by lia.
  replace (man16 v * 2 ^ 13 + 2 ^ 23) with ((1024 + man16 v) * 2 ^ 13) by lia.
  rewrite (inject_cond_Zopp _ ((1024 + man16 v) * 2 ^ 13)).
  rewrite (inject_cond_Zopp _ (1024 + man16 v)).
  rewrite inject_Z_mult, (pow2_inject 13) by lia.
  replace (exp16 v - 25) with (13 + (exp16 v + 112 - 150)) by lia.
  rewrite pow2_add. ring.
Qed.

(** The smallest subnormal pattern decodes to 1025 * 2^-25, not to 2^-24. *)
Lemma decode_value_witness :
  exists y : Q,
    f32_value (float16_to_float32 0x0001) = Some y
    /\ (y == (1025 # 33554432))%Q.
Proof.
  destruct (decode_value 0x0001) as (y & Hy & Ey).
  - unfold is_u16. lia.
  - vm_compute. discriminate.
  - exists y. split; [exact Hy |]. rewrite Ey. reflexivity.
Defined.

(** * Further properties of the quantizer *)

Section Bounds.

Context {B : Type}.
Variable C : list B -> buffer.
Variable body : nat -> buffer -> option buffer.

(** The body either fails or stores one element in range. *)
Hypothesis body_cases :
  forall i l,
    body i (C l) = None
    \/ exists y, (i < length l)%nat /\ body i (C l) = Some (C (<[i:=y]> l)).

(** A loop that runs past the end of its buffer has no defined result. *)
Lemma for_loop_overrun n :
  forall i l,
    (i <= length l)%nat -> (length l < i + n)%nat ->
    for_loop n i body (C l) = None.
Proof.
  induction n as [| n IH]; intros i l Hi Hn; [lia |].
  cbn [for_loop].
  destruct (body_cases i l) as [-> | (y & Hlt & ->)]; [reflexivity |].
  apply IH; rewrite length_insert; lia.
Qed.

End Bounds.

Section QuantizerBounds.

Lemma quantize_body_cases (s : list Z) scale i l :
  (x ← read_f32 (Buf_f32 s) i; q ← quantize_value x scale; write_i8 (Buf_i8 l) i q)
  = None
  \/ exists y, (i < length l)%nat
     /\ (x ← read_f32 (Buf_f32 s) i; q ← quantize_value x scale;
         write_i8 (Buf_i8 l) i q) = Some (Buf_i8 (<[i:=y]> l)).
Proof.
  cbn [read_f32]. destruct (s !! i) as [x |]; cbn; [| left; reflexivity].
  destruct (quantize_value x scale) as [q |]; cbn; [| left; reflexivity].
  destruct (decide (i < length l)%nat); [right; eauto | left; reflexivity].
Qed.

Lemma dequantize_body_cases (s : list Z) scale i l :
  (q ← read_i8 (Buf_i8 s) i; write_f32 (Buf_f32 l) i (dequantize_value q scale))
  = None
  \/ exists y, (i < length l)%nat
     /\ (q ← read_i8 (Buf_i8 s) i;
         write_f32 (Buf_f32 l) i (dequantize_value q scale))
        = Some (Buf_f32 (<[i:=y]> l)).
Proof.
  cbn [read_i8]. destruct (s !! i) as [q |]; cbn; [| left; reflexivity].
  destruct (decide (i < length l)%nat); [right; eauto | left; reflexivity].
Qed.

End QuantizerBounds.

(** X11. Only the source's dimensions drive the loops.  When the
    destination holds more elements than the source, the call returns the
    destination with its type and dimensions as they were, the first
    [rows * cols] elements of its buffer overwritten with the converted
    source (for dequantization the float product of the element and the
    scale) and the remaining ones keeping their values. *)
Theorem longer_destination_keeps_its_tail :
  (forall src dst scale s d,
     tensor_holds src TENSOR_INT8 s ->
     tensor_holds dst TENSOR_FLOAT32 d ->
     (length s <= length d)%nat ->
     exists out,
       dequantize_int8_to_float32 src dst scale
       = Some {| type := TENSOR_FLOAT32; rows := rows dst; cols := cols dst;
                 data := Buf_f32 out |}
       /\ length out = length d
       /\ (forall i q, s !! i = Some q ->
             out !! i = Some (dequantize_value q scale)
             /\ (-128 <= q <= 127 ->
                 Float32.of_bits (dequantize_value q scale)
                 = SFmul 24 128 (Float32.of_int q) (Float32.of_bits scale)))
       /\ (forall i, (length s <= i)%nat -> out !! i = d !! i))
  /\ (forall src dst scale s d,
        tensor_holds src TENSOR_FLOAT32 s ->
        tensor_holds dst TENSOR_INT8 d ->
        (length s <= length d)%nat ->
        (forall x, x ∈ s ->
           Float32.is_nan (Float32.div (Float32.of_bits x) (Float32.of_bits scale))
           = false) ->
        exists out,
          quantize_float32_to_int8 src dst scale
          = Some {| type := TENSOR_INT8; rows := rows dst; cols := cols dst;
                    data := Buf_i8 out |}
          /\ length out = length d
          /\ (forall i x, s !! i = Some x -> quantize_value x scale = out !! i)
          /\ (forall i, (length s <= i)%nat -> out !! i = d !! i)).
Proof.
  split.
  - intros src dst scale s d Hs Hd Hlen.
    exists (map (fun q => dequantize_value q scale) s ++ drop (length s) d).
    rewrite <- (set_data_fields dst TENSOR_FLOAT32 _ (proj1 Hd)).
    split; [exact (dequantize_on_tensors src dst scale s d Hs Hd Hlen) |].
    split; [rewrite length_app, length_map, length_drop; lia |].
    split.
    + intros i q Hi. split.
      * rewrite lookup_app_l
          by (rewrite length_map; exact (lookup_lt_Some _ _ _ Hi)).
        rewrite list_lookup_fmap, Hi. reflexivity.
      * intros Hq. apply dequantize_value_stored, of_int_small. exact Hq.
    + intros i Hi. rewrite lookup_app_r by (rewrite length_map; exact Hi).
      rewrite length_map, lookup_drop. f_equal. lia.
  - intros src dst scale s d Hs Hd Hlen Hnan.
    destruct (quantize_values_exist scale s Hnan) as [qs Hqs].
    pose proof (Forall2_length _ _ _ Hqs) as Hl.
    exists (qs ++ drop (length s) d).
    rewrite <- (set_data_fields dst TENSOR_INT8 _ (proj1 Hd)).
    split; [exact (quantize_on_tensors src dst scale s d qs Hs Hd Hlen Hqs) |].
    split; [rewrite length_app, length_drop; lia |].
    split.
    + intros i x Hx.
      destruct (Forall2_lookup_l _ _ _ _ _ Hqs Hx) as (y & Hy & Hf).
      rewrite (lookup_app_l_Some _ _ _ _ Hy). exact Hf.
    + intros i Hi. rewrite lookup_app_r by lia.
      rewrite lookup_drop. f_equal. lia.
Qed.

(** A 1x1 source dequantized into a 2x2 destination, and a 1x1 source
    quantized into a 2x2 destination. *)
Lemma longer_destination_keeps_its_tail_witness :
  (exists out,
     dequantize_int8_to_float32
       (tensor1x1 TENSOR_INT8 (Buf_i8 [20]))
       (tensor2x2 TENSOR_FLOAT32 (Buf_f32 [f0_5; f0_5; f0_5; f0_5])) f0_1
     = Some (tensor2x2 TENSOR_FLOAT32 (Buf_f32 out))
     /\ out !! 0%nat = Some f2_0
     /\ out !! 3%nat = Some f0_5)
  /\ (exists out,
        quantize_float32_to_int8
          (tensor1x1 TENSOR_FLOAT32 (Buf_f32 [f2_1]))
          (tensor2x2 TENSOR_INT8 (Buf_i8 [1; 2; 3; 4])) f0_1
        = Some (tensor2x2 TENSOR_INT8 (Buf_i8 out))
        /\ out !! 0%nat = Some 20
        /\ out !! 3%nat = Some 4).
Proof.
  destruct longer_destination_keeps_its_tail as (Hdeq & Hq).
  split.
  - destruct (Hdeq (tensor1x1 TENSOR_INT8 (Buf_i8 [20]))
                   (tensor2x2 TENSOR_FLOAT32 (Buf_f32 [f0_5; f0_5; f0_5; f0_5]))
                   f0_1 [20] [f0_5; f0_5; f0_5; f0_5])
      as (out & Hout & _ & Hhead & Htail).
    + unfold tensor_holds, is_u16. cbn. repeat split; lia.
    + unfold tensor_holds, is_u16. cbn. repeat split; lia.
    + cbn. lia.
    + exists out. split; [exact Hout |]. split.
      * rewrite (proj1 (Hhead 0%nat 20 eq_refl)). reflexivity.
      * rewrite (Htail 3%nat) by (cbn; lia). reflexivity.
  - destruct (Hq (tensor1x1 TENSOR_FLOAT32 (Buf_f32 [f2_1]))
                 (tensor2x2 TENSOR_INT8 (Buf_i8 [1; 2; 3; 4])) f0_1
                 [f2_1] [1; 2; 3; 4])
      as (out & Hout & _ & Hhead & Htail).
    + unfold tensor_holds, is_u16. cbn. repeat split; lia.
    + unfold tensor_holds, is_u16. cbn. repeat split; lia.
    + cbn. lia.
    + intros x Hx.
      repeat (apply elem_of_cons in Hx as [-> | Hx]; [reflexivity |]).
      apply elem_of_nil in Hx. contradiction.
    + exists out. split; [exact Hout |]. split.
      * rewrite <- (Hhead 0%nat f2_1 eq_refl). reflexivity.
      * rewrite (Htail 3%nat) by (cbn; lia). reflexivity.
Defined.

(** X12. Neither function looks at the destination's dimensions: when the
    destination holds fewer elements than the source, the loop stores past
    the end of the destination buffer, which has no defined behaviour. *)
Theorem shorter_destination_is_overrun :
  (forall src dst scale s d,
     tensor_holds src TENSOR_INT8 s ->
     tensor_holds dst TENSOR_FLOAT32 d ->
     (length d < length s)%nat ->
     dequantize_int8_to_float32 src dst scale = None)
  /\ (forall src dst scale s d,
        tensor_holds src TENSOR_FLOAT32 s ->
        tensor_holds dst TENSOR_INT8 d ->
        (length d < length s)%nat ->
        quantize_float32_to_int8 src dst scale = None).
Proof.
  split; intros src dst scale s d Hs Hd Hlen.
  - unfold dequantize_int8_to_float32.
    rewrite (total_of_tensor src _ s Hs).
    destruct Hs as (Ts & Ds & _). destruct Hd as (Td & Dd & _).
    rewrite Ts, Td, Ds, Dd. cbn [buf_of].
    rewrite !bool_decide_eq_false_2 by (intros H; apply H; reflexivity).
    cbn [orb].
    rewrite (for_loop_overrun Buf_f32 _ (dequantize_body_cases s scale))
      by lia.
    reflexivity.
  - unfold quantize_float32_to_int8.
    rewrite (total_of_tensor src _ s Hs).
    destruct Hs as (Ts & Ds & _). destruct Hd as (Td & Dd & _).
    rewrite Ts, Td, Ds, Dd. cbn [buf_of].
    rewrite !bool_decide_eq_false_2 by (intros H; apply H; reflexivity).
    cbn [orb].
    rewrite (for_loop_overrun Buf_i8 _ (quantize_body_cases s scale))
      by lia.
    reflexivity.
Qed.

(** The demo's 2x2 input quantized into a 1x1 destination. *)
Lemma shorter_destination_is_overrun_witness :
  quantize_float32_to_int8 input (tensor1x1 TENSOR_INT8 (Buf_i8 [0])) f0_1 = None.
Proof.
  apply (proj2 shorter_destination_is_overrun input _ f0_1
           [f0_5; fm1_2; f3_4; f2_1] [0]).
  - unfold tensor_holds, is_u16. cbn. repeat split; lia.
  - unfold tensor_holds, is_u16. cbn. repeat split; lia.
  - cbn. lia.
Defined.

(** X13. With a source of zero rows or zero columns and the right type
    tags, both functions return the destination unchanged without touching
    either buffer. *)
Theorem empty_source_is_noop :
  (forall src dst scale,
     type src = TENSOR_FLOAT32 -> type dst = TENSOR_INT8 ->
     rows src = 0 \/ cols src = 0 ->
     quantize_float32_to_int8 src dst scale = Some dst)
  /\ (forall src dst scale,
        type src = TENSOR_INT8 -> type dst = TENSOR_FLOAT32 ->
        rows src = 0 \/ cols src = 0 ->
        dequantize_int8_to_float32 src dst scale = Some dst).
Proof.
  split; intros src dst scale Ts Td H0.
  - unfold quantize_float32_to_int8. rewrite Ts, Td.
    rewrite !bool_decide_eq_false_2 by (intros H; apply H; reflexivity).
    cbn [orb].
    assert (rows src * cols src = 0) as -> by (destruct H0 as [-> | ->]; lia).
    destruct dst; reflexivity.
  - unfold dequantize_int8_to_float32. rewrite Ts, Td.
    rewrite !bool_decide_eq_false_2 by (intros H; apply H; reflexivity).
    cbn [orb].
    assert (rows src * cols src = 0) as -> by (destruct H0 as [-> | ->]; lia).
    destruct dst; reflexivity.
Qed.

(** A 0x3 source whose buffer is not even of the tagged kind. *)
Lemma empty_source_is_noop_witness :
  quantize_float32_to_int8
    {| type := TENSOR_FLOAT32; rows := 0; cols := 3; data := Buf_i8 [] |}
    (tensor1x1 TENSOR_INT8 (Buf_i8 [7])) f0_1
  = Some (tensor1x1 TENSOR_INT8 (Buf_i8 [7])).
Proof.
  apply (proj1 empty_source_is_noop); [reflexivity | reflexivity | left; reflexivity].
Defined.

Section Definedness.

(** A division of finite floats gives a zero, an infinity or a finite
    float of the sign of the quotient, never a NaN. *)
Lemma div_finite_shape sx mx ex sy my ey :
  let v := Float32.div (S754_finite sx mx ex) (S754_finite sy my ey) in
  v = S754_zero (xorb sx sy) \/ v = S754_infinity (xorb sx sy)
  \/ exists m e, v = S754_finite (xorb sx sy) m e.
Proof.
  unfold Float32.div. cbn [SFdiv].
  pose proof (SFdiv_core_canonical Float32.prec Float32.emax ltac:(reflexivity)
                (Z.pos mx) ex (Z.pos my) ey ltac:(lia) ltac:(lia)) as Hcan.
  destruct (SFdiv_core_binary Float32.prec Float32.emax (Z.pos mx) ex (Z.pos my) ey)
    as [[q e'] l].
  destruct Hcan as [Hq He'].
  destruct (binary_round_aux_shape Float32.prec Float32.emax ltac:(reflexivity)
              (xorb sx sy) q e' l Hq He')
    as (m' & e'' & _ & _ & _ & [[Hz _] | [Hinf | (m2 & e2 & Hfin & _)]]).
  - left. exact Hz.
  - right. left. exact Hinf.
  - right. right. exists m2, e2. exact Hfin.
Qed.

Lemma div_is_nan a b :
  Float32.is_nan (Float32.div a b) =
    match a, b with
    | S754_nan, _ | _, S754_nan => true
    | S754_zero _, S754_zero _ => true
    | S754_infinity _, S754_infinity _ => true
    | _, _ => false
    end.
Proof.
  destruct a as [sa | sa | | sa ma ea], b as [sb | sb | | sb mb eb];
    try reflexivity.
  destruct (div_finite_shape sa ma ea sb mb eb) as [-> | [-> | (m & e & ->)]];
    reflexivity.
Qed.

Lemma quantize_value_none_iff x scale :
  quantize_value x scale = None <->
  Float32.is_nan (Float32.div (Float32.of_bits x) (Float32.of_bits scale)) = true.
Proof.
  split.
  - intros Hn.
    destruct (Float32.is_nan
                (Float32.div (Float32.of_bits x) (Float32.of_bits scale))) eqn:E;
      [reflexivity |].
    destruct (quantize_value_defined x scale E) as (q & Hq & _). congruence.
  - intros Hnan. unfold quantize_value.
    pose proof (clamp_cast _ (div_valid (Float32.of_bits x) (Float32.of_bits scale)))
      as Hc.
    cbv zeta in Hc. rewrite Hc, Hnan. reflexivity.
Qed.

End Definedness.

(** X14. The cast in the quantizer is undefined for exactly these pairs of
    element and scale: one of them is a NaN, both are zeros, or both are
    infinities.  Every other pair, a zero or negative or infinite scale
    included, has a quantized value. *)
Theorem quantize_undefined_iff x scale :
  quantize_value x scale = None <->
  match Float32.of_bits x, Float32.of_bits scale with
  | S754_nan, _ | _, S754_nan => True
  | S754_zero _, S754_zero _ => True
  | S754_infinity _, S754_infinity _ => True
  | _, _ => False
  end.
Proof.
  rewrite quantize_value_none_iff, div_is_nan.
  destruct (Float32.of_bits x), (Float32.of_bits scale);
    split; intros H; try reflexivity; try discriminate H; try exact I;
    try contradiction.
Qed.

(** 0.0f at scale 0.0f is undefined; 0.5f at scale -0.0f is not. *)
Lemma quantize_undefined_iff_witness :
  quantize_value 0 0 = None /\ quantize_value f0_5 0x80000000 = Some (-128).
Proof.
  split; [| reflexivity].
  apply (proj2 (quantize_undefined_iff 0 0)). exact I.
Defined.

(** X15. Degenerate scales.  At a zero scale every nonzero element
    saturates: to 127 when its sign equals the sign of the zero, to -128
    otherwise.  At an infinite scale every finite element quantizes to 0. *)
Theorem degenerate_scales x scale ss :
  (Float32.of_bits scale = S754_zero ss ->
   forall sx,
     (exists m e, Float32.of_bits x = S754_finite sx m e)
     \/ Float32.of_bits x = S754_infinity sx ->
     quantize_value x scale = Some (if xorb sx ss then -128 else 127))
  /\ (Float32.of_bits scale = S754_infinity ss ->
      (exists sx m e, Float32.of_bits x = S754_finite sx m e)
      \/ (exists sx, Float32.of_bits x = S754_zero sx) ->
      quantize_value x scale = Some 0).
Proof.
  split; intros Hs.
  - intros sx [(m & e & Hx) | Hx]; unfold quantize_value; rewrite Hs, Hx;
      destruct sx, ss; reflexivity.
  - intros [(sx & m & e & Hx) | (sx & Hx)]; unfold quantize_value;
      rewrite Hs, Hx; destruct sx, ss; reflexivity.
Qed.

(** -1.2f at scale +0.0f, and 3.4f at scale +infinity. *)
Lemma degenerate_scales_witness :
  quantize_value fm1_2 0 = Some (-128)
  /\ quantize_value f3_4 0x7F800000 = Some 0.
Proof.
  split.
  - apply (proj1 (degenerate_scales fm1_2 0 false) eq_refl true).
    left. eexists. eexists. reflexivity.
  - apply (proj2 (degenerate_scales f3_4 0x7F800000 false) eq_refl).
    left. eexists. eexists. eexists. reflexivity.
Defined.

(** X16. Dequantization is the exact product rounded once: for an int8
    [q] and a finite scale, the stored float is within one unit in the last
    place of [q * scale], that is within [|q * scale| / 2^23 + 2^-149]. *)
Theorem dequantize_within_one_ulp q scale (S D : Q) :
  -128 <= q <= 127 ->
  f32_value scale = Some S ->
  f32_value (dequantize_value q scale) = Some D ->
  (Qabs (D - inject_Z q * S)
   <= Qabs (inject_Z q * S) * (1 # 8388608) + 2 ^ (-149))%Q.
Proof.
  intros Hq HS HD. unfold f32_value in HS, HD.
  destruct (of_int_small q Hq) as (Vq_valid & vq & Hvq & Evq).
  rewrite dequantize_value_stored in HD by exact Vq_valid.
  destruct (mul_error _ _ vq S D Vq_valid (of_bits_valid scale) Hvq HS HD)
    as (u & Upos & U & Un).
  change (inject_Z (2 ^ 23)) with (8388608 # 1)%Q in Un.
  rewrite Evq in U, Un.
  pose proof (pow2_pos (-149)) as Peps.
  pose proof (Qabs_nonneg (inject_Z q * S)) as Hnn.
  revert U Un Hnn.
  generalize (Qabs (D - inject_Z q * S)), (Qabs (inject_Z q * S)).
  intros a b U Un Hnn. destruct Un as [E | E]; lra.
Qed.

(** 21 * 0.1f, stored as the float above 2.1f. *)
Lemma dequantize_within_one_ulp_witness :
  dequantize_value 21 f0_1 = f2_1 + 1
  /\ (Qabs ((8808039 # 4194304) - inject_Z 21 * (13421773 # 134217728))
      <= Qabs (inject_Z 21 * (13421773 # 134217728)) * (1 # 8388608)
         + 2 ^ (-149))%Q.
Proof.
  split; [reflexivity |].
  apply (dequantize_within_one_ulp 21 f0_1); [lia | reflexivity | reflexivity].
Defined.

Section ExactQuotient.

Lemma Qabs_cases (a b : Q) : (b <= Qabs a)%Q -> (b <= a)%Q \/ (b <= - a)%Q.
Proof.
  intros H. destruct (Qlt_le_dec a 0) as [Hneg | Hpos].
  - right. rewrite (Qabs_neg a) in H by lra. exact H.
  - left. rewrite (Qabs_pos a) in H by exact Hpos. exact H.
Qed.

(** The sign of a finite float's value. *)
Lemma to_Q_finite_sign s m e V :
  Float32.to_Q (S754_finite s m e) = Some V ->
  if s then (V < 0)%Q else (0 < V)%Q.
Proof.
  intros HV. pose proof (to_Q_finite s m e V HV) as EV.
  pose proof (pow2_pos e) as Pe.
  assert (Hm : (0 < inject_Z (Z.pos m) * 2 ^ e)%Q)
    by (apply Qmult_lt_0_compat; [reflexivity | exact Pe]).
  rewrite inject_cond_Zopp in EV.
  destruct s; [rewrite inject_sign_true in EV | rewrite inject_sign_false in EV];
    rewrite EV; lra.
Qed.

End ExactQuotient.

(** X17. The quantized integer against the exact quotient [x / s] of a
    finite element and a positive finite scale: a quotient above
    127 + 2^-16 gives 127, one below -128 - 2^-16 gives -128, and an
    unsaturated result differs from the quotient by less than 1 + 2^-16. *)
Theorem quantize_tracks_exact_quotient x scale (X S : Q) :
  f32_value x = Some X ->
  f32_value scale = Some S ->
  (0 < S)%Q ->
  exists q,
    quantize_value x scale = Some q
    /\ ((127 + (1 # 65536) < X / S)%Q -> q = 127)
    /\ ((X / S < - (128) - (1 # 65536))%Q -> q = -128)
    /\ (q <> 127 -> q <> -128 ->
        (Qabs (inject_Z q - X / S) < 1 + (1 # 65536))%Q).
Proof.
  intros HX HS Spos. unfold f32_value in HX, HS.
  set (v := Float32.div (Float32.of_bits x) (Float32.of_bits scale)).
  pose proof (div_valid (Float32.of_bits x) (Float32.of_bits scale)) as Hv.
  fold v in Hv.
  assert (Heq : quantize_value x scale =
                  (if Float32.is_nan v then None
                   else if Float32.ltb (Float32.of_int 127) v then Some 127
                   else if Float32.ltb v (Float32.of_int (-128)) then Some (-128)
                   else Float32.trunc v)).
  { unfold quantize_value. fold v. exact (clamp_cast v Hv). }
  (* the scale is a positive finite float *)
  destruct (Float32.of_bits scale) as [ss | ss | | ss ms es] eqn:Es;
    try discriminate HS.
  { injection HS as <-. exfalso. exact (Qlt_irrefl 0 Spos). }
  pose proof (to_Q_finite_sign ss ms es S HS) as Hss.
  destruct ss; [lra |].
  assert (Spos' : ~ (S == 0)%Q) by lra.
  destruct (Float32.of_bits x) as [sx | sx | | sx mx ex] eqn:Ex;
    try discriminate HX.
  - (* a zero element *)
    injection HX as <-. exists 0.
    split; [rewrite Heq; subst v; reflexivity |].
    assert (E0 : (0 / S == 0)%Q) by (field; exact Spos').
    rewrite E0. repeat split; intros; try lra.
  - (* a finite element *)
    pose proof (to_Q_finite_sign sx mx ex X HX) as Hsx.
    assert (Hquo : if sx then (X / S < 0)%Q else (0 < X / S)%Q).
    { assert (Hinv : (0 < / S)%Q) by (apply Qinv_lt_0_compat; exact Spos).
      unfold Qdiv. destruct sx.
      - assert (0 < (- X) * / S)%Q by (apply Qmult_lt_0_compat; lra). lra.
      - apply Qmult_lt_0_compat; lra. }
    destruct (div_finite_shape sx mx ex false ms es) as [Hz | [Hinf | (m & e & Hfin)]];
      rewrite xorb_false_r in *; fold v in Hz || fold v in Hinf || fold v in Hfin.
    + (* the quotient underflows to zero *)
      assert (HV : Float32.to_Q v = Some 0%Q) by (rewrite Hz; reflexivity).
      destruct (div_error _ _ X S 0%Q HX HS Spos HV) as (u & Upos & U & Un).
      change (inject_Z (2 ^ 23)) with (8388608 # 1)%Q in Un.
      change (Qabs 0) with 0%Q in Un.
      pose proof pow2_emin_small as Heps.
      assert (Uc : (u <= 1 # 65536)%Q) by (destruct Un as [E | E]; lra).
      apply Qabs_Qle_condition in U as [Ua Ub].
      exists 0. split; [rewrite Heq, Hz; reflexivity |].
      split; [intros; exfalso; destruct sx; lra |].
      split; [intros; exfalso; destruct sx; lra |].
      intros _ _. apply Qabs_Qlt_condition. change (inject_Z 0) with 0%Q.
      split; lra.
    + (* the quotient overflows *)
      exists (if sx then -128 else 127).
      split; [rewrite Heq, Hinf; destruct sx; reflexivity |].
      destruct sx.
      * split; [intros; exfalso; lra |].
        split; [reflexivity | intros _ Hn; contradiction].
      * split; [reflexivity |].
        split; [intros; exfalso; lra | intros Hn; contradiction].
    + (* the quotient is a finite float *)
      destruct (Float32.to_Q v) as [V |] eqn:HV; [| rewrite Hfin in HV; discriminate HV].
      destruct (div_error _ _ X S V HX HS Spos HV) as (u & Upos & U & Un).
      change (inject_Z (2 ^ 23)) with (8388608 # 1)%Q in Un.
      pose proof pow2_emin_small as Heps. pose proof (pow2_pos (-149)) as Peps.
      apply Qabs_Qle_condition in U as [Ua Ub].
      pose proof (gt_127_value v V Hv HV) as Hhi.
      pose proof (lt_m128_value v V Hv HV) as Hlo.
      change (inject_Z 127) with (127 # 1)%Q in Hhi.
      change (inject_Z (-128)) with (-128 # 1)%Q in Hlo.
      assert (Hnan : Float32.is_nan v = false) by (rewrite Hfin; reflexivity).
      rewrite Heq, Hnan.
      destruct (Float32.ltb (Float32.of_int 127) v) eqn:E1.
      { assert (H127 : (127 < V)%Q) by (apply Hhi; reflexivity).
        exists 127. split; [reflexivity |]. split; [reflexivity |].
        split; [| intros Hn; contradiction].
        intros Hr. exfalso.
        destruct Un as [E | E]; [lra |].
        apply Qabs_cases in E as [E | E]; lra. }
      destruct (Float32.ltb v (Float32.of_int (-128))) eqn:E2.
      { assert (H128 : (V < -128)%Q) by (apply Hlo; reflexivity).
        exists (-128). split; [reflexivity |].
        split; [| split; [reflexivity | intros _ Hn; contradiction]].
        intros Hr. exfalso.
        destruct Un as [E | E]; [lra |].
        apply Qabs_cases in E as [E | E]; lra. }
      assert (Hhi' : ~ (127 < V)%Q) by (intros H; apply Hhi in H; discriminate H).
      assert (Hlo' : ~ (V < -128)%Q) by (intros H; apply Hlo in H; discriminate H).
      assert (Uc : (u <= 1 # 65536)%Q).
      { destruct Un as [E | E]; [lra |].
        apply Qabs_cases in E as [E | E]; lra. }
      destruct (trunc_in_range v Hv E1 E2 Hnan) as (q & Hq & Hrange).
      exists q. split; [exact Hq |].
      split; [intros Hr; exfalso; lra |].
      split; [intros Hr; exfalso; lra |].
      intros _ _. pose proof (trunc_error v q V Hq HV) as Ht.
      apply Qabs_Qlt_condition in Ht as [Hta Htb].
      apply Qabs_Qlt_condition. split; lra.
Qed.

(** 12.8f and 2.1f at scale 0.1f. *)
Lemma quantize_tracks_exact_quotient_witness :
  quantize_value f12_8 f0_1 = Some 127 /\ quantize_value f2_1 f0_1 = Some 20.
Proof.
  destruct (quantize_tracks_exact_quotient f12_8 f0_1
              (13421773 # 1048576)%Q (13421773 # 134217728)%Q
              ltac:(reflexivity) ltac:(reflexivity) ltac:(reflexivity))
    as (q & Hq & Hsat & _).
  rewrite <- (Hsat ltac:(vm_compute; reflexivity)). split; [exact Hq | reflexivity].
Defined.

Section Pipeline.

Lemma quantize_value_range x scale q :
  quantize_value x scale = Some q -> -128 <= q <= 127.
Proof.
  unfold quantize_value, Float32.to_int8.
  match goal with |- context [Float32.trunc ?v] => destruct (Float32.trunc v) as [z |] end;
    [| discriminate].
  destruct (Z.leb_spec (-128) z), (Z.leb_spec z 127); cbn; intros [= <-]; lia.
Qed.

End Pipeline.

(** X18. The demo's pipeline on any well-formed tensors of equal element
    count: quantizing the source into the middle tensor and dequantizing
    that into the final one succeeds when no quotient is a NaN.  Each call
    returns its destination with type and dimensions as they were and a
    new buffer of the source's element count; the middle buffer holds int8
    values only, and element [i] of the final buffer is the float product
    of the quantized element [i] of the source and the scale. *)
Theorem quantize_then_dequantize src mid fin scale (s d1 d2 : list Z) :
  tensor_holds src TENSOR_FLOAT32 s ->
  tensor_holds mid TENSOR_INT8 d1 ->
  tensor_holds fin TENSOR_FLOAT32 d2 ->
  length d1 = length s -> length d2 = length s ->
  (forall x, x ∈ s ->
     Float32.is_nan (Float32.div (Float32.of_bits x) (Float32.of_bits scale))
     = false) ->
  exists qs outs,
    quantize_float32_to_int8 src mid scale
    = Some {| type := TENSOR_INT8; rows := rows mid; cols := cols mid;
              data := Buf_i8 qs |}
    /\ dequantize_int8_to_float32
         {| type := TENSOR_INT8; rows := rows mid; cols := cols mid;
            data := Buf_i8 qs |} fin scale
       = Some {| type := TENSOR_FLOAT32; rows := rows fin; cols := cols fin;
                 data := Buf_f32 outs |}
    /\ length qs = length s
    /\ length outs = length s
    /\ Forall (fun q => -128 <= q <= 127) qs
    /\ forall i x, s !! i = Some x ->
         exists q, quantize_value x scale = Some q
                   /\ qs !! i = Some q
                   /\ outs !! i = Some (dequantize_value q scale)
                   /\ Float32.of_bits (dequantize_value q scale)
                      = SFmul 24 128 (Float32.of_int q) (Float32.of_bits scale).
Proof.
  intros Hs Hm Hf L1 L2 Hnan.
  destruct (quantize_values_exist scale s Hnan) as [qs Hqs].
  pose proof (Forall2_length _ _ _ Hqs) as Lq.
  pose proof (quantize_on_tensors src mid scale s d1 qs Hs Hm ltac:(lia) Hqs) as Hq.
  rewrite drop_ge, app_nil_r in Hq by lia.
  rewrite (set_data_fields mid TENSOR_INT8 _ (proj1 Hm)) in Hq.
  assert (Hm' : tensor_holds
                  {| type := TENSOR_INT8; rows := rows mid; cols := cols mid;
                     data := Buf_i8 qs |} TENSOR_INT8 qs).
  { destruct Hm as (Tm & _ & Rm & Cm & Lm). unfold tensor_holds.
    cbn [type rows cols data buf_of].
    split; [reflexivity |]. split; [reflexivity |]. split; [exact Rm |].
    split; [exact Cm | lia]. }
  pose proof (dequantize_on_tensors _ fin scale qs d2 Hm' Hf ltac:(lia)) as Hd.
  rewrite drop_ge, app_nil_r in Hd by lia.
  rewrite (set_data_fields fin TENSOR_FLOAT32 _ (proj1 Hf)) in Hd.
  assert (Hrange : Forall (fun q => -128 <= q <= 127) qs).
  { apply Forall_forall. intros q Hin.
    apply list_elem_of_lookup in Hin as [i Hi].
    destruct (Forall2_lookup_r _ _ _ _ _ Hqs Hi) as (x & _ & Hx).
    exact (quantize_value_range x scale q Hx). }
  exists qs, (map (fun q => dequantize_value q scale) qs).
  split; [exact Hq |]. split; [exact Hd |].
  split; [lia |]. split; [rewrite length_map; lia |].
  split; [exact Hrange |].
  intros i x Hx.
  destruct (Forall2_lookup_l _ _ _ _ _ Hqs Hx) as (q & Hy & Hf').
  exists q. split; [exact Hf' |]. split; [exact Hy |].
  split; [rewrite list_lookup_fmap, Hy; reflexivity |].
  apply dequantize_value_stored, of_int_small.
  exact (quantize_value_range x scale q Hf').
Qed.

(** The demo itself: the middle tensor holds 5, -12, 34 and 20, the final
    tensor 0.5f, -1.2f, 3.4f and 2.0f. *)
Lemma quantize_then_dequantize_witness :
  exists qs outs,
    quantize_float32_to_int8 input (tensor2x2 TENSOR_INT8 (Buf_i8 [0; 0; 0; 0])) f0_1
    = Some (tensor2x2 TENSOR_INT8 (Buf_i8 qs))
    /\ dequantize_int8_to_float32 (tensor2x2 TENSOR_INT8 (Buf_i8 qs))
         (tensor2x2 TENSOR_FLOAT32 (Buf_f32 [0; 0; 0; 0])) f0_1
       = Some (tensor2x2 TENSOR_FLOAT32 (Buf_f32 outs))
    /\ qs !! 3%nat = Some 20
    /\ outs !! 3%nat = Some f2_0.
Proof.
  destruct (quantize_then_dequantize input
              (tensor2x2 TENSOR_INT8 (Buf_i8 [0; 0; 0; 0]))
              (tensor2x2 TENSOR_FLOAT32 (Buf_f32 [0; 0; 0; 0])) f0_1
              [f0_5; fm1_2; f3_4; f2_1] [0; 0; 0; 0] [0; 0; 0; 0])
    as (qs & outs & Hq & Hd & _ & _ & _ & Hel).
  - unfold tensor_holds, is_u16. cbn. repeat split; lia.
  - unfold tensor_holds, is_u16. cbn. repeat split; lia.
  - unfold tensor_holds, is_u16. cbn. repeat split; lia.
  - reflexivity.
  - reflexivity.
  - intros x Hx.
    repeat (apply elem_of_cons in Hx as [-> | Hx]; [reflexivity |]).
    apply elem_of_nil in Hx. contradiction.
  - exists qs, outs. split; [exact Hq |]. split; [exact Hd |].
    destruct (Hel 3%nat f2_1 eq_refl) as (q & Eq & Hqs & Houts & _).
    injection Eq as <-. split; [exact Hqs | exact Houts].
Defined.

(** * Printing *)

Section LoopSplit.

Context {S : Type}.
Variable body : nat -> S -> option S.

Lemma for_loop_app n m :
  forall i s,
    for_loop (n + m) i body s
    = match for_loop n i body s with
      | Some s' => for_loop m (i + n) body s'
      | None => None
      end.
Proof.
  induction n as [| n IH]; intros i s; cbn [for_loop Nat.add].
  - rewrite Nat.add_0_r. reflexivity.
  - destruct (body i s) as [s' |]; [| reflexivity].
    rewrite IH. replace (Datatypes.S i + n)%nat with (i + Datatypes.S n)%nat by lia.
    reflexivity.
Qed.

End LoopSplit.

Section RowLoop.

Context {A E : Type}.
Variable l : list A.
Variable render : A -> E.
Variable nl : E.
Variable c : nat.
Variable body : nat -> list E -> option (list E).

Hypothesis c_pos : (0 < c)%nat.

(** The body appends the element, and a line break after every [c]-th. *)
Hypothesis body_step :
  forall i x out,
    l !! i = Some x ->
    body i out
    = Some (out ++ [render x]
                ++ (if decide (Datatypes.S i mod c = 0)%nat then [nl] else [])).

(** The rest of a row: [n] elements, then the line break. *)
Lemma loop_row n :
  forall k j out,
    (j + n = c)%nat -> (1 <= n)%nat -> (k * c + c <= length l)%nat ->
    for_loop n (k * c + j) body out
    = Some (out ++ (render <$> take n (drop (k * c + j) l)) ++ [nl]).
Proof.
  induction n as [| n IH]; intros k j out Hj Hn Hlen; [lia |].
  cbn [for_loop].
  destruct (lookup_lt_is_Some_2 l (k * c + j) ltac:(lia)) as [x Hx].
  rewrite (body_step _ x out Hx).
  rewrite (drop_S l x (k * c + j) Hx). cbn [take fmap list_fmap].
  destruct n as [| n].
  - assert (Hmod : (Datatypes.S (k * c + j) mod c = 0)%nat).
    { replace (Datatypes.S (k * c + j)) with ((k + 1) * c)%nat by lia.
      apply Nat.Div0.mod_mul. }
    destruct (decide (Datatypes.S (k * c + j) mod c = 0)%nat); [| contradiction].
    cbn [for_loop take fmap list_fmap]. rewrite <- ?app_assoc. reflexivity.
  - assert (Hmod : (Datatypes.S (k * c + j) mod c <> 0)%nat).
    { replace (Datatypes.S (k * c + j)) with (Datatypes.S j + k * c)%nat by lia.
      rewrite Nat.Div0.mod_add. rewrite Nat.mod_small by lia. lia. }
    destruct (decide (Datatypes.S (k * c + j) mod c = 0)%nat); [contradiction |].
    rewrite app_nil_r.
    replace (Datatypes.S (k * c + j)) with (k * c + Datatypes.S j)%nat by lia.
    rewrite IH by lia.
    rewrite <- ?app_assoc. reflexivity.
Qed.

(** [r] whole rows, starting at row [k]. *)
Lemma loop_rows r :
  forall k out,
    ((k + r) * c = length l)%nat ->
    for_loop (r * c) (k * c) body out
    = Some (out ++ concat ((fun row => (render <$> row) ++ [nl])
                             <$> row_lines r c (drop (k * c) l))).
Proof.
  induction r as [| r IH]; intros k out Hlen.
  - cbn. rewrite app_nil_r. reflexivity.
  - replace (Datatypes.S r * c)%nat with (c + r * c)%nat by lia.
    rewrite for_loop_app.
    pose proof (loop_row c k 0 out ltac:(lia) ltac:(lia) ltac:(nia)) as Hrow.
    rewrite Nat.add_0_r in Hrow. rewrite Hrow.
    replace (k * c + c)%nat with (Datatypes.S k * c)%nat by lia.
    rewrite IH by lia.
    cbn [row_lines fmap list_fmap concat].
    rewrite drop_drop.
    replace (k * c + c)%nat with (Datatypes.S k * c)%nat by lia.
    rewrite <- ?app_assoc. reflexivity.
Qed.

End RowLoop.

Section PrintTensor.

Lemma tensor_dims t ty (l : list Z) :
  tensor_holds t ty l ->
  length l = (Z.to_nat (rows t) * Z.to_nat (cols t))%nat
  /\ Z.of_nat (length l) < 2 ^ 32.
Proof.
  intros (_ & _ & Hr & Hc & Hl). unfold is_u16 in *.
  split; [| change (2 ^ 32) with (2 ^ 16 * 2 ^ 16); nia].
  rewrite <- Z2Nat.inj_mul by lia. lia.
Qed.

Lemma print_element t ty (l : list Z) i x :
  tensor_holds t ty l -> l !! i = Some x ->
  (if bool_decide (type t = TENSOR_FLOAT32)
   then x ← read_f32 (data t) i; Some [Out_float x]
   else if bool_decide (type t = TENSOR_FLOAT16)
   then h ← read_f16 (data t) i; Some [Out_float (float16_to_float32 h)]
   else if bool_decide (type t = TENSOR_INT8)
   then z ← read_i8 (data t) i; Some [Out_int z]
   else Some [])
  = Some [render_element ty x].
Proof.
  intros (Ht & Hd & _) Hx. rewrite Ht, Hd.
  destruct ty; cbn; rewrite Hx; reflexivity.
Qed.

End PrintTensor.

(** X19. On a well-formed tensor with at least one column [print_tensor]
    is defined and prints the header followed by the buffer in row-major
    order: [rows] lines, each of [cols] elements and one line break; a
    float16 element is printed as the float the decoder gives for it. *)
Theorem print_tensor_row_major t ty (l : list Z) :
  tensor_holds t ty l ->
  0 < cols t ->
  print_tensor t
  = Some (Out_header (rows t) (cols t)
          :: concat ((fun row => (render_element ty <$> row) ++ [Out_newline])
                       <$> row_lines (Z.to_nat (rows t)) (Z.to_nat (cols t)) l)).
Proof.
  intros Hwf Hc.
  destruct (tensor_dims t ty l Hwf) as [Hlen Hlt].
  unfold print_tensor. rewrite (total_of_tensor t ty l Hwf), Hlen.
  match goal with |- for_loop _ _ ?b _ = _ => set (body := b) end.
  assert (Hstep : forall i x out,
            l !! i = Some x ->
            body i out
            = Some (out ++ [render_element ty x]
                        ++ (if decide (Datatypes.S i mod Z.to_nat (cols t) = 0)%nat
                            then [Out_newline] else []))).
  { intros i x out Hx. subst body. cbv beta.
    pose proof (lookup_lt_Some _ _ _ Hx) as Hi.
    rewrite (print_element t ty l i x Hwf Hx).
    destruct (Z.eqb_spec (cols t) 0) as [H0 | _]; [lia |].
    cbn [mbind option_bind].
    unfold wrap32. rewrite (Z.mod_small (Z.of_nat i + 1) (2 ^ 32)) by lia.
    replace (Z.of_nat i + 1) with (Z.of_nat (Datatypes.S i)) by lia.
    rewrite <- (Z2Nat.id (cols t)) at 1 by lia.
    rewrite <- Nat2Z.inj_mod.
    destruct (decide (Datatypes.S i mod Z.to_nat (cols t) = 0)%nat) as [E | E].
    - rewrite E. reflexivity.
    - destruct (Z.eqb_spec (Z.of_nat (Datatypes.S i mod Z.to_nat (cols t))) 0);
        [lia | reflexivity]. }
  pose proof (loop_rows l (render_element ty) Out_newline (Z.to_nat (cols t)) body
                ltac:(lia) Hstep (Z.to_nat (rows t)) 0%nat
                [Out_header (rows t) (cols t)] ltac:(lia)) as Hrows.
  cbn [Nat.mul drop] in Hrows. exact Hrows.
Qed.

(** The demo's input tensor. *)
Lemma print_tensor_row_major_witness :
  print_tensor input
  = Some [Out_header 2 2; Out_float f0_5; Out_float fm1_2; Out_newline;
          Out_float f3_4; Out_float f2_1; Out_newline].
Proof.
  rewrite (print_tensor_row_major input TENSOR_FLOAT32 [f0_5; fm1_2; f3_4; f2_1]).
  - reflexivity.
  - unfold tensor_holds, is_u16. cbn. repeat split; lia.
  - reflexivity.
Defined.

(** X20. [print_tensor] never takes a remainder by zero: for any tensor
    with zero columns, or zero rows, the element count is zero, the loop
    body is never entered and only the header is printed. *)
Theorem print_tensor_empty t :
  rows t = 0 \/ cols t = 0 ->
  print_tensor t = Some [Out_header (rows t) (cols t)].
Proof.
  intros H0. unfold print_tensor.
  assert (rows t * cols t = 0) as -> by (destruct H0 as [-> | ->]; lia).
  reflexivity.
Qed.

(** Three rows of no columns. *)
Lemma print_tensor_empty_witness :
  print_tensor {| type := TENSOR_INT8; rows := 3; cols := 0; data := Buf_i8 [] |}
  = Some [Out_header 3 0].
Proof.
  apply (print_tensor_empty
           {| type := TENSOR_INT8; rows := 3; cols := 0; data := Buf_i8 [] |}).
  right. reflexivity.
Defined.

(** * The round trip on values *)

Section RoundTripValues.

Lemma pow2_le a b : a <= b -> (2 ^ a <= 2 ^ b)%Q.
Proof.
  intros Hab. replace b with (a + (b - a)) by lia. rewrite pow2_add.
  pose proof (pow2_pos a) as Pa.
  assert (H1 : (1 <= 2 ^ (b - a))%Q).
  { rewrite <- pow2_inject by lia. change 1%Q with (inject_Z 1).
    rewrite <- Zle_Qle.
    assert (0 < 2 ^ (b - a)) by (apply Z.pow_pos_nonneg; lia). lia. }
  assert (H2 : (2 ^ a * 1 <= 2 ^ a * 2 ^ (b - a))%Q)
    by (apply Qmult_le_l; assumption).
  lra.
Qed.

(** Two floats of the same sign, compared through mantissa and exponent. *)
Lemma same_sign_smaller s (m1 m2 : Z) (e1 e2 : Z) (X Y : Q) :
  0 <= m2 -> m2 <= m1 -> e2 <= e1 ->
  (X == inject_Z (cond_Zopp s 1) * (inject_Z m1 * 2 ^ e1))%Q ->
  (Y == inject_Z (cond_Zopp s 1) * (inject_Z m2 * 2 ^ e2))%Q ->
  (Qabs Y <= Qabs X)%Q /\ (0 <= X * Y)%Q.
Proof.
  intros H2 H12 He EX EY.
  pose proof (pow2_pos e1) as P1. pose proof (pow2_pos e2) as P2.
  pose proof (pow2_le e2 e1 He) as Ple.
  assert (Q2 : (0 <= inject_Z m2)%Q) by (rewrite <- (Zle_Qle 0); exact H2).
  assert (Q12 : (inject_Z m2 <= inject_Z m1)%Q) by (rewrite <- Zle_Qle; exact H12).
  assert (A2 : (0 <= inject_Z m2 * 2 ^ e2)%Q)
    by (apply Qmult_le_0_compat; lra).
  assert (A12 : (inject_Z m2 * 2 ^ e2 <= inject_Z m1 * 2 ^ e1)%Q).
  { apply Qle_trans with (inject_Z m2 * 2 ^ e1)%Q.
    - rewrite (Qmult_comm (inject_Z m2) (2 ^ e2)), (Qmult_comm (inject_Z m2) (2 ^ e1)).
      apply Qmult_le_compat_r; lra.
    - apply Qmult_le_compat_r; lra. }
  split.
  - rewrite EX, EY, !Qabs_signed_nonneg by lra. exact A12.
  - rewrite EX, EY.
    assert (E : (inject_Z (cond_Zopp s 1) * (inject_Z m1 * 2 ^ e1)
                 * (inject_Z (cond_Zopp s 1) * (inject_Z m2 * 2 ^ e2))
                 == (inject_Z m1 * 2 ^ e1) * (inject_Z m2 * 2 ^ e2))%Q).
    { destruct s; rewrite ?inject_sign_true, ?inject_sign_false; ring. }
    rewrite E. apply Qmult_le_0_compat; lra.
Qed.

End RoundTripValues.

Section RoundTripCases.

Lemma to_Q_finite_signed s m e V :
  Float32.to_Q (S754_finite s m e) = Some V ->
  (V == inject_Z (cond_Zopp s 1) * (inject_Z (Z.pos m) * 2 ^ e))%Q.
Proof.
  intros HV. rewrite (to_Q_finite s m e V HV), inject_cond_Zopp. ring.
Qed.

(** A pattern that denotes a number does not have exponent field 255. *)
Lemma finite_exp_of bits X :
  f32_value bits = Some X -> Float32.exp_of bits <> 255.
Proof.
  unfold f32_value, Float32.of_bits. intros HX He. rewrite He in HX.
  cbn [Z.eqb Pos.eqb] in HX.
  destruct (Float32.man_of bits =? 0); discriminate HX.
Qed.

End RoundTripCases.

(** X21. For every float32 that denotes a number, whatever its range, the
    round trip through the half-precision encoding moves toward zero: the
    result is a number of magnitude at most the input's and never of the
    opposite sign (underflow gives 0, overflow gives 65536 with the
    input's sign). *)
Theorem roundtrip_moves_toward_zero bits (X : Q) :
  f32_value bits = Some X ->
  exists Y : Q,
    f32_value (float16_to_float32 (float32_to_float16 bits)) = Some Y
    /\ (Qabs Y <= Qabs X)%Q /\ (0 <= X * Y)%Q.
Proof.
  intros HX. pose proof (finite_exp_of bits X HX) as H255.
  pose proof (exp_of_range bits) as He. pose proof (man_of_range bits) as Hm.
  pose proof (top10_range bits) as Ht.
  assert (Hee : exp32 bits = Float32.exp_of bits)
    by (unfold exp32; rewrite exp_of_eq; reflexivity).
  destruct (Z.le_gt_cases (rebiased bits) 0) as [Hu | Hpos].
  - (* underflow *)
    rewrite float32_to_float16_arith. rewrite rebiased_eq in Hu.
    destruct (Z.leb_spec (exp32 bits - 112) 0); [| lia].
    exists 0%Q. split; [reflexivity |].
    split; [apply Qabs_nonneg |].
    assert (E : (X * 0 == 0)%Q) by ring. rewrite E. apply Qle_refl.
  - assert (Hnorm : 0 < Float32.exp_of bits < 255)
      by (unfold rebiased in Hpos; lia).
    unfold f32_value in HX. rewrite (of_bits_normal bits Hnorm) in HX.
    pose proof (to_Q_finite_signed _ _ _ X HX) as EX.
    rewrite Z2Pos.id in EX by lia. rewrite sign_of_eq in EX.
    destruct (Z.lt_ge_cases (rebiased bits) 31) as [Hlt | Hge].
    + (* normal range *)
      rewrite (roundtrip_bits bits (conj Hpos Hlt)).
      destruct (fields_of_pack32 (sgn32 bits) (exp32 bits) (top10 bits * 2 ^ 13)
                  (sgn32_cases bits) ltac:(lia) ltac:(lia)) as (Fs & Fx & Fn).
      unfold f32_value. rewrite of_bits_normal by (rewrite Fx; lia).
      rewrite Fs, Fx, Fn.
      destruct (Float32.to_Q
                  (S754_finite (sgn32 bits =? 1)
                     (Z.to_pos (top10 bits * 2 ^ 13 + 2 ^ 23)) (exp32 bits - 150)))
        as [Y |] eqn:HY; [| discriminate HY].
      exists Y. split; [reflexivity |].
      pose proof (to_Q_finite_signed _ _ _ Y HY) as EY.
      rewrite Z2Pos.id in EY by lia.
      apply (same_sign_smaller (sgn32 bits =? 1)
               (Float32.man_of bits + 2 ^ 23) (top10 bits * 2 ^ 13 + 2 ^ 23)
               (Float32.exp_of bits - 150) (exp32 bits - 150));
        try assumption; try lia.
      rewrite top10_eq. change (2 ^ 13) with 8192.
      Z.div_mod_to_equations. lia.
    + (* overflow *)
      rewrite float32_to_float16_arith. rewrite rebiased_eq in Hge, Hpos.
      destruct (Z.leb_spec (exp32 bits - 112) 0); [lia |].
      destruct (Z.leb_spec 31 (exp32 bits - 112)); [| lia].
      destruct (fields_of_pack16 (sgn32 bits) 31 0 (sgn32_cases bits)
                  ltac:(lia) ltac:(lia)) as (Gs & Ge & Gm).
      rewrite Z.add_0_r in Gs, Ge, Gm.
      rewrite float16_to_float32_arith, Gs, Ge, Gm.
      destruct (Z.eqb_spec ((sgn32 bits * 2 ^ 15 + 31 * 2 ^ 10) mod 2 ^ 15) 0)
        as [Hz | _].
      { exfalso. destruct (sgn32_cases bits) as [Hs | Hs]; rewrite Hs in Hz;
          vm_compute in Hz; discriminate Hz. }
      destruct (fields_of_pack32 (sgn32 bits) (31 + 112) (0 * 2 ^ 13)
                  (sgn32_cases bits) ltac:(lia) ltac:(lia)) as (Fs & Fx & Fn).
      unfold f32_value. rewrite of_bits_normal by (rewrite Fx; lia).
      rewrite Fs, Fx, Fn.
      destruct (Float32.to_Q
                  (S754_finite (sgn32 bits =? 1)
                     (Z.to_pos (0 * 2 ^ 13 + 2 ^ 23)) (31 + 112 - 150)))
        as [Y |] eqn:HY; [| discriminate HY].
      exists Y. split; [reflexivity |].
      pose proof (to_Q_finite_signed _ _ _ Y HY) as EY.
      rewrite Z2Pos.id in EY by lia.
      apply (same_sign_smaller (sgn32 bits =? 1)
               (Float32.man_of bits + 2 ^ 23) (0 * 2 ^ 13 + 2 ^ 23)
               (Float32.exp_of bits - 150) (31 + 112 - 150));
        try assumption; lia.
Qed.

(** 1e10f comes back as 65536.0f. *)
Lemma roundtrip_moves_toward_zero_witness :
  float16_to_float32 (float32_to_float16 0x501502F9) = 0x47800000
  /\ exists Y : Q,
       f32_value (float16_to_float32 (float32_to_float16 0x501502F9)) = Some Y
       /\ (Qabs Y <= Qabs (inject_Z 10000000000))%Q.
Proof.
  split; [reflexivity |].
  destruct (roundtrip_moves_toward_zero 0x501502F9 (inject_Z 10000000000)
              ltac:(reflexivity)) as (Y & HY & Hle & _).
  exists Y. split; [exact HY | exact Hle].
Defined.

(** X22. Where the branches of the encoder begin, on patterns with sign
    bit 0: the result is 0 exactly below the pattern of 2^-14
    ([0x38800000]), and it is the infinity code [0x7C00] exactly from the
    pattern of 65536.0f ([0x47800000]) on; in between it is neither. *)
Theorem encode_thresholds bits :
  0 <= bits < 2 ^ 31 ->
  (float32_to_float16 bits = 0 <-> bits < 0x38800000)
  /\ (float32_to_float16 bits = 0x7C00 <-> 0x47800000 <= bits).
Proof.
  intros Hb. rewrite (encode_nonneg bits Hb).
  assert (H23 : bits / 2 ^ 23 * 2 ^ 10 <= bits / 2 ^ 13
                < (bits / 2 ^ 23 + 1) * 2 ^ 10).
  { change (2 ^ 23) with 8388608; change (2 ^ 13) with 8192;
      change (2 ^ 10) with 1024.
    Z.div_mod_to_equations. lia. }
  assert (Hq : bits / 2 ^ 23 * 2 ^ 23 <= bits < (bits / 2 ^ 23 + 1) * 2 ^ 23).
  { change (2 ^ 23) with 8388608. Z.div_mod_to_equations. lia. }
  destruct (Z.leb_spec (bits / 2 ^ 23) 112);
    [split; split; intros; lia |].
  destruct (Z.leb_spec 143 (bits / 2 ^ 23));
    split; split; intros; lia.
Qed.

(** 65504.0f, the largest half-precision number, just misses the
    infinity code; 6e-5f, just below 2^-14, is flushed to zero. *)
Lemma encode_thresholds_witness :
  float32_to_float16 0x477FE000 <> 0x7C00
  /\ float32_to_float16 0x387BA882 = 0.
Proof.
  split.
  - intros H. apply (proj2 (encode_thresholds 0x477FE000 ltac:(lia))) in H. lia.
  - apply (proj1 (encode_thresholds 0x387BA882 ltac:(lia))). lia.
Defined.
